(** * labgrid configuration resolution: merge, includes, templates

    A shallow embedding of [labgrid/util/yaml.py] (the custom YAML loader
    helpers, [data_merge], [resolve_includes], [resolve_templates],
    [OptionalTemplate]) together with the properties its specification
    states about them.

    Conventions of the embedding:
    - a document tree is a value of type [value]; Python objects are modelled
      as values, i.e. trees without shared mutable sub-objects (documents
      that do not use YAML anchors to alias a list or a mapping);
    - a Python exception is the [Raise] outcome of a [result];
    - a [dict] is an association list in insertion order whose keys are
      pairwise distinct ([wf_dict]); its [dict_kind] records whether the
      object is a [collections.OrderedDict] (every YAML mapping, see
      [_dict_constructor]) or a plain [dict] (what [json.load] builds);
    - the substitution mappings are finite maps from names to strings. *)

From Stdlib Require Import ZArith String Ascii List Bool Lia.
From Stdlib Require Import Floats.SpecFloat.
From stdpp Require Import base option list strings gmap.
From Equations Require Import Equations.

Open Scope string_scope.
Open Scope list_scope.

(** ** Trees *)

Inductive dict_kind := PlainDict | OrderedDict.

Unset Elimination Schemes.

Inductive value :=
| VNone
| VBool (b : bool)
| VInt (n : Z)
| VFloat (f : spec_float)
| VStr (s : string)
| VUserString (s : string)          (* block style scalar, [_str_constructor] *)
| VList (items : list value)
| VTuple (items : list value)       (* tag python/tuple *)
| VDict (kind : dict_kind) (items : list (string * value))
| VTemplate (template : string)     (* string.Template, tag !template *)
| VOptionalTemplate (tmpl : string) (* tag !optional_template *)
| VObject (id : nat).               (* any other object, by identity *)

Set Elimination Schemes.

(** ** Exceptions *)

Inductive exn :=
| InvalidConfigError (msg : string)
| TypeError (msg : string)
| KeyError (key : string)
| ValueError (msg : string)
| RuntimeError (msg : string)
| FileNotFoundError (filename : string).

Inductive result (A : Type) :=
| Ok (a : A)
| Raise (e : exn).

Arguments Ok {A} a.
Arguments Raise {A} e.

Definition bind {A B} (r : result A) (k : A -> result B) : result B :=
  match r with
  | Ok a => k a
  | Raise e => Raise e
  end.

Notation "'let*' x ':=' r 'in' k" := (bind r (fun x => k))
  (at level 10, x name, r at level 100, k at level 200).

Definition is_ok {A} (r : result A) : bool :=
  match r with Ok _ => true | Raise _ => false end.

(** ** Python's view of a value: its class *)

(** [str(type(x))]. *)
Definition type_repr (x : value) : string :=
  match x with
  | VNone => "<class 'NoneType'>"
  | VBool _ => "<class 'bool'>"
  | VInt _ => "<class 'int'>"
  | VFloat _ => "<class 'float'>"
  | VStr _ => "<class 'str'>"
  | VUserString _ => "<class 'collections.UserString'>"
  | VList _ => "<class 'list'>"
  | VTuple _ => "<class 'tuple'>"
  | VDict PlainDict _ => "<class 'dict'>"
  | VDict OrderedDict _ => "<class 'collections.OrderedDict'>"
  | VTemplate _ => "<class 'string.Template'>"
  | VOptionalTemplate _ => "<class 'labgrid.util.yaml.OptionalTemplate'>"
  | VObject _ => "<class 'object'>"
  end.

(** [type(x).__name__]. *)
Definition type_name (x : value) : string :=
  match x with
  | VNone => "NoneType"
  | VBool _ => "bool"
  | VInt _ => "int"
  | VFloat _ => "float"
  | VStr _ => "str"
  | VUserString _ => "UserString"
  | VList _ => "list"
  | VTuple _ => "tuple"
  | VDict PlainDict _ => "dict"
  | VDict OrderedDict _ => "OrderedDict"
  | VTemplate _ => "Template"
  | VOptionalTemplate _ => "OptionalTemplate"
  | VObject _ => "object"
  end.

(** [isinstance(x, dict)], [isinstance(x, list)] and
    [x is None or isinstance(x, (str, float, int))]; [bool] is a subclass of
    [int], [UserString] is not a subclass of [str]. *)
Definition is_dict (x : value) : bool :=
  match x with VDict _ _ => true | _ => false end.

Definition is_list (x : value) : bool :=
  match x with VList _ => true | _ => false end.

Definition is_none_or_primitive (x : value) : bool :=
  match x with
  | VNone | VStr _ | VFloat _ | VInt _ | VBool _ => true
  | _ => false
  end.

(** ** Dictionaries in insertion order *)

Definition dict := list (string * value).

Fixpoint dict_get (key : string) (d : dict) : option value :=
  match d with
  | [] => None
  | (k, v) :: d' => if String.eqb k key then Some v else dict_get key d'
  end.

(** [d[key] = v]: an existing key keeps its position, a new key goes last. *)
Fixpoint dict_set (key : string) (v : value) (d : dict) : dict :=
  match d with
  | [] => [(key, v)]
  | (k, w) :: d' =>
      if String.eqb k key then (k, v) :: d' else (k, w) :: dict_set key v d'
  end.

(** [d.pop(key)] for a key that is present. *)
Fixpoint dict_pop (key : string) (d : dict) : dict :=
  match d with
  | [] => []
  | (k, w) :: d' => if String.eqb k key then d' else (k, w) :: dict_pop key d'
  end.

Definition keys (d : dict) : list string := map fst d.

Definition wf_dict (d : dict) : Prop := NoDup (keys d).

(** ** [data_merge] *)

(** The double quote character of the messages. *)
Definition dq : string := String (ascii_of_nat 34) EmptyString.

(** ['Datatype not supported "%s" into "%s"' % (type(b), type(a))]. *)
Definition unsupported_msg (a b : value) : string :=
  "Datatype not supported " +:+ dq +:+ type_repr b +:+ dq
    +:+ " into " +:+ dq +:+ type_repr a +:+ dq.

(** [data_merge(a, b)]: [a] is the base, which Python updates in place and
    returns, [b] the override.  The [except TypeError] handler of the source
    is unreachable on trees: no operation of the [try] block raises
    [TypeError] on them (the keys tested with [in] come out of a [dict]). *)
Fixpoint data_merge (a b : value) {struct b} : result value :=
  match a, b with
  | VDict ka da, VDict _ db =>
      let* d := (fix merge_keys (db da : dict) {struct db} : result dict :=
              match db with
              | [] => Ok da
              | (key, vb) :: db' =>
                  match dict_get key da with
                  | Some va =>
                      let* r := data_merge va vb in
                      merge_keys db' (dict_set key r da)
                  | None => merge_keys db' (dict_set key vb da)
                  end
              end) db da in
      Ok (VDict ka d)
  | VList la, VList lb => Ok (VList (la ++ lb))
  | VList la, _ => Ok (VList (la ++ [b]))
  | (VNone | VStr _ | VFloat _ | VInt _ | VBool _), _ => Ok b
  | _, _ => Raise (InvalidConfigError (unsupported_msg a b))
  end.

(** The loop [for key in b: ...] of the mapping case, on its own. *)
Fixpoint merge_keys (db da : dict) {struct db} : result dict :=
  match db with
  | [] => Ok da
  | (key, vb) :: db' =>
      match dict_get key da with
      | Some va =>
          let* r := data_merge va vb in
          merge_keys db' (dict_set key r da)
      | None => merge_keys db' (dict_set key vb da)
      end
  end.

(** ** [string.Template]

    The placeholder grammar of Python's [string.Template]: after the
    delimiter [$] comes a second [$] (an escaped delimiter), an identifier
    [[_a-zA-Z][_a-zA-Z0-9]*] taken as long as possible, or an identifier in
    braces; any other continuation is an invalid placeholder. *)

Inductive token :=
| TLit (c : ascii)          (* a character outside every placeholder *)
| TEscaped                  (* $$ *)
| TNamed (name : string)    (* $name *)
| TBraced (name : string)   (* ${name} *)
| TInvalid.                 (* an ill-formed delimiter expression *)

Definition is_id_start (c : ascii) : bool :=
  let n := nat_of_ascii c in
  ((n =? 95) || ((65 <=? n) && (n <=? 90)) || ((97 <=? n) && (n <=? 122)))%nat.

Definition is_id_char (c : ascii) : bool :=
  let n := nat_of_ascii c in
  (is_id_start c || ((48 <=? n) && (n <=? 57)))%nat.

Definition delimiter : ascii := "$"%char.

Definition snoc (s : string) (c : ascii) : string := s +:+ String c EmptyString.

Inductive scan_state :=
| SText                     (* outside a placeholder *)
| SDelim                    (* the delimiter was read *)
| SNamed (acc : string)     (* inside $name *)
| SBraceOpen                (* after the opening brace *)
| SBraced (acc : string).   (* inside the braces *)

(** The matches of [Template.pattern] from left to right.  Python calls
    [convert] on each match in this order and the first exception leaves
    [substitute], so nothing after the first invalid placeholder matters and
    the scan stops there. *)
Fixpoint scan (st : scan_state) (s : string) : list token :=
  match s with
  | EmptyString =>
      match st with
      | SText => []
      | SNamed acc => [TNamed acc]
      | SDelim | SBraceOpen | SBraced _ => [TInvalid]
      end
  | String c s' =>
      match st with
      | SText =>
          if Ascii.eqb c delimiter then scan SDelim s'
          else TLit c :: scan SText s'
      | SDelim =>
          if Ascii.eqb c delimiter then TEscaped :: scan SText s'
          else if is_id_start c then scan (SNamed (String c EmptyString)) s'
          else if Ascii.eqb c "{"%char then scan SBraceOpen s'
          else [TInvalid]
      | SNamed acc =>
          if is_id_char c then scan (SNamed (snoc acc c)) s'
          else if Ascii.eqb c delimiter then TNamed acc :: scan SDelim s'
          else TNamed acc :: TLit c :: scan SText s'
      | SBraceOpen =>
          if is_id_start c then scan (SBraced (String c EmptyString)) s'
          else [TInvalid]
      | SBraced acc =>
          if is_id_char c then scan (SBraced (snoc acc c)) s'
          else if Ascii.eqb c "}"%char then TBraced acc :: scan SText s'
          else [TInvalid]
      end
  end.

Definition tokens (template : string) : list token := scan SText template.

(** [convert(mo)] of [Template.substitute]: the replacement of one match.
    Python's message for an invalid placeholder goes on with the line and
    the column of the delimiter, which the embedding leaves out. *)
Definition convert (mapping : gmap string string) (t : token) : result string :=
  match t with
  | TLit c => Ok (String c EmptyString)
  | TEscaped => Ok (String delimiter EmptyString)
  | TNamed name | TBraced name =>
      match mapping !! name with
      | Some v => Ok v
      | None => Raise (KeyError name)
      end
  | TInvalid => Raise (ValueError "Invalid placeholder in string")
  end.

Fixpoint substitute_tokens (mapping : gmap string string) (ts : list token)
  : result string :=
  match ts with
  | [] => Ok EmptyString
  | t :: ts' =>
      let* piece := convert mapping t in
      let* rest := substitute_tokens mapping ts' in
      Ok (piece +:+ rest)
  end.

(** [Template(template).substitute(mapping)]. *)
Definition Template_substitute (template : string)
  (mapping : gmap string string) : result string :=
  substitute_tokens mapping (tokens template).

(** The variables a list of matches refers to, in order of appearance.  On
    [tokens template] these are the variables met before the first invalid
    placeholder, all the variables of a well formed template. *)
Fixpoint variables (ts : list token) : list string :=
  match ts with
  | [] => []
  | (TNamed name | TBraced name) :: ts' => name :: variables ts'
  | _ :: ts' => variables ts'
  end.

(** The placeholder grammar of the template is respected. *)
Fixpoint well_formed_tokens (ts : list token) : bool :=
  match ts with
  | [] => true
  | TInvalid :: _ => false
  | _ :: ts' => well_formed_tokens ts'
  end.

Definition well_formed (template : string) : bool :=
  well_formed_tokens (tokens template).

(** Every variable of the matches is a key of the mapping. *)
Definition all_defined (mapping : gmap string string) (ts : list token) : bool :=
  forallb (fun name => bool_decide (is_Some (mapping !! name))) (variables ts).

(** The variables of the template the mapping does not define. *)
Definition unresolved (ts : list token) (mapping : gmap string string)
  : gset string :=
  list_to_set (variables ts) ∖ dom mapping.

(** The template with its escapes undone, every variable of the mapping
    replaced by its value and every other variable by the empty string. *)
Fixpoint fill (mapping : gmap string string) (ts : list token) : string :=
  match ts with
  | [] => EmptyString
  | TLit c :: ts' => String c (fill mapping ts')
  | TEscaped :: ts' => String delimiter (fill mapping ts')
  | (TNamed name | TBraced name) :: ts' =>
      default EmptyString (mapping !! name) +:+ fill mapping ts'
  | TInvalid :: ts' => fill mapping ts'
  end.

(** ** [OptionalTemplate] *)

(** What a call of [OptionalTemplate.substitute] leaves behind: the value it
    returns or the exception it raises, the caller's dictionary, the private
    copy, and the messages passed to [logging.info]. *)
Record substitute_run := {
  returned : result string;
  mappings_after : gmap string string;
  ext_mappings_after : gmap string string;
  logged : list string
}.

Definition inspect {A} (a : A) : {b : A | a = b} := exist _ a eq_refl.

Module OptionalTemplate.

(** The loop [while True: try: ... except KeyError: ...] on the private
    copy [ext_mappings].  Every retry defines one more variable of the
    template, which is why the loop ends. *)
Equations? retry (ts : list token) (mappings ext_mappings : gmap string string)
  (log : list string) : substitute_run
  by wf (size (unresolved ts ext_mappings)) lt :=
retry ts mappings ext_mappings log with inspect (substitute_tokens ext_mappings ts) := {
  | exist _ (Ok s) _ =>
      {| returned := Ok s; mappings_after := mappings;
         ext_mappings_after := ext_mappings; logged := log |}
  | exist _ (Raise (KeyError variable_name)) Hexc =>
      retry ts mappings (<[variable_name := EmptyString]> ext_mappings)
        (log ++ ["Replacing undefined environment variable " +:+ variable_name])
  | exist _ (Raise e) _ =>
      {| returned := Raise e; mappings_after := mappings;
         ext_mappings_after := ext_mappings; logged := log |} }.
Proof.
  assert (Hin : variable_name ∈ variables ts /\ ext_mappings !! variable_name = None).
  { clear retry. revert Hexc. induction ts as [|t ts IH]; simpl; [discriminate|].
    destruct t as [c| |name|name|]; simpl;
      try (destruct (substitute_tokens ext_mappings ts); simpl;
           [discriminate | intros; destruct IH as [? ?]; [assumption|];
            split; [try right|]; assumption]);
      try discriminate.
    all: destruct (ext_mappings !! name) eqn:Hn; simpl;
      [ destruct (substitute_tokens ext_mappings ts); simpl;
        [discriminate | intros; destruct IH as [? ?]; [assumption|];
         split; [right|]; assumption]
      | intros [= <-]; split; [left | assumption] ]. }
  destruct Hin as [Hin Hnone].
  apply subset_size. unfold unresolved. rewrite dom_insert_L.
  apply not_elem_of_dom in Hnone. split.
  - intros y Hy. apply elem_of_difference in Hy as [Hy1 Hy2].
    apply elem_of_difference. split; [assumption|].
    intros Hy3. apply Hy2. apply elem_of_union. now right.
  - intros Hsub. specialize (Hsub variable_name).
    assert (Hn : variable_name
                   ∈ @list_to_set _ (gset string) _ _ _ (variables ts)
                       ∖ dom ext_mappings).
    { apply elem_of_difference. split; [|assumption].
      now apply elem_of_list_to_set. }
    apply Hsub in Hn. apply elem_of_difference in Hn as [_ Hn].
    apply Hn. apply elem_of_union. left. now apply elem_of_singleton.
Qed.

(** [OptionalTemplate(tmpl).substitute(mappings)]. *)
Definition substitute (tmpl : string) (mappings : gmap string string)
  : substitute_run :=
  let ext_mappings := mappings in
  retry (tokens tmpl) mappings ext_mappings [].

End OptionalTemplate.

(** ** [resolve_templates] *)

(** [TypeError(f"Expected list or dict, got {type(data)}")]. *)
Definition expected_list_or_dict (data : value) : exn :=
  TypeError ("Expected list or dict, got " +:+ type_repr data).

(** [ValueError(f"Invalid template string '{val.template}'")]. *)
Definition invalid_template_string (template : string) : exn :=
  ValueError ("Invalid template string '" +:+ template +:+ "'").

(** The body of the loop of [resolve_templates] for one item: what is stored
    back under the key or index of [val] ([val] itself when the item is
    neither a template nor a container, a container being updated in
    place by the recursive call [rec]). *)
Definition resolve_item (rec : value -> result value)
  (mapping : gmap string string) (val : value) : result value :=
  match val with
  | VOptionalTemplate tmpl =>
      let* s := returned (OptionalTemplate.substitute tmpl mapping) in
      Ok (VStr s)
  | VTemplate template =>
      match Template_substitute template mapping with
      | Ok s => Ok (VStr s)
      | Raise (ValueError _) => Raise (invalid_template_string template)
      | Raise e => Raise e
      end
  | VList _ | VDict _ _ => rec val
  | _ => Ok val
  end.

(** [resolve_templates(data, mapping)]; the result is [data] after the
    in-place substitution. *)
Fixpoint resolve_templates (mapping : gmap string string) (data : value)
  {struct data} : result value :=
  match data with
  | VList items =>
      let* items' :=
        (fix over_items (items : list value) : result (list value) :=
           match items with
           | [] => Ok []
           | val :: rest =>
               let* val' := resolve_item (resolve_templates mapping) mapping val in
               let* rest' := over_items rest in
               Ok (val' :: rest')
           end) items in
      Ok (VList items')
  | VDict kind d =>
      let* d' :=
        (fix over_items (d : dict) : result dict :=
           match d with
           | [] => Ok []
           | (k, val) :: rest =>
               let* val' := resolve_item (resolve_templates mapping) mapping val in
               let* rest' := over_items rest in
               Ok ((k, val') :: rest')
           end) d in
      Ok (VDict kind d')
  | _ => Raise (expected_list_or_dict data)
  end.

(** The two loops of [resolve_templates], on their own. *)
Definition resolve_list (mapping : gmap string string)
  : list value -> result (list value) :=
  fix over_items (items : list value) : result (list value) :=
    match items with
    | [] => Ok []
    | val :: rest =>
        let* val' := resolve_item (resolve_templates mapping) mapping val in
        let* rest' := over_items rest in
        Ok (val' :: rest')
    end.

Definition resolve_dict (mapping : gmap string string) : dict -> result dict :=
  fix over_items (d : dict) : result dict :=
    match d with
    | [] => Ok []
    | (k, val) :: rest =>
        let* val' := resolve_item (resolve_templates mapping) mapping val in
        let* rest' := over_items rest in
        Ok ((k, val') :: rest')
    end.

(** ** [resolve_includes] *)

(** ['X' object is not iterable]. *)
Definition not_iterable (x : value) : exn :=
  TypeError ("'" +:+ type_name x +:+ "' object is not iterable").

(** What the iterator of the items view does when it is asked for the next
    item after the dictionary lost a key: an [OrderedDict] whose last key
    was the one just visited is already exhausted and stops normally, every
    other continuation raises. [rest] are the entries not yet visited. *)
Definition next_after_pop {A} (kind : dict_kind) (rest : dict) (data : A)
  : result A :=
  match kind, rest with
  | OrderedDict, [] => Ok data
  | OrderedDict, _ :: _ => Raise (RuntimeError "OrderedDict mutated during iteration")
  | PlainDict, _ => Raise (RuntimeError "dictionary changed size during iteration")
  end.

(** [resolve_includes(data)].  In a list the loop variable [k] is an index
    and never equals ['includes']: the function returns the list as it is.
    In a mapping the loop looks for the key ['includes'] among the entries
    of the mapping itself and nowhere deeper. *)
Fixpoint resolve_includes (data : value) {struct data} : result value :=
  match data with
  | VList _ => Ok data
  | VDict kind d =>
      (fix over_items (rest : dict) : result value :=
         match rest with
         | [] => Ok data
         | (k, val) :: rest' =>
             if String.eqb k "includes" then
               let popped := VDict kind (dict_pop k d) in
               let* merged :=
                 match val with
                 | VList ls | VTuple ls =>
                     (fix over_includes (ls : list value) (data : value)
                        : result value :=
                        match ls with
                        | [] => Ok data
                        | l :: ls' =>
                            let* l' := resolve_includes l in
                            let* data' := data_merge l' data in
                            over_includes ls' data'
                        end) ls popped
                 | VDict _ [] | VStr EmptyString | VUserString EmptyString =>
                     Ok popped
                 | VDict _ ((key, _) :: _) =>
                     Raise (expected_list_or_dict (VStr key))
                 | VStr (String c _) =>
                     Raise (expected_list_or_dict (VStr (String c EmptyString)))
                 | VUserString (String c _) =>
                     Raise (expected_list_or_dict
                              (VUserString (String c EmptyString)))
                 | _ => Raise (not_iterable val)
                 end in
               next_after_pop kind rest' merged
             else over_items rest'
         end) d
  | _ => Raise (expected_list_or_dict data)
  end.

(** The loop [for l in val: ...] over a sequence of fragments, on its own:
    each fragment is resolved, then merged as the base under the
    accumulator [data]. *)
Fixpoint merge_includes (ls : list value) (data : value) : result value :=
  match ls with
  | [] => Ok data
  | l :: ls' =>
      let* l' := resolve_includes l in
      let* data' := data_merge l' data in
      merge_includes ls' data'
  end.

(** The loop [for l in val: ...] for any value bound to ['includes']:
    iterating a mapping yields its keys and iterating a string its
    characters, which are strings again; a value that is no iterable raises
    [TypeError]. *)
Definition over_value (val : value) (popped : value) : result value :=
  match val with
  | VList ls | VTuple ls => merge_includes ls popped
  | VDict _ [] | VStr EmptyString | VUserString EmptyString => Ok popped
  | VDict _ ((key, _) :: _) => Raise (expected_list_or_dict (VStr key))
  | VStr (String c _) =>
      Raise (expected_list_or_dict (VStr (String c EmptyString)))
  | VUserString (String c _) =>
      Raise (expected_list_or_dict (VUserString (String c EmptyString)))
  | _ => Raise (not_iterable val)
  end.

(** The loop [for k, val in items: ...] of a mapping, on its own: [d] is
    the mapping, the argument of the loop the entries still to visit. *)
Definition over_entries (kind : dict_kind) (d : dict) : dict -> result value :=
  fix over_items (rest : dict) : result value :=
    match rest with
    | [] => Ok (VDict kind d)
    | (k, val) :: rest' =>
        if String.eqb k "includes" then
          let* merged := over_value val (VDict kind (dict_pop k d)) in
          next_after_pop kind rest' merged
        else over_items rest'
    end.

(** ** The [!include] constructor *)

(** [os.path.join(a, b)] (POSIX). *)
Definition os_path_join (a b : string) : string :=
  match b with
  | String "/"%char _ => b
  | _ =>
      match rev (list_ascii_of_string a) with
      | [] => b
      | "/"%char :: _ => a +:+ b
      | _ => a +:+ "/" +:+ b
      end
  end.

Definition is_dot (c : ascii) : bool := Ascii.eqb c "."%char.
Definition is_sep (c : ascii) : bool := Ascii.eqb c "/"%char.

(** The longest prefix of characters that satisfy [p]. *)
Fixpoint take_while (p : ascii -> bool) (cs : list ascii) : list ascii :=
  match cs with
  | c :: cs' => if p c then c :: take_while p cs' else []
  | [] => []
  end.

(** [os.path.splitext(p)]: the extension starts at the last dot of the last
    path component, unless only dots come before it in that component. *)
Definition os_path_splitext (p : string) : string * string :=
  let rp := rev (list_ascii_of_string p) in
  let rbase := take_while (fun c => negb (is_sep c)) rp in
  let rext := take_while (fun c => negb (is_dot c)) rbase in
  match drop (length rext) rbase with
  | [] => (p, EmptyString)
  | dot :: rstem =>
      if existsb (fun c => negb (is_dot c)) rstem then
        (string_of_list_ascii (rev (drop (S (length rext)) rp)),
         string_of_list_ascii (dot :: rev rext))
      else (p, EmptyString)
  end.

(** [s.lstrip('.')]. *)
Fixpoint lstrip_dots (s : string) : string :=
  match s with
  | String c s' => if is_dot c then lstrip_dots s' else s
  | EmptyString => s
  end.

(** The state of a [Loader] the constructor reads. *)
Record Loader := {
  substitutions : gmap string string;
  _root : string
}.

(** [f'Could not resolve key {e}'] for [e = KeyError(name)]: the string of a
    [KeyError] is the [repr] of its key, an identifier between quotes. *)
Definition could_not_resolve_key (name : string) : exn :=
  InvalidConfigError ("Could not resolve key '" +:+ name +:+ "'").

Section Include.

(** The environment of the constructor: the file system and the library
    functions applied to a file that was opened. *)
Variable abspath : string -> string.
Variable read_file : string -> option string.
Variable yaml_load : string -> string -> gmap string string -> result value.
Variable json_load : string -> result value.

(** The [try] block: the name of the file to include. *)
Definition include_filename (loader : Loader) (node : string) : result string :=
  match Template_substitute node (substitutions loader) with
  | Ok path => Ok (abspath (os_path_join (_root loader) path))
  | Raise (KeyError name) => Raise (could_not_resolve_key name)
  | Raise e => Raise e
  end.

(** [_construct_include(loader, node)], [node] being the scalar of the
    tag. *)
Definition _construct_include (loader : Loader) (node : string) : result value :=
  let* filename := include_filename loader node in
  let extension := lstrip_dots (snd (os_path_splitext filename)) in
  match read_file filename with
  | None => Raise (FileNotFoundError filename)
  | Some text =>
      if String.eqb extension "yaml" || String.eqb extension "yml" then
        yaml_load filename text (substitutions loader)
      else if String.eqb extension "json" then json_load text
      else Ok (VStr text)
  end.

End Include.

(** ** The accessors of the configuration object *)

Inductive lookup_error :=
| NoTarget (target : string)
| NoOption (target option : string).

(** The entries of a mapping; anything else has none. *)
Definition entries (v : option value) : dict :=
  match v with
  | Some (VDict _ d) => d
  | _ => []
  end.

Definition kind_of (v : option value) : dict_kind :=
  match v with
  | Some (VDict kind _) => kind
  | _ => PlainDict
  end.

Module Config.

(** Modelled from the spec: [labgrid/config.py] is not among the sources;
    section 4.5 says that [get_target_option] looks up
    [data["targets"][target]["options"][option]], fails with a "no such
    target" error if [target] is absent from [targets] and with a "no such
    option" error if [option] is absent, also when the target has no
    [options] section at all. *)
Definition get_target_option (data : value) (target option : string)
  : lookup_error + value :=
  match dict_get target (entries (dict_get "targets" (entries (Some data)))) with
  | None => inl (NoTarget target)
  | Some t =>
      match dict_get option (entries (dict_get "options" (entries (Some t)))) with
      | None => inl (NoOption target option)
      | Some v => inr v
      end
  end.

(** Modelled from the spec: [labgrid/config.py] is not among the sources;
    section 4.5 says that [set_target_option] creates the intermediate
    [options] mapping under [target] if absent, then sets the value, with
    no existence check on [target] or [option], and always succeeds.  A
    level of the path that is absent, or that is no mapping (the empty
    target of the test is [None]), is created as an empty mapping. *)
Definition set_target_option (data : value) (target option : string)
  (v : value) : value :=
  let targets := dict_get "targets" (entries (Some data)) in
  let t := dict_get target (entries targets) in
  let options := dict_get "options" (entries t) in
  let options' := VDict (kind_of options) (dict_set option v (entries options)) in
  let t' := VDict (kind_of t) (dict_set "options" options' (entries t)) in
  let targets' := VDict (kind_of targets) (dict_set target t' (entries targets)) in
  VDict (kind_of (Some data)) (dict_set "targets" targets' (entries (Some data))).

End Config.

(** ** Predicates of the statements *)

(** The pairs [data_merge] has no case for: the base is neither a list, nor
    [None] or a primitive scalar, nor a mapping facing a mapping. *)
Definition unsupported (a b : value) : bool :=
  negb (is_dict a && is_dict b) && negb (is_list a)
  && negb (is_none_or_primitive a).

(** The leftmost defect of a template under a mapping, if it has one. *)
Inductive defect :=
| Malformed
| Unknown (name : string).

Fixpoint first_defect (mapping : gmap string string) (ts : list token)
  : option defect :=
  match ts with
  | [] => None
  | TInvalid :: _ => Some Malformed
  | (TNamed name | TBraced name) :: ts' =>
      match mapping !! name with
      | Some _ => first_defect mapping ts'
      | None => Some (Unknown name)
      end
  | _ :: ts' => first_defect mapping ts'
  end.

(** The key is absent from the mapping, or bound in it to [None] or to a
    primitive scalar. *)
Definition scalar_or_absent (key : string) (d : dict) : bool :=
  match dict_get key d with
  | Some v => is_none_or_primitive v
  | None => true
  end.

(** ** The mapping constructor of the loader *)

(** [f"{loader.name}: previous entry with duplicate YAML dictionary key
    '{key}' overwritten"]. *)
Definition duplicate_key_warning (name key : string) : string :=
  name +:+ ": previous entry with duplicate YAML dictionary key '" +:+ key
    +:+ "' overwritten".

(** A key node of a mapping node, a scalar: its text, which
    [loader.construct_scalar(key_node)] returns, and the key that
    [construct_pairs] constructs from it ([construct_object(key_node)]).  The
    two differ when the scalar resolves to something other than a string:
    the plain scalar [1] has the text ['1'] and constructs the number [1],
    the plain scalars [yes] and [true] both construct [True].  [K] is the
    type of constructed keys; two keys are equal in [K] when a dictionary
    takes them for the same key.  A key node that is no scalar makes
    [construct_scalar] raise; the mapping nodes modelled have scalar
    keys. *)
Record key_node (K : Type) : Type :=
  { key_text : string; key_object : K }.
Arguments key_text {K} _.
Arguments key_object {K} _.

(** The loop of [_check_duplicate_dict_keys] from a list [seen_keys]: the
    warnings it issues, in order.  [pairs] stands for [node.value]; the loop
    looks at the key nodes only, and at their texts only. *)
Fixpoint check_keys_from {K : Type} (name : string) (seen_keys : list string)
  (pairs : list (key_node K * value)) : list string :=
  match pairs with
  | [] => []
  | (key_node, _) :: rest =>
      let key := key_text key_node in
      (if bool_decide (key ∈ seen_keys)
       then [duplicate_key_warning name key] else [])
      ++ check_keys_from name (seen_keys ++ [key]) rest
  end.

(** [_check_duplicate_dict_keys(loader, node)]: the warnings issued. *)
Definition _check_duplicate_dict_keys {K : Type} (name : string)
  (pairs : list (key_node K * value)) : list string :=
  check_keys_from name [] pairs.

(** A dictionary keyed by constructed keys, in insertion order. *)
Fixpoint odict_get {K : Type} `{EqDecision K} (key : K) (d : list (K * value))
  : option value :=
  match d with
  | [] => None
  | (k, v) :: rest => if decide (k = key) then Some v else odict_get key rest
  end.

(** [d[key] = v]: an existing key keeps its place, a new one goes last. *)
Fixpoint odict_set {K : Type} `{EqDecision K} (key : K) (v : value)
  (d : list (K * value)) : list (K * value) :=
  match d with
  | [] => [(key, v)]
  | (k, w) :: rest =>
      if decide (k = key) then (k, v) :: rest else (k, w) :: odict_set key v rest
  end.

(** [OrderedDict(pairs)]: the pairs are stored one after the other. *)
Definition OrderedDict_of {K : Type} `{EqDecision K} (pairs : list (K * value))
  : list (K * value) :=
  fold_left (fun d kv => odict_set (fst kv) (snd kv) d) pairs [].

(** [loader.construct_pairs(node)]: the constructed key and the constructed
    value of every entry, in the order of the node.  The values of [pairs]
    stand for the constructed values. *)
Definition construct_pairs {K : Type} (pairs : list (key_node K * value))
  : list (K * value) :=
  map (fun kv => (key_object (fst kv), snd kv)) pairs.

(** [_dict_constructor(loader, node)]: the warnings, which go by the texts of
    the key nodes, and the [OrderedDict], which goes by the constructed
    keys. *)
Definition _dict_constructor {K : Type} `{EqDecision K} (name : string)
  (pairs : list (key_node K * value)) : list string * list (K * value) :=
  (_check_duplicate_dict_keys name pairs, OrderedDict_of (construct_pairs pairs)).

(** A key node whose scalar is a string: the constructed key is the text. *)
Definition str_key (text : string) : key_node string :=
  {| key_text := text; key_object := text |}.

(** ** Predicates on trees *)

(** The values a [for] loop can iterate. *)
Definition is_iterable (v : value) : bool :=
  match v with
  | VList _ | VTuple _ | VDict _ _ | VStr _ | VUserString _ => true
  | _ => false
  end.

(** A list, or a mapping that has no key ['includes']. *)
Definition includes_free (v : value) : bool :=
  match v with
  | VList _ => true
  | VDict _ d => negb (bool_decide ("includes" ∈ keys d))
  | _ => false
  end.

(** A template object, strict or optional. *)
Definition is_template (v : value) : bool :=
  match v with
  | VTemplate _ | VOptionalTemplate _ => true
  | _ => false
  end.

(** No template object is an item of the tree, of a list in it or of a
    mapping in it, at any depth the loops of [resolve_templates] reach:
    lists and mappings are entered, tuples are not. *)
Fixpoint settled (v : value) : bool :=
  match v with
  | VTemplate _ | VOptionalTemplate _ => false
  | VList items => forallb settled items
  | VDict _ d => forallb (fun kv => let '(_, val) := kv in settled val) d
  | _ => true
  end.

(** [same_shape v v']: [v'] is [v] in which template objects have become
    strings, at any depth the loops of [resolve_templates] reach.  A
    template corresponds to a string; a list to a list of the same length
    whose items correspond one by one; a mapping to a mapping of the same
    class with the same keys in the same order whose values correspond one
    by one; anything else (a scalar, [None], a tuple, another object) to
    itself. *)
Unset Elimination Schemes.

Inductive same_shape : value -> value -> Prop :=
| shape_template template s : same_shape (VTemplate template) (VStr s)
| shape_optional_template tmpl s : same_shape (VOptionalTemplate tmpl) (VStr s)
| shape_list items items' :
    Forall2 same_shape items items' -> same_shape (VList items) (VList items')
| shape_dict kind d d' :
    Forall2 (fun kv kv' => fst kv = fst kv' /\ same_shape (snd kv) (snd kv')) d d' ->
    same_shape (VDict kind d) (VDict kind d')
| shape_other v :
    is_template v = false -> is_list v = false -> is_dict v = false ->
    same_shape v v.

Set Elimination Schemes.

(** The variables the mapping lacks, each once, in the order in which
    [OptionalTemplate.substitute] meets them. *)
Fixpoint missing (mapping : gmap string string) (ts : list token)
  : list string :=
  match ts with
  | [] => []
  | (TNamed name | TBraced name) :: ts' =>
      match mapping !! name with
      | Some _ => missing mapping ts'
      | None => name :: missing (<[name := EmptyString]> mapping) ts'
      end
  | _ :: ts' => missing mapping ts'
  end.

(** [logging.info(f'Replacing undefined environment variable {name}')]. *)
Definition replacing_message (name : string) : string :=
  "Replacing undefined environment variable " +:+ name.

(** The delimiter occurs in the string. *)
Fixpoint mentions_delimiter (s : string) : bool :=
  match s with
  | EmptyString => false
  | String c s' => Ascii.eqb c delimiter || mentions_delimiter s'
  end.

(** A Python identifier in ASCII: a letter or an underscore, then letters,
    digits and underscores. *)
Definition is_identifier (s : string) : bool :=
  match s with
  | EmptyString => false
  | String c s' => is_id_start c && forallb is_id_char (list_ascii_of_string s')
  end.

(** ** File names *)

(** The longest prefix of characters that satisfy [p], dropped. *)
Fixpoint drop_while (p : ascii -> bool) (cs : list ascii) : list ascii :=
  match cs with
  | c :: cs' => if p c then drop_while p cs' else cs
  | [] => []
  end.

(** [os.path.split(p)] (POSIX): the tail is what follows the last
    separator; the head is what comes before, without its trailing
    separators unless it consists of separators only. *)
Definition os_path_split (p : string) : string * string :=
  let rp := rev (list_ascii_of_string p) in
  let rtail := take_while (fun c => negb (is_sep c)) rp in
  let rhead := drop (length rtail) rp in
  let head :=
    if forallb is_sep rhead then rev rhead else rev (drop_while is_sep rhead) in
  (string_of_list_ascii head, string_of_list_ascii (rev rtail)).

(** [Loader.__init__(stream, substitutions)]: [name] is [stream.name],
    absent when the stream has no such attribute (a string, say), in which
    case the root is [os.path.curdir]. *)
Definition Loader_init (name : option string)
  (substitutions : gmap string string) : Loader :=
  {| substitutions := substitutions;
     _root := match name with
              | Some n => fst (os_path_split n)
              | None => "."
              end |}.

(** A file extension: no dot and no separator in it. *)
Definition plain_extension (e : string) : bool :=
  forallb (fun c => negb (is_dot c) && negb (is_sep c)) (list_ascii_of_string e).

(** A path component: no separator in it. *)
Definition is_component (s : string) : bool :=
  forallb (fun c => negb (is_sep c)) (list_ascii_of_string s).

(** The last component of the path has a character that is no dot. *)
Definition has_stem (p : string) : bool :=
  existsb (fun c => negb (is_dot c))
    (take_while (fun c => negb (is_sep c)) (rev (list_ascii_of_string p))).

(** [_str_constructor(loader, node)]: [style] is [node.style] and [text]
    the scalar of the node.  The marks stored on the [UserString] object
    are attributes that no function of the module reads; the tree model
    does not carry them. *)
Definition _str_constructor (style : option ascii) (text : string) : value :=
  match style with
  | Some "|"%char => VUserString text
  | _ => VStr text
  end.

(** [_template_constructor] and [_optional_template_constructor]. *)
Definition _template_constructor (text : string) : value := VTemplate text.
Definition _optional_template_constructor (text : string) : value :=
  VOptionalTemplate text.

(** The string is not empty and does not end with a separator. *)
Definition ends_in_component (dir : string) : bool :=
  match rev (list_ascii_of_string dir) with
  | c :: _ => negb (is_sep c)
  | [] => false
  end.

(** The path is relative: it does not start with a separator. *)
Definition is_relative (path : string) : bool :=
  match path with
  | String c _ => negb (is_sep c)
  | EmptyString => true
  end.

(** ** The pytest hooks ([labgrid/pytestplugin/hooks.py]) *)

From stdpp Require Import pretty.

(** What a hook leaves behind when it raises: [Exception(msg)]. *)
Inductive raised := Exception (msg : string).

(** The first argument of an [lg_feature] marker: a string, a list of
    strings, or a value of another type. *)
Inductive marker_arg :=
| ArgStr (feature : string)
| ArgList (features : list string)
| ArgOther.

(** The skip marker added to an item.  Its reason is the text
    [Skipping because feature "{missing}" is not supported], or the plural
    [features "{missing}" are not supported], where [{missing}] prints the
    set of the missing features; the marker is given by the set and by
    which of the two texts it is. *)
Inductive skip_marker :=
| SkipFeature (missing : gset string)
| SkipFeatures (missing : gset string).

(** The inner loop [for marker in item.iter_markers("lg_feature")]: the
    set [want_feature]. *)
Fixpoint want_feature_from (want : gset string) (markers : list marker_arg)
  : raised + gset string :=
  match markers with
  | [] => inr want
  | ArgStr arg :: rest => want_feature_from (want ∪ {[ arg ]}) rest
  | ArgList arg :: rest => want_feature_from (want ∪ list_to_set arg) rest
  | ArgOther :: _ => inl (Exception "Unsupported feature argument type")
  end.

(** The body of the loop for one item: the marker added to it, if any. *)
Definition mark_item (have_feature : gset string) (markers : list marker_arg)
  : raised + option skip_marker :=
  match want_feature_from ∅ markers with
  | inl e => inl e
  | inr want_feature =>
      let missing_feature := want_feature ∖ have_feature in
      if decide (missing_feature = ∅) then inr None
      else if decide (size missing_feature = 1)
           then inr (Some (SkipFeature missing_feature))
           else inr (Some (SkipFeatures missing_feature))
  end.

(** The loop over the items.  The markers are added to the items in place,
    so when an item raises the items before it keep theirs: the result
    lists what was added to the items visited without an exception, and the
    exception if one was raised. *)
Fixpoint mark_items (have_feature : gset string)
  (items : list (list marker_arg)) : list (option skip_marker) * option raised :=
  match items with
  | [] => ([], None)
  | item :: rest =>
      match mark_item have_feature item with
      | inl e => ([], Some e)
      | inr added =>
          let '(marks, e) := mark_items have_feature rest in
          (added :: marks, e)
      end
  end.

(** [pytest_collection_modifyitems(session, config, items)]: [env] is the
    environment found in the stash, given by the set
    [env.get_features() | env.get_target_features()], or [None]; each item
    is given by the arguments of its [lg_feature] markers. *)
Definition pytest_collection_modifyitems (env : option (gset string))
  (items : list (list marker_arg)) : list (option skip_marker) * option raised :=
  match env with
  | None => (map (fun _ => None) items, None)
  | Some have_feature => mark_items have_feature items
  end.

(** The selection of the environment file in [pytest_configure]: the
    options [--lg-env] and [--env-config] and the variable [LG_ENV] of the
    process environment.  The result is the file the [Environment] put in
    the stash is created from ([None]: the stash holds [None]) and the
    warnings issued.  The set up of the logging of the function is not
    modelled. *)
Definition configure_lg_env (lg_env env_config LG_ENV : option string)
  : option string * list string :=
  let '(lg_env, warnings) :=
    match lg_env, env_config with
    | None, Some f => (Some f, ["deprecated option --env-config (use --lg-env instead)"])
    | _, _ => (lg_env, [])
    end in
  (match lg_env with
   | None => LG_ENV
   | Some f => Some f
   end, warnings).

(** The truth value of an optional string: [None] and the empty string
    are false. *)
Definition truthy (s : option string) : bool :=
  match s with
  | None | Some EmptyString => false
  | Some _ => true
  end.

(** The part of [config] that [pytest_cmdline_main] reads and writes:
    the option [verbose], the option and the ini value [log_cli_level], and
    whether they are registered ([getoption] raises [ValueError] when they
    are not). *)
Record cli_config := {
  verbose : Z;
  registered : bool;
  option_log_cli_level : option string;
  ini_log_cli_level : option string
}.

Section CmdlineMain.

(** [labgrid.logging.CONSOLE], a level defined outside of the sources at
    hand, and the table of [logging] from level names to levels. *)
Variable CONSOLE : Z.
Variable name_to_level : string -> option Z.

Definition DEBUG : Z := 10.
Definition INFO : Z := 20.

(** [int(logging.getLevelName(name))] under [except ValueError]: the level
    of a registered name; for any other string [getLevelName] answers
    ["Level " + name], which [int] rejects. *)
Definition level_of (name : string) : option Z := name_to_level name.

(** [set_cli_log_level(level)]: the configuration afterwards and the line
    printed, if any. *)
Definition set_cli_log_level (config : cli_config) (level : Z)
  : cli_config * list string :=
  if registered config then
    let current_level :=
      if truthy (option_log_cli_level config) then option_log_cli_level config
      else ini_log_cli_level config in
    let printed :=
      "current_level: " +:+ default "None" current_level in
    let current_level :=
      match current_level with
      | Some name => level_of name
      | None => None
      end in
    let config' :=
      {| verbose := verbose config; registered := registered config;
         option_log_cli_level := Some (pretty level);
         ini_log_cli_level := ini_log_cli_level config |} in
    match current_level with
    | None => (config', [printed])
    | Some current =>
        if (level <? current)%Z then (config', [printed]) else (config, [printed])
    end
  else (config, []).

(** [pytest_cmdline_main(config)]. *)
Definition pytest_cmdline_main (config : cli_config) : cli_config * list string :=
  let verbosity := verbose config in
  if (3 <? verbosity)%Z then set_cli_log_level config DEBUG
  else if (2 <? verbosity)%Z then set_cli_log_level config CONSOLE
  else if (1 <? verbosity)%Z then set_cli_log_level config INFO
  else (config, []).

(** The level the configuration asks for, if it names one. *)
Definition configured_level (config : cli_config) : option Z :=
  match (if truthy (option_log_cli_level config)
         then option_log_cli_level config else ini_log_cli_level config) with
  | Some name => level_of name
  | None => None
  end.

End CmdlineMain.

(** The feature is the argument of a marker of the item, or an element of
    a list that is. *)
Definition names_feature (markers : list marker_arg) (feature : string) : Prop :=
  ArgStr feature ∈ markers
  \/ exists features, ArgList features ∈ markers /\ feature ∈ features.

(** A marker of the item has an argument that is neither a string nor a
    list. *)
Definition has_other (markers : list marker_arg) : bool :=
  existsb (fun arg => match arg with ArgOther => true | _ => false end) markers.

(** The missing features a skip marker reports. *)
Definition missing_of (m : skip_marker) : gset string :=
  match m with
  | SkipFeature missing | SkipFeatures missing => missing
  end.

(** What is added to an item with the markers [markers] when the
    environment has the features [have_feature]: a skip marker exactly when a
    feature the markers name is not among them, reporting exactly the named
    features that are not, with the singular text exactly when there is
    one. *)
Definition skip_decision (have_feature : gset string)
  (markers : list marker_arg) (added : option skip_marker) : Prop :=
  match added with
  | None => forall f, names_feature markers f -> f ∈ have_feature
  | Some m =>
      (exists f, names_feature markers f /\ f ∉ have_feature)
      /\ (forall f, f ∈ missing_of m <->
            names_feature markers f /\ f ∉ have_feature)
      /\ (size (missing_of m) = 1 <-> exists missing, m = SkipFeature missing)
  end.

(** The level [pytest_cmdline_main] asks for at a verbosity, if any. *)
Definition requested_level (CONSOLE : Z) (verbosity : Z) : option Z :=
  if (3 <? verbosity)%Z then Some DEBUG
  else if (2 <? verbosity)%Z then Some CONSOLE
  else if (1 <? verbosity)%Z then Some INFO
  else None.

(** * Properties *)

Example scan_examples :
  tokens "${BASE}/s$$ $x_1." =
    [TBraced "BASE"; TLit "/"; TLit "s"; TEscaped; TLit " "; TNamed "x_1";
     TLit "."]%char
  /\ tokens "a$" = [TLit "a"%char; TInvalid]
  /\ tokens "${a b}" = [TInvalid]
  /\ tokens "$1" = [TInvalid]
  /\ tokens "$a$b" = [TNamed "a"; TNamed "b"].
Proof. repeat split; reflexivity. Qed.

Example splitext_examples :
  os_path_splitext "/a/b.c/.yaml" = ("/a/b.c/.yaml", "")
  /\ os_path_splitext "/a/x.tar.gz" = ("/a/x.tar", ".gz")
  /\ lstrip_dots (snd (os_path_splitext "/a/x..yaml")) = "yaml"
  /\ os_path_splitext "/a/b" = ("/a/b", "")
  /\ os_path_join "/etc/lab" "first.yaml" = "/etc/lab/first.yaml"
  /\ os_path_join "/etc/lab" "/abs.yaml" = "/abs.yaml".
Proof. repeat split; reflexivity. Qed.

(** ** Induction on trees *)

Lemma value_ind (P : value -> Prop)
  (HNone : P VNone)
  (HBool : forall b, P (VBool b))
  (HInt : forall n, P (VInt n))
  (HFloat : forall f, P (VFloat f))
  (HStr : forall s, P (VStr s))
  (HUserString : forall s, P (VUserString s))
  (HList : forall items, Forall P items -> P (VList items))
  (HTuple : forall items, Forall P items -> P (VTuple items))
  (HDict : forall kind d, Forall (fun kv => P (snd kv)) d -> P (VDict kind d))
  (HTemplate : forall t, P (VTemplate t))
  (HOptionalTemplate : forall t, P (VOptionalTemplate t))
  (HObject : forall id, P (VObject id)) :
  forall v, P v.
Proof.
  fix IH 1.
  intros [ |b|n|f|s|s|items|items|kind d|t|t|id].
  - exact HNone.
  - exact (HBool b).
  - exact (HInt n).
  - exact (HFloat f).
  - exact (HStr s).
  - exact (HUserString s).
  - apply HList. induction items as [|x xs IHxs]; constructor.
    + apply IH.
    + exact IHxs.
  - apply HTuple. induction items as [|x xs IHxs]; constructor.
    + apply IH.
    + exact IHxs.
  - apply HDict. induction d as [|[k x] xs IHxs]; constructor.
    + apply IH.
    + exact IHxs.
  - exact (HTemplate t).
  - exact (HOptionalTemplate t).
  - exact (HObject id).
Qed.

(** ** Dictionaries *)

Lemma dict_get_set_eq key v d : dict_get key (dict_set key v d) = Some v.
Proof.
  induction d as [|[k w] d IH]; simpl.
  - now rewrite String.eqb_refl.
  - destruct (String.eqb k key) eqn:E; simpl; rewrite E; auto.
Qed.

Lemma dict_get_set_ne key key' v d :
  key <> key' -> dict_get key' (dict_set key v d) = dict_get key' d.
Proof.
  intros Hne. induction d as [|[k w] d IH]; simpl.
  - destruct (String.eqb key key') eqn:E; auto.
    apply String.eqb_eq in E. contradiction.
  - destruct (String.eqb k key) eqn:E; simpl.
    + apply String.eqb_eq in E. subst k.
      destruct (String.eqb key key') eqn:E'; auto.
      apply String.eqb_eq in E'. contradiction.
    + destruct (String.eqb k key'); auto.
Qed.

Lemma dict_get_None key d : dict_get key d = None <-> key ∉ keys d.
Proof.
  induction d as [|[k w] d IH]; simpl.
  - split; auto. intros _. apply not_elem_of_nil.
  - destruct (String.eqb k key) eqn:E.
    + apply String.eqb_eq in E. subst. split; [discriminate|].
      intros H. exfalso. apply H. left.
    + apply String.eqb_neq in E. rewrite IH. rewrite not_elem_of_cons.
      split; [intros; split; congruence | intros [_ H]; exact H].
Qed.

Lemma keys_dict_set key v d :
  keys (dict_set key v d) =
    if decide (key ∈ keys d) then keys d else keys d ++ [key].
Proof.
  induction d as [|[k w] d IH]; simpl.
  - reflexivity.
  - destruct (String.eqb k key) eqn:E; simpl.
    + apply String.eqb_eq in E. subst.
      destruct (decide (key ∈ key :: keys d)) as [H|H]; [reflexivity|].
      exfalso. apply H. left.
    + apply String.eqb_neq in E. rewrite IH.
      destruct (decide (key ∈ keys d)) as [H|H];
        destruct (decide (key ∈ k :: keys d)) as [H'|H']; try reflexivity.
      * exfalso. apply H'. now right.
      * exfalso. apply elem_of_cons in H' as [H'|H']; congruence.
Qed.

Lemma wf_dict_set key v d : wf_dict d -> wf_dict (dict_set key v d).
Proof.
  unfold wf_dict. intros Hwf. rewrite keys_dict_set.
  destruct (decide (key ∈ keys d)) as [H|H]; [assumption|].
  apply NoDup_app. split; [assumption|]. split.
  - intros x Hx Hx'. apply list_elem_of_singleton in Hx'. congruence.
  - apply NoDup_singleton.
Qed.

(** ** [data_merge] *)

Lemma data_merge_dict ka da kb db :
  data_merge (VDict ka da) (VDict kb db) =
    (let* d := merge_keys db da in Ok (VDict ka d)).
Proof.
  reflexivity.
Qed.

Lemma unsupported_raises a b :
  unsupported a b = true ->
  data_merge a b = Raise (InvalidConfigError (unsupported_msg a b)).
Proof.
  destruct a, b; simpl; try discriminate; reflexivity.
Qed.

Lemma supported_not_dicts a b :
  is_dict a && is_dict b = false -> unsupported a b = false ->
  exists r, data_merge a b = Ok r.
Proof.
  destruct a, b; simpl; try discriminate; eauto.
Qed.

Lemma wf_dict_cons k v d : wf_dict ((k, v) :: d) <-> (k ∉ keys d) /\ wf_dict d.
Proof. unfold wf_dict. simpl. apply NoDup_cons. Qed.

Lemma bind_ok {A B} (r : result A) (k : A -> result B) b :
  bind r k = Ok b -> exists a, r = Ok a /\ k a = Ok b.
Proof. destruct r; simpl; [eauto | discriminate]. Qed.

Lemma bind_raise {A B} (r : result A) (k : A -> result B) e :
  bind r k = Raise e -> r = Raise e \/ exists a, r = Ok a /\ k a = Raise e.
Proof. destruct r; simpl; [eauto | intros [= ->]; auto]. Qed.

(** One step of the loop over the keys of the override. *)
Lemma merge_keys_step key vb db da d :
  merge_keys ((key, vb) :: db) da = Ok d ->
  exists r,
    match dict_get key da with
    | Some va => data_merge va vb = Ok r
    | None => r = vb
    end /\ merge_keys db (dict_set key r da) = Ok d.
Proof.
  simpl. destruct (dict_get key da) as [va|].
  - intros H. apply bind_ok in H as (r & Hr & H). eauto.
  - eauto.
Qed.

Lemma merge_keys_untouched db : forall da d key,
  merge_keys db da = Ok d -> dict_get key db = None ->
  dict_get key d = dict_get key da.
Proof.
  induction db as [|[k vb] db IH]; intros da d key Hm Hk.
  - simpl in Hm. congruence.
  - apply merge_keys_step in Hm as (r & _ & Hm).
    simpl in Hk. destruct (String.eqb k key) eqn:E; [discriminate|].
    apply String.eqb_neq in E.
    rewrite (IH _ _ _ Hm Hk). now apply dict_get_set_ne.
Qed.

Lemma merge_keys_shared db : forall da d key va vb,
  wf_dict db -> merge_keys db da = Ok d ->
  dict_get key db = Some vb -> dict_get key da = Some va ->
  exists r, data_merge va vb = Ok r /\ dict_get key d = Some r.
Proof.
  induction db as [|[k vb0] db IH]; intros da d key va vb Hwf Hm Hb Ha.
  - discriminate.
  - apply wf_dict_cons in Hwf as [Hk Hwf].
    apply merge_keys_step in Hm as (r & Hr & Hm).
    simpl in Hb. destruct (String.eqb k key) eqn:E.
    + apply String.eqb_eq in E. subst k. injection Hb as ->.
      rewrite Ha in Hr. exists r. split; [assumption|].
      apply dict_get_None in Hk.
      rewrite (merge_keys_untouched _ _ _ _ Hm Hk). apply dict_get_set_eq.
    + apply String.eqb_neq in E.
      apply (IH _ _ _ _ _ Hwf Hm Hb). now rewrite dict_get_set_ne.
Qed.

Lemma merge_keys_new db : forall da d key vb,
  wf_dict db -> merge_keys db da = Ok d ->
  dict_get key db = Some vb -> dict_get key da = None ->
  dict_get key d = Some vb.
Proof.
  induction db as [|[k vb0] db IH]; intros da d key vb Hwf Hm Hb Ha.
  - discriminate.
  - apply wf_dict_cons in Hwf as [Hk Hwf].
    apply merge_keys_step in Hm as (r & Hr & Hm).
    simpl in Hb. destruct (String.eqb k key) eqn:E.
    + apply String.eqb_eq in E. subst k. injection Hb as ->.
      rewrite Ha in Hr. subst r.
      apply dict_get_None in Hk.
      rewrite (merge_keys_untouched _ _ _ _ Hm Hk). apply dict_get_set_eq.
    + apply String.eqb_neq in E.
      apply (IH _ _ _ _ Hwf Hm Hb). now rewrite dict_get_set_ne.
Qed.

Lemma merge_keys_raise db : forall da e,
  wf_dict db -> merge_keys db da = Raise e ->
  exists key va vb,
    dict_get key da = Some va /\ dict_get key db = Some vb
    /\ data_merge va vb = Raise e.
Proof.
  induction db as [|[k vb0] db IH]; intros da e Hwf Hm.
  - discriminate.
  - apply wf_dict_cons in Hwf as [Hk Hwf]. simpl in Hm.
    assert (Hrec : forall r, merge_keys db (dict_set k r da) = Raise e ->
      exists key va vb, dict_get key da = Some va
        /\ dict_get key ((k, vb0) :: db) = Some vb
        /\ data_merge va vb = Raise e).
    { intros r H. destruct (IH _ _ Hwf H) as (key & va & vb & Ha & Hb & Hr).
      assert (Hne : k <> key).
      { intros ->. apply dict_get_None in Hk. congruence. }
      exists key, va, vb. rewrite dict_get_set_ne in Ha by assumption.
      split; [assumption|]. split; [|assumption].
      simpl. apply String.eqb_neq in Hne. now rewrite Hne. }
    destruct (dict_get k da) as [va|] eqn:Ha; [|eauto].
    apply bind_raise in Hm as [Hm|(r & _ & Hm)]; [|eauto].
    exists k, va, vb0. simpl. rewrite String.eqb_refl. auto.
Qed.

Lemma merge_keys_wf db : forall da d,
  wf_dict da -> merge_keys db da = Ok d -> wf_dict d.
Proof.
  induction db as [|[k vb] db IH]; intros da d Hwf Hm.
  - simpl in Hm. congruence.
  - apply merge_keys_step in Hm as (r & _ & Hm).
    apply (IH _ _ (wf_dict_set k r da Hwf) Hm).
Qed.

Lemma merge_keys_raise_inv (Q : exn -> Prop) db :
  Forall (fun kv => forall a e, data_merge a (snd kv) = Raise e -> Q e) db ->
  forall da e, merge_keys db da = Raise e -> Q e.
Proof.
  induction 1 as [|[k vb] db Hvb _ IH]; intros da e Hm.
  - discriminate.
  - simpl in Hm, Hvb. destruct (dict_get k da) as [va|]; [|eauto].
    apply bind_raise in Hm as [Hm|(r & _ & Hm)]; eauto.
Qed.

(** Whatever the operands, a failure of [data_merge] is the error of its
    last branch, raised for a pair it has no case for: the operands
    themselves, or the two values of a key that nested mappings share. *)
Lemma data_merge_raise_inv b : forall a e,
  data_merge a b = Raise e ->
  exists a' b',
    unsupported a' b' = true /\ e = InvalidConfigError (unsupported_msg a' b').
Proof.
  induction b as [ | | | | | | | |kb db IH| | | ] using value_ind;
    intros a e Hm.
  9: { destruct a as [ | | | | | |la| |ka da| | | ];
       try (simpl in Hm; discriminate);
       try (simpl in Hm; injection Hm as <-; eexists _, _; split;
            [|reflexivity]; reflexivity).
       rewrite data_merge_dict in Hm.
       apply bind_raise in Hm as [Hm|(d & _ & Hm)]; [|discriminate].
       revert da e Hm. apply merge_keys_raise_inv. exact IH. }
  all: destruct a; simpl in Hm; try discriminate;
    injection Hm as <-; eexists _, _; (split; [|reflexivity]); reflexivity.
Qed.

(** ** Claims on [data_merge] *)

(** C3, as amended: for every override [v], [data_merge] with an immutable
    sequence (a tuple) as the base does not return [v]: it fails with the
    "Datatype not supported" configuration error that names the class of
    the override and the class [tuple].  The tuple is never concatenated,
    and never replaced either. *)
Theorem data_merge_tuple_base_unsupported (items : list value) (v : value) :
  data_merge (VTuple items) v =
    Raise (InvalidConfigError (unsupported_msg (VTuple items) v)).
Proof. destruct v; reflexivity. Qed.

(** C3, the claim as stated fails: merging the integer [3] over the tuple
    [(1, 2)] does not return [3], it raises. *)
Lemma data_merge_tuple_base_counterexample :
  data_merge (VTuple [VInt 1; VInt 2]) (VInt 3) <> Ok (VInt 3)
  /\ data_merge (VTuple [VInt 1; VInt 2]) (VInt 3) =
       Raise (InvalidConfigError
                ("Datatype not supported " +:+ dq +:+ "<class 'int'>" +:+ dq
                 +:+ " into " +:+ dq +:+ "<class 'tuple'>" +:+ dq)).
Proof. split; [discriminate | reflexivity]. Qed.

(** C4, as amended: [data_merge] fails with the "Datatype not supported"
    configuration error, whose message names the class of the override and
    then the class of the base, exactly on the pairs it has no case for: a
    base that is neither a list, nor [None] or a primitive scalar, nor a
    mapping facing a mapping (so a mapping base under another override, a
    tuple, a block style string, a template object), met at the top or
    under a key that nested mappings share.  A mapping merged into a list is
    no such pair: the mapping is appended to the list as one trailing
    item. *)
Theorem data_merge_fails_exactly_on_unsupported :
  (forall a b, unsupported a b = true ->
     data_merge a b = Raise (InvalidConfigError (unsupported_msg a b)))
  /\ (forall a b, is_dict a && is_dict b = false -> unsupported a b = false ->
        is_ok (data_merge a b) = true)
  /\ (forall a b e, data_merge a b = Raise e ->
        exists a' b', unsupported a' b' = true
          /\ e = InvalidConfigError (unsupported_msg a' b'))
  /\ (forall ka da kb db e, wf_dict db ->
        data_merge (VDict ka da) (VDict kb db) = Raise e ->
        exists key va vb, dict_get key da = Some va
          /\ dict_get key db = Some vb /\ data_merge va vb = Raise e)
  /\ (forall la kb db,
        data_merge (VList la) (VDict kb db) = Ok (VList (la ++ [VDict kb db]))).
Proof.
  split; [exact unsupported_raises|].
  split. { intros a b H1 H2. destruct a, b; simpl in *; try discriminate; reflexivity. }
  split. { intros a b e. apply data_merge_raise_inv. }
  split; [|reflexivity].
  intros ka da kb db e Hwf H. rewrite data_merge_dict in H.
  apply bind_raise in H as [H|(d & _ & H)]; [|discriminate].
  now apply merge_keys_raise.
Qed.

Lemma data_merge_fails_exactly_on_unsupported_witness :
  data_merge (VDict OrderedDict [("k", VInt 1)]) (VStr "x") =
    Raise (InvalidConfigError
             (unsupported_msg (VDict OrderedDict [("k", VInt 1)]) (VStr "x")))
  /\ is_ok (data_merge (VList [VInt 1]) (VStr "x")) = true
  /\ (exists key va vb,
        dict_get key [("k", VTuple [])] = Some va
        /\ dict_get key [("k", VInt 2)] = Some vb
        /\ data_merge va vb =
             Raise (InvalidConfigError (unsupported_msg (VTuple []) (VInt 2)))).
Proof.
  destruct data_merge_fails_exactly_on_unsupported as (H1 & H2 & _ & H4 & _).
  split; [apply H1; reflexivity|].
  split; [apply H2; reflexivity|].
  apply (H4 OrderedDict _ OrderedDict).
  - unfold wf_dict. simpl. apply NoDup_singleton.
  - reflexivity.
Defined.

(** C4, the claim as stated fails: merging a mapping into a list raises
    nothing, the list gains the mapping as its last item. *)
Lemma data_merge_mapping_into_list_counterexample :
  data_merge (VList [VInt 1]) (VDict OrderedDict [("k", VInt 2)]) =
    Ok (VList [VInt 1; VDict OrderedDict [("k", VInt 2)]])
  /\ forall e,
       data_merge (VList [VInt 1]) (VDict OrderedDict [("k", VInt 2)])
       <> Raise e.
Proof. split; [reflexivity | discriminate]. Qed.

(** C5, as amended: the cases of [data_merge(base, override)].  Two
    mappings: the result is the base mapping (same object, same class) in
    which every key of the override that the base has is bound to the merge
    of the two values, every other key of the override is bound to the value
    of the override, and the keys the override lacks are as they were; the
    merge fails only if the merge of the two values of a shared key fails.
    A list and a list: the items of the base followed by those of the
    override.  A list and anything else: the override appended as one
    item.  [None] or a primitive scalar held as a plain str, float, int or
    bool: the override.  A string scalar written in block style, which the
    loader holds as a [UserString], is no such base: for every override the
    merge raises the unsupported-merge error (the literal style [|]; a
    folded scalar is a plain str).  The keys of a mapping are pairwise
    distinct ([wf_dict]). *)
Theorem data_merge_cases :
  (forall ka da kb db, wf_dict db ->
     match data_merge (VDict ka da) (VDict kb db) with
     | Ok merged =>
         exists d, merged = VDict ka d
           /\ (forall key va vb,
                 dict_get key db = Some vb -> dict_get key da = Some va ->
                 exists r, data_merge va vb = Ok r /\ dict_get key d = Some r)
           /\ (forall key vb,
                 dict_get key db = Some vb -> dict_get key da = None ->
                 dict_get key d = Some vb)
           /\ (forall key,
                 dict_get key db = None -> dict_get key d = dict_get key da)
     | Raise e =>
         exists key va vb, dict_get key da = Some va
           /\ dict_get key db = Some vb /\ data_merge va vb = Raise e
     end)
  /\ (forall la lb, data_merge (VList la) (VList lb) = Ok (VList (la ++ lb)))
  /\ (forall la b, is_list b = false ->
        data_merge (VList la) b = Ok (VList (la ++ [b])))
  /\ (forall a b, is_none_or_primitive a = true -> data_merge a b = Ok b)
  /\ (forall text b,
        _str_constructor (Some "|"%char) text = VUserString text
        /\ data_merge (_str_constructor (Some "|"%char) text) b
           = Raise (InvalidConfigError
                      (unsupported_msg (VUserString text) b))).
Proof.
  split.
  { intros ka da kb db Hwf. rewrite data_merge_dict.
    destruct (merge_keys db da) as [d|e] eqn:Hm; simpl.
    - exists d. split; [reflexivity|]. split; [|split].
      + intros key va vb. now apply merge_keys_shared.
      + intros key vb. now apply merge_keys_new.
      + intros key. now apply merge_keys_untouched.
    - now apply merge_keys_raise. }
  split; [reflexivity|].
  split.
  - intros la b Hb. destruct b; try reflexivity. discriminate.
  - split.
    + intros a b Ha. destruct a; try discriminate; destruct b; reflexivity.
    + intros text b. split; [reflexivity|].
      apply unsupported_raises. reflexivity.
Qed.

(** C5, the claim as stated fails: a string scalar written in block style
    is a string scalar, and with it as the base the result is not the
    override; the merge raises. *)
Lemma data_merge_cases_counterexample :
  _str_constructor (Some "|"%char) "line" = VUserString "line"
  /\ data_merge (_str_constructor (Some "|"%char) "line") (VStr "override")
     = Raise (InvalidConfigError
                ("Datatype not supported " +:+ dq +:+ "<class 'str'>" +:+ dq
                 +:+ " into " +:+ dq +:+ "<class 'collections.UserString'>"
                 +:+ dq))
  /\ data_merge (_str_constructor (Some "|"%char) "line") (VStr "override")
     <> Ok (VStr "override").
Proof. split; [reflexivity | split; [reflexivity | discriminate]]. Qed.

Lemma data_merge_cases_witness :
  wf_dict [("a", VList [VInt 2]); ("c", VStr "x")]
  /\ exists d,
       data_merge
         (VDict OrderedDict [("a", VList [VInt 1]); ("b", VInt 0)])
         (VDict PlainDict [("a", VList [VInt 2]); ("c", VStr "x")])
         = Ok (VDict OrderedDict d)
       /\ dict_get "a" d = Some (VList [VInt 1; VInt 2])
       /\ dict_get "c" d = Some (VStr "x")
       /\ dict_get "b" d = Some (VInt 0).
Proof.
  set (da := [("a", VList [VInt 1]); ("b", VInt 0)]).
  set (db := [("a", VList [VInt 2]); ("c", VStr "x")]).
  assert (Hwf : wf_dict db).
  { unfold wf_dict. simpl. apply NoDup_cons. split.
    - intros H. apply list_elem_of_singleton in H. discriminate.
    - apply NoDup_singleton. }
  split; [exact Hwf|].
  pose proof (proj1 data_merge_cases OrderedDict da PlainDict db Hwf) as H.
  destruct (data_merge (VDict OrderedDict da) (VDict PlainDict db)) as [m|e] eqn:Hm;
    [|discriminate Hm].
  destruct H as (d & -> & Hshared & Hnew & Hkeep).
  exists d. split; [reflexivity|]. split; [|split].
  - destruct (Hshared "a" (VList [VInt 1]) (VList [VInt 2]) eq_refl eq_refl)
      as (r & Hr & Hd).
    injection Hr as <-. exact Hd.
  - exact (Hnew "c" (VStr "x") eq_refl eq_refl).
  - exact (Hkeep "b" eq_refl).
Defined.

(** ** [string.Template] *)

Lemma substitute_tokens_first_defect mapping ts :
  substitute_tokens mapping ts =
    match first_defect mapping ts with
    | None => Ok (fill mapping ts)
    | Some Malformed => Raise (ValueError "Invalid placeholder in string")
    | Some (Unknown name) => Raise (KeyError name)
    end.
Proof.
  induction ts as [|t ts IH]; [reflexivity|].
  destruct t as [c| |name|name|]; cbn [substitute_tokens convert first_defect fill bind].
  all: try (destruct (mapping !! name) as [v|]; [|reflexivity]).
  all: try (rewrite IH; destruct (first_defect mapping ts) as [[|x]|]; reflexivity).
  reflexivity.
Qed.

Lemma first_defect_unknown mapping ts name :
  first_defect mapping ts = Some (Unknown name) ->
  name ∈ variables ts /\ mapping !! name = None.
Proof.
  induction ts as [|t ts IH]; [discriminate|].
  destruct t as [c| |x|x|]; simpl; try discriminate;
    try (intros H; destruct (IH H); split; assumption).
  all: destruct (mapping !! x) as [v|] eqn:Hx;
    [ intros H; destruct (IH H); split; [now right | assumption]
    | intros [= ->]; split; [left | assumption] ].
Qed.

Lemma first_defect_malformed mapping ts :
  first_defect mapping ts = Some Malformed -> well_formed_tokens ts = false.
Proof.
  induction ts as [|t ts IH]; [discriminate|].
  destruct t as [c| |x|x|]; simpl; auto;
    destruct (mapping !! x); auto; discriminate.
Qed.

Lemma first_defect_None mapping ts :
  first_defect mapping ts = None <->
  well_formed_tokens ts = true /\ all_defined mapping ts = true.
Proof.
  unfold all_defined.
  induction ts as [|t ts IH]; [simpl; tauto|].
  destruct t as [c| |x|x|]; simpl; try exact IH;
    try (split; [discriminate | intros [? _]; discriminate]).
  all: destruct (mapping !! x) as [v|] eqn:Hx.
  all: try (rewrite IH; rewrite bool_decide_true by eauto; simpl; tauto).
  all: split; [discriminate|]; intros [_ H]; apply andb_true_iff in H as [H _];
    apply bool_decide_eq_true in H as [v Hv]; discriminate.
Qed.

(** A template the mapping defines every variable of has no defect but a
    malformed placeholder; a well formed one has no defect but an unknown
    variable. *)
Lemma first_defect_all_defined mapping ts :
  all_defined mapping ts = true -> well_formed_tokens ts = false ->
  first_defect mapping ts = Some Malformed.
Proof.
  intros Hd Hw. destruct (first_defect mapping ts) as [[|x]|] eqn:E.
  - reflexivity.
  - apply first_defect_unknown in E as [Hin Hnone]. unfold all_defined in Hd.
    rewrite forallb_forall in Hd. apply list_elem_of_In in Hin.
    specialize (Hd _ Hin). apply bool_decide_eq_true in Hd as [v Hv]. congruence.
  - apply first_defect_None in E as [E _]. congruence.
Qed.

Lemma first_defect_well_formed mapping ts :
  well_formed_tokens ts = true -> all_defined mapping ts = false ->
  exists name, first_defect mapping ts = Some (Unknown name).
Proof.
  intros Hw Hd. destruct (first_defect mapping ts) as [[|x]|] eqn:E.
  - apply first_defect_malformed in E. congruence.
  - eauto.
  - apply first_defect_None in E as [_ E]. congruence.
Qed.

Lemma fill_agree (m ext : gmap string string) ts :
  (forall x, default EmptyString (ext !! x) = default EmptyString (m !! x)) ->
  fill ext ts = fill m ts.
Proof.
  intros H. induction ts as [|t ts IH]; [reflexivity|].
  destruct t; simpl; rewrite ?IH, ?H; reflexivity.
Qed.

(** Each retry of [OptionalTemplate.substitute] strictly reduces the set of
    the variables of the template that are still undefined. *)
Lemma retry_reduces_unresolved ts (ext : gmap string string) name :
  substitute_tokens ext ts = Raise (KeyError name) ->
  unresolved ts (<[name := EmptyString]> ext) ⊂ unresolved ts ext.
Proof.
  rewrite substitute_tokens_first_defect.
  destruct (first_defect ext ts) as [[|x]|] eqn:E; try discriminate.
  intros [= ->]. apply first_defect_unknown in E as [Hin Hnone].
  apply not_elem_of_dom in Hnone.
  unfold unresolved. rewrite dom_insert_L. split.
  - intros y Hy. apply elem_of_difference in Hy as [Hy1 Hy2].
    apply elem_of_difference. split; [assumption|].
    intros Hy3. apply Hy2. apply elem_of_union. now right.
  - intros Hsub. specialize (Hsub name).
    assert (Hn : name ∈ @list_to_set _ (gset string) _ _ _ (variables ts) ∖ dom ext).
    { apply elem_of_difference. split; [|assumption].
      now apply elem_of_list_to_set. }
    apply Hsub in Hn. apply elem_of_difference in Hn as [_ Hn].
    apply Hn. apply elem_of_union. left. now apply elem_of_singleton.
Qed.

Lemma retry_well_formed ts mappings ext log :
  well_formed_tokens ts = true ->
  (forall x, default EmptyString (ext !! x) = default EmptyString (mappings !! x)) ->
  returned (OptionalTemplate.retry ts mappings ext log) = Ok (fill mappings ts)
  /\ mappings_after (OptionalTemplate.retry ts mappings ext log) = mappings.
Proof.
  apply (OptionalTemplate.retry_elim
    (fun ts mappings ext log run =>
       well_formed_tokens ts = true ->
       (forall x, default EmptyString (ext !! x)
                  = default EmptyString (mappings !! x)) ->
       returned run = Ok (fill mappings ts) /\ mappings_after run = mappings));
    clear; try (intros ts mappings ext msg e log _ Hw Hagree; exfalso;
      rewrite substitute_tokens_first_defect in e;
      destruct (first_defect ext ts) as [[|x]|] eqn:E; try discriminate e;
      apply first_defect_malformed in E; congruence).
  - intros ts mappings ext s e log _ Hw Hagree. simpl. split; [|reflexivity].
    rewrite substitute_tokens_first_defect in e.
    destruct (first_defect ext ts) as [[|x]|]; try discriminate e.
    injection e as <-. f_equal. now apply fill_agree.
  - intros ts mappings ext name e log IH _ Hw Hagree. apply IH; [assumption|].
    rewrite substitute_tokens_first_defect in e.
    destruct (first_defect ext ts) as [[|x]|] eqn:E; try discriminate e.
    injection e as ->. apply first_defect_unknown in E as [_ Hnone].
    intros y. destruct (decide (name = y)) as [->|Hne].
    + rewrite lookup_insert_eq. simpl. rewrite <- Hagree, Hnone. reflexivity.
    + rewrite lookup_insert_ne by assumption. apply Hagree.
Qed.

(** ** Claims on templates *)

(** C6: for every well formed optional template and every mapping,
    [OptionalTemplate.substitute] returns (it is a total function: its
    retry loop is defined by recursion on the number of unresolved
    variables) and never raises; what it returns is the template with its
    escapes undone, every variable of the mapping replaced by its value and
    every other variable by the empty string; each retry strictly reduces
    the set of unresolved variables; the dictionary of the caller is left
    as it was. *)
Theorem optional_template_substitute_succeeds
  (tmpl : string) (mappings : gmap string string) :
  well_formed tmpl = true ->
  returned (OptionalTemplate.substitute tmpl mappings)
    = Ok (fill mappings (tokens tmpl))
  /\ mappings_after (OptionalTemplate.substitute tmpl mappings) = mappings
  /\ (forall (ext : gmap string string) name,
        Template_substitute tmpl ext = Raise (KeyError name) ->
        unresolved (tokens tmpl) (<[name := EmptyString]> ext)
          ⊂ unresolved (tokens tmpl) ext).
Proof.
  intros Hw. unfold OptionalTemplate.substitute.
  destruct (retry_well_formed (tokens tmpl) mappings mappings [] Hw) as [H1 H2];
    [reflexivity|].
  split; [exact H1|]. split; [exact H2|].
  intros ext name. apply retry_reduces_unresolved.
Qed.

Lemma optional_template_substitute_succeeds_witness :
  well_formed "a$x-${y}$$" = true
  /\ returned (OptionalTemplate.substitute "a$x-${y}$$" {[ "x" := "1" ]})
       = Ok "a1-$".
Proof.
  split; [reflexivity|].
  exact (proj1 (optional_template_substitute_succeeds
                  "a$x-${y}$$" {[ "x" := "1" ]} eq_refl)).
Defined.

Lemma resolve_templates_list mapping items :
  resolve_templates mapping (VList items) =
    (let* items' := resolve_list mapping items in Ok (VList items')).
Proof. reflexivity. Qed.

Lemma resolve_templates_dict mapping kind d :
  resolve_templates mapping (VDict kind d) =
    (let* d' := resolve_dict mapping d in Ok (VDict kind d')).
Proof. reflexivity. Qed.

(** A strict template is substituted, or raises on its leftmost defect. *)
Lemma resolve_item_template rec mapping template :
  resolve_item rec mapping (VTemplate template) =
    match first_defect mapping (tokens template) with
    | None => Ok (VStr (fill mapping (tokens template)))
    | Some Malformed => Raise (invalid_template_string template)
    | Some (Unknown name) => Raise (KeyError name)
    end.
Proof.
  unfold resolve_item, Template_substitute.
  rewrite substitute_tokens_first_defect.
  destruct (first_defect mapping (tokens template)) as [[|x]|]; reflexivity.
Qed.

(** The first item that raises ends the loop over a list. *)
Lemma resolve_list_aborts mapping pre val post e :
  is_ok (resolve_list mapping pre) = true ->
  resolve_item (resolve_templates mapping) mapping val = Raise e ->
  resolve_list mapping (pre ++ val :: post) = Raise e.
Proof.
  intros Hpre Hval. induction pre as [|p pre IH]; simpl.
  - now rewrite Hval.
  - simpl in Hpre.
    destruct (resolve_item (resolve_templates mapping) mapping p); simpl in *;
      [|discriminate].
    destruct (resolve_list mapping pre); simpl in *; [|discriminate].
    now rewrite IH.
Qed.

Lemma resolve_dict_aborts mapping pre k val post e :
  is_ok (resolve_dict mapping pre) = true ->
  resolve_item (resolve_templates mapping) mapping val = Raise e ->
  resolve_dict mapping (pre ++ (k, val) :: post) = Raise e.
Proof.
  intros Hpre Hval. induction pre as [|[kp p] pre IH]; simpl.
  - now rewrite Hval.
  - simpl in Hpre.
    destruct (resolve_item (resolve_templates mapping) mapping p); simpl in *;
      [|discriminate].
    destruct (resolve_dict mapping pre); simpl in *; [|discriminate].
    now rewrite IH.
Qed.

(** C7, as amended: the substitution of a strict template by
    [resolve_templates] fails exactly when the template is defective, and
    the error is that of its leftmost defect.  If the leftmost defect is a
    malformed placeholder (so for every malformed template whose variables
    are all defined) it is the [ValueError] "Invalid template string" that
    quotes the template; if the leftmost defect is a variable the mapping
    lacks (so for every well formed template with such a variable) it is the
    [KeyError] that carries the name of that variable.  An item that raises
    ends the resolution of the list or of the mapping that holds it, at any
    depth, with that error and without a tree. *)
Theorem strict_template_failure (mapping : gmap string string) (template : string) :
  let r := resolve_item (resolve_templates mapping) mapping (VTemplate template) in
  (is_ok r = true <->
     well_formed template = true /\ all_defined mapping (tokens template) = true)
  /\ (first_defect mapping (tokens template) = Some Malformed ->
        r = Raise (invalid_template_string template))
  /\ (forall name, first_defect mapping (tokens template) = Some (Unknown name) ->
        r = Raise (KeyError name)
        /\ name ∈ variables (tokens template) /\ mapping !! name = None)
  /\ (well_formed template = false ->
      all_defined mapping (tokens template) = true ->
        r = Raise (invalid_template_string template))
  /\ (well_formed template = true ->
      all_defined mapping (tokens template) = false ->
        exists name, r = Raise (KeyError name)
          /\ name ∈ variables (tokens template) /\ mapping !! name = None)
  /\ (forall val e,
        resolve_item (resolve_templates mapping) mapping val = Raise e ->
        (forall pre post, is_ok (resolve_list mapping pre) = true ->
           resolve_templates mapping (VList (pre ++ val :: post)) = Raise e)
        /\ (forall kind pre k post, is_ok (resolve_dict mapping pre) = true ->
              resolve_templates mapping (VDict kind (pre ++ (k, val) :: post))
                = Raise e)).
Proof.
  intros r. subst r. rewrite resolve_item_template. unfold well_formed.
  split; [|split; [|split; [|split; [|split]]]].
  - destruct (first_defect mapping (tokens template)) as [[|x]|] eqn:E; simpl.
    + apply first_defect_malformed in E. split; [discriminate|].
      intros [H _]. congruence.
    + apply first_defect_unknown in E as [Hin Hnone].
      split; [discriminate|]. intros [_ H]. unfold all_defined in H.
      rewrite forallb_forall in H. apply list_elem_of_In in Hin.
      specialize (H _ Hin). apply bool_decide_eq_true in H as [v Hv]. congruence.
    + apply first_defect_None in E. tauto.
  - intros ->. reflexivity.
  - intros name E. rewrite E. split; [reflexivity|].
    now apply first_defect_unknown.
  - intros Hw Hd. now rewrite (first_defect_all_defined _ _ Hd Hw).
  - intros Hw Hd. destruct (first_defect_well_formed _ _ Hw Hd) as [name E].
    rewrite E. exists name. split; [reflexivity|]. now apply first_defect_unknown.
  - intros val e Hval. split.
    + intros pre post Hpre. rewrite resolve_templates_list.
      now rewrite (resolve_list_aborts _ _ _ _ _ Hpre Hval).
    + intros kind pre k post Hpre. rewrite resolve_templates_dict.
      now rewrite (resolve_dict_aborts _ _ _ _ _ _ Hpre Hval).
Qed.

Lemma strict_template_failure_witness :
  resolve_templates {[ "BASE" := "/srv" ]}
      (VDict OrderedDict [("a", VInt 1); ("string", VTemplate "${BASE}/$")])
    = Raise (invalid_template_string "${BASE}/$")
  /\ resolve_templates {[ "BASE" := "/srv" ]}
       (VList [VStr "foo"; VTemplate "${LG_DOESNOTEXIST}"; VStr "baz"])
     = Raise (KeyError "LG_DOESNOTEXIST").
Proof.
  split.
  - destruct (strict_template_failure {[ "BASE" := "/srv" ]} "${BASE}/$")
      as (_ & H & _ & _ & _ & Habort).
    specialize (H eq_refl).
    exact (proj2 (Habort _ _ H) OrderedDict [("a", VInt 1)] "string" [] eq_refl).
  - destruct (strict_template_failure {[ "BASE" := "/srv" ]} "${LG_DOESNOTEXIST}")
      as (_ & _ & H & _ & _ & Habort).
    destruct (H "LG_DOESNOTEXIST" eq_refl) as [H' _].
    exact (proj1 (Habort _ _ H') [VStr "foo"] [VStr "baz"] eq_refl).
Defined.

(** C7, the claim as stated fails: the placeholder grammar of [$X $] is
    malformed (a bare delimiter ends it), yet under a mapping without [X]
    its resolution fails with the unknown variable error for [X], not with
    the "Invalid template string" error. *)
Lemma strict_template_failure_counterexample :
  well_formed "$X $" = false
  /\ resolve_templates ∅ (VDict OrderedDict [("string", VTemplate "$X $")])
     = Raise (KeyError "X")
  /\ resolve_templates ∅ (VDict OrderedDict [("string", VTemplate "$X $")])
     <> Raise (invalid_template_string "$X $").
Proof. split; [reflexivity|]. split; [reflexivity | discriminate]. Qed.

(** ** [resolve_includes] *)

Lemma resolve_includes_dict kind d :
  resolve_includes (VDict kind d) = over_entries kind d d.
Proof. reflexivity. Qed.

Lemma over_entries_skip kind d pre rest :
  "includes" ∉ keys pre ->
  over_entries kind d (pre ++ rest) = over_entries kind d rest.
Proof.
  induction pre as [|[k v] pre IH]; intros Hk; [reflexivity|].
  simpl in Hk. apply not_elem_of_cons in Hk as [Hne Hk].
  simpl. destruct (String.eqb k "includes") eqn:E.
  - apply String.eqb_eq in E. congruence.
  - now apply IH.
Qed.

Lemma dict_pop_last key v pre :
  key ∉ keys pre -> dict_pop key (pre ++ [(key, v)]) = pre.
Proof.
  induction pre as [|[k w] pre IH]; intros Hk; simpl.
  - now rewrite String.eqb_refl.
  - simpl in Hk. apply not_elem_of_cons in Hk as [Hne Hk].
    destruct (String.eqb k key) eqn:E.
    + apply String.eqb_eq in E. congruence.
    + now rewrite IH.
Qed.

(** A tree without the key ['includes'] at its top comes back as it is,
    whatever its values hold. *)
Lemma resolve_includes_no_key kind d :
  "includes" ∉ keys d -> resolve_includes (VDict kind d) = Ok (VDict kind d).
Proof.
  intros Hk. rewrite resolve_includes_dict.
  rewrite <- (app_nil_r d) at 2. now rewrite over_entries_skip.
Qed.

(** The key ['includes'] as the last key of an [OrderedDict]. *)
Lemma resolve_includes_last pre val :
  "includes" ∉ keys pre ->
  resolve_includes (VDict OrderedDict (pre ++ [("includes", val)])) =
    over_value val (VDict OrderedDict pre).
Proof.
  intros Hk. rewrite resolve_includes_dict, over_entries_skip by assumption.
  simpl. rewrite dict_pop_last by assumption.
  destruct (over_value val (VDict OrderedDict pre)); reflexivity.
Qed.

(** Where the key ['includes'] is followed by another key, or the mapping
    is a plain [dict], the loop does not survive the [pop]: once the
    fragments are merged, asking the iterator for the next item raises. *)
Lemma resolve_includes_not_last kind pre val rest merged :
  "includes" ∉ keys pre ->
  kind = PlainDict \/ rest <> [] ->
  over_value val
    (VDict kind (dict_pop "includes" (pre ++ ("includes", val) :: rest)))
    = Ok merged ->
  exists msg,
    resolve_includes (VDict kind (pre ++ ("includes", val) :: rest))
      = Raise (RuntimeError msg).
Proof.
  intros Hk Hrest Hval.
  rewrite resolve_includes_dict, over_entries_skip by assumption.
  simpl. simpl in Hval. rewrite Hval. simpl.
  destruct kind, rest; simpl; eauto. destruct Hrest; congruence.
Qed.

Lemma data_merge_primitive a b :
  is_none_or_primitive a = true -> data_merge a b = Ok b.
Proof. intros Ha. destruct a; try discriminate; destruct b; reflexivity. Qed.

(** The value of an override key after a merge under a base that binds the
    key to a scalar, or not at all. *)
Lemma merge_keys_override_wins db da d key vb :
  wf_dict db -> merge_keys db da = Ok d ->
  dict_get key db = Some vb -> scalar_or_absent key da = true ->
  dict_get key d = Some vb.
Proof.
  intros Hwf Hm Hb Ha. unfold scalar_or_absent in Ha.
  destruct (dict_get key da) as [va|] eqn:Hda.
  - destruct (merge_keys_shared _ _ _ _ _ _ Hwf Hm Hb Hda) as (r & Hr & Hd).
    rewrite (data_merge_primitive _ _ Ha) in Hr. congruence.
  - exact (merge_keys_new _ _ _ _ _ Hwf Hm Hb Hda).
Qed.

(** ** Claims on [resolve_includes] *)

(** C1, as amended: for every ordered mapping D whose last key is
    [includes], bound to the sequence [[A, B]] of fragments that are already
    resolved, [resolve_includes] removes the key and returns
    [merge(B, merge(A, D_without_includes))], failing when one of the two
    merges fails.  When A and B are mappings and the result exists, a key
    of D keeps the value of D provided every include that has the key
    binds it to [None] or to a primitive scalar; a key absent from D that
    A and B both have is bound to the merge of the value of B (base) and
    the value of A (override), which is the value of A when the value of
    B is [None] or a primitive scalar. *)
Theorem includes_merge_precedence (pre : dict) (A B : value) :
  "includes" ∉ keys pre ->
  resolve_includes A = Ok A -> resolve_includes B = Ok B ->
  resolve_includes (VDict OrderedDict (pre ++ [("includes", VList [A; B])]))
    = (let* m := data_merge A (VDict OrderedDict pre) in data_merge B m)
  /\ forall ka da kb db resolved,
       A = VDict ka da -> B = VDict kb db -> wf_dict pre -> wf_dict da ->
       resolve_includes (VDict OrderedDict (pre ++ [("includes", VList [A; B])]))
         = Ok resolved ->
       exists d, resolved = VDict kb d
         /\ (forall key vD,
               dict_get key pre = Some vD ->
               scalar_or_absent key da = true ->
               scalar_or_absent key db = true ->
               dict_get key d = Some vD)
         /\ (forall key vA vB,
               dict_get key pre = None ->
               dict_get key da = Some vA -> dict_get key db = Some vB ->
               exists r, data_merge vB vA = Ok r /\ dict_get key d = Some r
                 /\ (is_none_or_primitive vB = true -> r = vA)).
Proof.
  intros Hk HA HB.
  assert (Heq : resolve_includes
                  (VDict OrderedDict (pre ++ [("includes", VList [A; B])]))
                = (let* m := data_merge A (VDict OrderedDict pre) in
                   data_merge B m)).
  { rewrite resolve_includes_last by assumption.
    cbn [over_value merge_includes]. rewrite HA. cbn [bind].
    destruct (data_merge A (VDict OrderedDict pre)) as [m|e]; cbn [bind];
      [|reflexivity].
    rewrite HB. cbn [bind]. destruct (data_merge B m); reflexivity. }
  split; [exact Heq|].
  intros ka da kb db resolved -> -> Hwp Hwa Hres. rewrite Heq in Hres.
  apply bind_ok in Hres as (m & Hm & Hres).
  rewrite data_merge_dict in Hm. apply bind_ok in Hm as (dm & Hdm & [= <-]).
  rewrite data_merge_dict in Hres. apply bind_ok in Hres as (d & Hd & [= <-]).
  pose proof (merge_keys_wf _ _ _ Hwa Hdm) as Hwm.
  exists d. split; [reflexivity|]. split.
  - intros key vD HD Hsa Hsb.
    pose proof (merge_keys_override_wins _ _ _ _ _ Hwp Hdm HD Hsa) as Hdmk.
    exact (merge_keys_override_wins _ _ _ _ _ Hwm Hd Hdmk Hsb).
  - intros key vA vB HD HAk HBk.
    assert (Hdmk : dict_get key dm = Some vA).
    { rewrite (merge_keys_untouched _ _ _ _ Hdm HD). exact HAk. }
    destruct (merge_keys_shared _ _ _ _ _ _ Hwm Hd Hdmk HBk) as (r & Hr & Hdk).
    exists r. split; [assumption|]. split; [assumption|].
    intros Hprim. rewrite (data_merge_primitive _ _ Hprim) in Hr. congruence.
Qed.

Lemma includes_merge_precedence_witness :
  exists d,
    resolve_includes
      (VDict OrderedDict
         [("k", VStr "root"); ("own", VInt 1);
          ("includes",
           VList [VDict OrderedDict [("k", VStr "first"); ("j", VStr "first")];
                  VDict OrderedDict [("k", VStr "second"); ("j", VStr "second")]])])
      = Ok (VDict OrderedDict d)
    /\ dict_get "k" d = Some (VStr "root")
    /\ dict_get "j" d = Some (VStr "first").
Proof.
  set (pre := [("k", VStr "root"); ("own", VInt 1)]).
  set (da := [("k", VStr "first"); ("j", VStr "first")]).
  set (db := [("k", VStr "second"); ("j", VStr "second")]).
  assert (Hk : "includes" ∉ keys pre).
  { intros H. repeat (apply elem_of_cons in H as [H|H]; [discriminate|]).
    inversion H. }
  assert (Hw2 : forall (a b : string) (x y : value),
            a <> b -> wf_dict [(a, x); (b, y)]).
  { intros a b x y Hab. unfold wf_dict. simpl. apply NoDup_cons. split.
    - intros H. apply list_elem_of_singleton in H. congruence.
    - apply NoDup_singleton. }
  destruct (includes_merge_precedence pre (VDict OrderedDict da)
              (VDict OrderedDict db) Hk eq_refl eq_refl) as [Heq Hprec].
  destruct (resolve_includes
              (VDict OrderedDict
                 (pre ++ [("includes",
                           VList [VDict OrderedDict da; VDict OrderedDict db])])))
    as [resolved|e] eqn:Hres; [|discriminate Heq].
  destruct (Hprec OrderedDict da OrderedDict db resolved eq_refl eq_refl
              (Hw2 "k" "own" _ _ ltac:(discriminate))
              (Hw2 "k" "j" _ _ ltac:(discriminate)) eq_refl)
    as (d & -> & Hroot & Hfirst).
  exists d. split; [exact Hres|]. split.
  - exact (Hroot "k" (VStr "root") eq_refl eq_refl eq_refl).
  - destruct (Hfirst "j" (VStr "first") (VStr "second") eq_refl eq_refl eq_refl)
      as (r & _ & Hd & Hr).
    rewrite Hd, (Hr eq_refl). reflexivity.
Defined.

(** C1, the claim as stated fails.  With list values the value of D is
    not the resolved value of a key that D and the includes define (the
    lists of the includes come first), and the value of the first include
    is not the resolved value of a key that only the includes define.  And
    when another key follows [includes] in D, no merged tree is returned:
    the loop over the items of D raises once the fragments are merged,
    because the key was popped during the iteration. *)
Lemma includes_merge_precedence_counterexample :
  resolve_includes
    (VDict OrderedDict
       [("k", VList [VInt 1]);
        ("includes",
         VList [VDict OrderedDict [("k", VList [VInt 2]); ("j", VList [VInt 20])];
                VDict OrderedDict [("k", VList [VInt 3]); ("j", VList [VInt 30])]])])
    = Ok (VDict OrderedDict [("k", VList [VInt 3; VInt 2; VInt 1]);
                             ("j", VList [VInt 30; VInt 20])])
  /\ dict_get "k" [("k", VList [VInt 3; VInt 2; VInt 1]);
                   ("j", VList [VInt 30; VInt 20])]
       <> Some (VList [VInt 1])
  /\ dict_get "j" [("k", VList [VInt 3; VInt 2; VInt 1]);
                   ("j", VList [VInt 30; VInt 20])]
       <> Some (VList [VInt 20])
  /\ resolve_includes
       (VDict OrderedDict
          [("includes",
            VList [VDict OrderedDict [("k", VStr "first")];
                   VDict OrderedDict [("k", VStr "second")]]);
           ("k", VStr "root")])
     = Raise (RuntimeError "OrderedDict mutated during iteration").
Proof.
  split; [reflexivity|]. split; [discriminate|]. split; [discriminate|].
  reflexivity.
Qed.

(** C2 is not met by the code.  The mapping under [outer] carries an
    [includes] key, and [resolve_includes] returns the tree as it received
    it: the nested key is neither removed nor merged.  Only an [includes]
    key at the top of the argument is resolved, and a list argument is
    returned untouched whatever its items hold. *)
Theorem nested_includes_left_unresolved :
  resolve_includes
    (VDict OrderedDict
       [("outer",
         VDict OrderedDict
           [("includes", VList [VDict OrderedDict [("x", VInt 1)]])])])
  = Ok (VDict OrderedDict
          [("outer",
            VDict OrderedDict
              [("includes", VList [VDict OrderedDict [("x", VInt 1)]])])])
  /\ resolve_includes
       (VDict OrderedDict
          [("includes", VList [VDict OrderedDict [("x", VInt 1)]])])
     = Ok (VDict OrderedDict [("x", VInt 1)])
  /\ resolve_includes
       (VList [VDict OrderedDict
                 [("includes", VList [VDict OrderedDict [("x", VInt 1)]])]])
     = Ok (VList [VDict OrderedDict
                    [("includes", VList [VDict OrderedDict [("x", VInt 1)]])]]).
Proof. repeat split; reflexivity. Qed.

(** ** Claims on the [!include] constructor *)

Lemma include_filename_first_defect abspath loader node :
  include_filename abspath loader node =
    match first_defect (substitutions loader) (tokens node) with
    | None =>
        Ok (abspath (os_path_join (_root loader)
                       (fill (substitutions loader) (tokens node))))
    | Some Malformed => Raise (ValueError "Invalid placeholder in string")
    | Some (Unknown name) => Raise (could_not_resolve_key name)
    end.
Proof.
  unfold include_filename, Template_substitute.
  rewrite substitute_tokens_first_defect.
  destruct (first_defect (substitutions loader) (tokens node)) as [[|x]|];
    reflexivity.
Qed.

(** C8, as amended: when the leftmost defect of the path template of an
    include directive is a variable absent from the path substitutions (so
    for every well formed template with such a variable), the constructor
    raises the configuration error "Could not resolve key" followed by the
    quoted name of that variable, whatever the file system holds; for every
    well formed path template all of whose variables are present the
    constructor forms the path, the absolute form of the directory of the
    document joined with the substituted template; and no template whose
    variables are all present raises this error. *)
Theorem include_path_resolution
  (abspath : string -> string) (loader : Loader) (node : string) :
  (forall name,
     first_defect (substitutions loader) (tokens node) = Some (Unknown name) ->
     name ∈ variables (tokens node) /\ substitutions loader !! name = None
     /\ include_filename abspath loader node = Raise (could_not_resolve_key name)
     /\ forall read_file yaml_load json_load,
          _construct_include abspath read_file yaml_load json_load loader node
            = Raise (could_not_resolve_key name))
  /\ (well_formed node = true ->
      all_defined (substitutions loader) (tokens node) = false ->
      exists name,
        name ∈ variables (tokens node) /\ substitutions loader !! name = None
        /\ include_filename abspath loader node
             = Raise (could_not_resolve_key name))
  /\ (well_formed node = true ->
      all_defined (substitutions loader) (tokens node) = true ->
      include_filename abspath loader node =
        Ok (abspath (os_path_join (_root loader)
                       (fill (substitutions loader) (tokens node)))))
  /\ (all_defined (substitutions loader) (tokens node) = true ->
      forall name,
        include_filename abspath loader node <> Raise (could_not_resolve_key name)).
Proof.
  rewrite include_filename_first_defect. unfold well_formed.
  split; [|split; [|split]].
  - intros name E. destruct (first_defect_unknown _ _ _ E) as [Hin Hnone].
    split; [assumption|]. split; [assumption|]. rewrite E.
    split; [reflexivity|]. intros read_file yaml_load json_load.
    unfold _construct_include. rewrite include_filename_first_defect, E.
    reflexivity.
  - intros Hw Hd. destruct (first_defect_well_formed _ _ Hw Hd) as [name E].
    destruct (first_defect_unknown _ _ _ E) as [Hin Hnone].
    exists name. rewrite E. auto.
  - intros Hw Hd.
    now rewrite (proj2 (first_defect_None _ _) (conj Hw Hd)).
  - intros Hd name.
    destruct (first_defect (substitutions loader) (tokens node)) as [[|x]|] eqn:E;
      try discriminate.
    apply first_defect_unknown in E as [Hin Hnone]. unfold all_defined in Hd.
    rewrite forallb_forall in Hd. apply list_elem_of_In in Hin.
    specialize (Hd _ Hin). apply bool_decide_eq_true in Hd as [v Hv]. congruence.
Qed.

Lemma include_path_resolution_witness :
  include_filename (fun p => p)
      {| substitutions := {[ "LG_FIRST" := "first.yaml" ]}; _root := "/etc/lab" |}
      "${LG_DOESNOTEXIST}"
    = Raise (InvalidConfigError "Could not resolve key 'LG_DOESNOTEXIST'")
  /\ include_filename (fun p => p)
       {| substitutions := {[ "LG_FIRST" := "first.yaml" ]}; _root := "/etc/lab" |}
       "${LG_FIRST}"
     = Ok "/etc/lab/first.yaml".
Proof.
  split.
  - destruct (include_path_resolution (fun p => p)
                {| substitutions := {[ "LG_FIRST" := "first.yaml" ]};
                   _root := "/etc/lab" |} "${LG_DOESNOTEXIST}")
      as (H & _).
    exact (proj1 (proj2 (proj2 (H "LG_DOESNOTEXIST" eq_refl)))).
  - destruct (include_path_resolution (fun p => p)
                {| substitutions := {[ "LG_FIRST" := "first.yaml" ]};
                   _root := "/etc/lab" |} "${LG_FIRST}")
      as (_ & _ & H & _).
    exact (H eq_refl eq_refl).
Defined.

(** C8, the claim as stated fails: every variable of the path template
    [conf$.yaml] is present in the mapping (it has none), yet no path is
    formed: the malformed placeholder raises [ValueError], which the
    constructor does not catch. *)
Lemma include_path_resolution_counterexample :
  all_defined ∅ (tokens "conf$.yaml") = true
  /\ variables (tokens "conf$.yaml") = []
  /\ include_filename (fun p => p)
       {| substitutions := ∅; _root := "/etc/lab" |} "conf$.yaml"
     = Raise (ValueError "Invalid placeholder in string")
  /\ forall read_file yaml_load json_load,
       _construct_include (fun p => p) read_file yaml_load json_load
         {| substitutions := ∅; _root := "/etc/lab" |} "conf$.yaml"
       = Raise (ValueError "Invalid placeholder in string").
Proof. repeat split; reflexivity. Qed.

(** ** Claims on the accessors *)

(** C9: for every tree, target, option and value, [set_target_option]
    returns a tree (it has no failing case) and [get_target_option] with
    the same keys then returns that very value, whatever the tree held
    before: no targets, no such target, a target without options. *)
Theorem set_get_target_option_roundtrip
  (data : value) (target option : string) (v : value) :
  Config.get_target_option
    (Config.set_target_option data target option v) target option = inr v.
Proof.
  unfold Config.get_target_option, Config.set_target_option. cbn [entries].
  rewrite dict_get_set_eq. cbn [entries]. rewrite dict_get_set_eq.
  cbn [entries]. rewrite dict_get_set_eq. cbn [entries].
  rewrite dict_get_set_eq. reflexivity.
Qed.

(** ** Claims on the type of the tree *)

Lemma dict_pop_middle key v pre rest :
  key ∉ keys pre -> dict_pop key (pre ++ (key, v) :: rest) = pre ++ rest.
Proof.
  induction pre as [|[k w] pre IH]; intros Hk; simpl.
  - now rewrite String.eqb_refl.
  - simpl in Hk. apply not_elem_of_cons in Hk as [Hne Hk].
    destruct (String.eqb k key) eqn:E.
    + apply String.eqb_eq in E. congruence.
    + now rewrite IH.
Qed.

Lemma merge_includes_raises ls s post : forall data acc e,
  merge_includes ls data = Ok acc -> resolve_includes s = Raise e ->
  merge_includes (ls ++ s :: post) data = Raise e.
Proof.
  induction ls as [|l ls IH]; intros data acc e Hls Hs.
  - cbn [app merge_includes]. now rewrite Hs.
  - cbn [app merge_includes] in *.
    destruct (resolve_includes l) as [l'|]; cbn [bind] in *; [|discriminate].
    destruct (data_merge l' data) as [data'|]; cbn [bind] in *; [|discriminate].
    exact (IH _ _ _ Hls Hs).
Qed.

Lemma resolve_includes_scalar data :
  is_dict data = false -> is_list data = false ->
  resolve_includes data = Raise (expected_list_or_dict data).
Proof. destruct data; try discriminate; reflexivity. Qed.

(** C10: [resolve_includes] and [resolve_templates] raise the [TypeError]
    "Expected list or dict, got <class>" for every tree that is neither a
    mapping nor a list, and accept every list and every mapping without
    it.  So when the loop over an [includes] sequence reaches an entry that
    is such a value (the entries before it were resolved and merged),
    [resolve_includes] fails with this [TypeError], which is no
    configuration error; and an include whose extension is none of [yaml],
    [yml] and [json] loads as such a value, the text of the file as one
    string. *)
Theorem resolvers_reject_scalars :
  (forall data, is_dict data = false -> is_list data = false ->
     resolve_includes data = Raise (expected_list_or_dict data)
     /\ forall mapping,
          resolve_templates mapping data = Raise (expected_list_or_dict data))
  /\ (forall items, resolve_includes (VList items) = Ok (VList items))
  /\ (forall kind pre rest before s after acc,
        "includes" ∉ keys pre ->
        is_dict s = false -> is_list s = false ->
        merge_includes before (VDict kind (pre ++ rest)) = Ok acc ->
        resolve_includes
          (VDict kind (pre ++ ("includes", VList (before ++ s :: after)) :: rest))
          = Raise (expected_list_or_dict s))
  /\ (forall abspath read_file yaml_load json_load loader node filename text,
        include_filename abspath loader node = Ok filename ->
        read_file filename = Some text ->
        let extension := lstrip_dots (snd (os_path_splitext filename)) in
        extension <> "yaml" -> extension <> "yml" -> extension <> "json" ->
        _construct_include abspath read_file yaml_load json_load loader node
          = Ok (VStr text)
        /\ resolve_includes (VStr text) = Raise (expected_list_or_dict (VStr text))).
Proof.
  split; [|split; [|split]].
  - intros data Hd Hl. split; [now apply resolve_includes_scalar|].
    intros mapping. destruct data; try discriminate; reflexivity.
  - reflexivity.
  - intros kind pre rest before s after acc Hk Hd Hl Hbefore.
    rewrite resolve_includes_dict, over_entries_skip by assumption.
    cbn [over_entries]. rewrite String.eqb_refl.
    rewrite dict_pop_middle by assumption. cbn [over_value].
    rewrite (merge_includes_raises _ _ _ _ _ _ Hbefore
               (resolve_includes_scalar s Hd Hl)).
    reflexivity.
  - intros abspath read_file yaml_load json_load loader node filename text
      Hname Hread extension Hyaml Hyml Hjson.
    split; [|reflexivity].
    unfold _construct_include. rewrite Hname. cbn [bind]. rewrite Hread.
    fold extension.
    apply String.eqb_neq in Hyaml, Hyml, Hjson.
    now rewrite Hyaml, Hyml, Hjson.
Qed.

Lemma resolvers_reject_scalars_witness :
  resolve_includes (VStr "raw text")
    = Raise (TypeError "Expected list or dict, got <class 'str'>")
  /\ resolve_templates ∅ (VInt 7)
     = Raise (TypeError "Expected list or dict, got <class 'int'>")
  /\ resolve_includes
       (VDict OrderedDict
          [("target", VNone);
           ("includes",
            VList [VDict OrderedDict [("first", VInt 1)]; VStr "raw text"])])
     = Raise (TypeError "Expected list or dict, got <class 'str'>")
  /\ _construct_include (fun p => p)
       (fun name => if String.eqb name "/etc/lab/notes.txt"
                    then Some "raw text" else None)
       (fun _ _ _ => Ok VNone) (fun _ => Ok VNone)
       {| substitutions := ∅; _root := "/etc/lab" |} "notes.txt"
     = Ok (VStr "raw text").
Proof.
  destruct resolvers_reject_scalars as (H1 & _ & H3 & H4).
  split; [exact (proj1 (H1 (VStr "raw text") eq_refl eq_refl))|].
  split; [exact (proj2 (H1 (VInt 7) eq_refl eq_refl) ∅)|].
  split.
  - refine (H3 OrderedDict [("target", VNone)] []
              [VDict OrderedDict [("first", VInt 1)]] (VStr "raw text") []
              _ _ eq_refl eq_refl eq_refl).
    intros H. apply list_elem_of_singleton in H. discriminate.
  - apply (H4 (fun p => p)
             (fun name => if String.eqb name "/etc/lab/notes.txt"
                          then Some "raw text" else None)
             (fun _ _ _ => Ok VNone) (fun _ => Ok VNone)
             {| substitutions := ∅; _root := "/etc/lab" |}
             "notes.txt" "/etc/lab/notes.txt" "raw text");
      try reflexivity; discriminate.
Defined.

(** * Further properties of the code *)

(** ** More on dictionaries *)

Lemma dict_set_new key v d : key ∉ keys d -> dict_set key v d = d ++ [(key, v)].
Proof.
  induction d as [|[k w] d IH]; intros Hk; [reflexivity|].
  simpl in Hk. apply not_elem_of_cons in Hk as [Hne Hk]. simpl.
  destruct (String.eqb k key) eqn:E.
  - apply String.eqb_eq in E. congruence.
  - now rewrite IH.
Qed.

Lemma keys_app d1 d2 : keys (d1 ++ d2) = keys d1 ++ keys d2.
Proof. unfold keys. apply map_app. Qed.

Lemma length_dict_set key v d :
  length (dict_set key v d)
  = if bool_decide (key ∈ keys d) then length d else S (length d).
Proof.
  pose proof (keys_dict_set key v d) as H.
  apply (f_equal (@length string)) in H. unfold keys in H at 1.
  rewrite length_map in H. rewrite H.
  destruct (decide (key ∈ keys d)) as [Hin|Hin].
  - rewrite bool_decide_true by assumption. unfold keys. now rewrite length_map.
  - rewrite bool_decide_false by assumption. rewrite length_app. unfold keys.
    rewrite length_map. simpl. lia.
Qed.

Lemma elem_of_keys_dict_set key v d k :
  k ∈ keys (dict_set key v d) <-> k = key \/ k ∈ keys d.
Proof.
  rewrite keys_dict_set. destruct (decide (key ∈ keys d)) as [Hin|Hin].
  - split; [auto | intros [->|H]; assumption].
  - rewrite elem_of_app, list_elem_of_singleton. tauto.
Qed.

(** ** More on [data_merge] *)

Lemma filter_ext_elem {A} (f g : A -> bool) (l : list A) :
  (forall x, x ∈ l -> f x = g x) -> List.filter f l = List.filter g l.
Proof.
  intros H. apply List.filter_ext_in. intros x Hx. apply H.
  now apply list_elem_of_In.
Qed.

Lemma merge_keys_keys db : forall da d,
  wf_dict db -> merge_keys db da = Ok d ->
  keys d = keys da
           ++ List.filter (fun k => negb (bool_decide (k ∈ keys da))) (keys db).
Proof.
  induction db as [|[k vb] db IH]; intros da d Hwf Hm.
  - simpl in Hm. injection Hm as <-. simpl. now rewrite app_nil_r.
  - apply wf_dict_cons in Hwf as [Hk Hwf].
    apply merge_keys_step in Hm as (r & _ & Hm).
    rewrite (IH _ _ Hwf Hm), keys_dict_set.
    cbn [keys map fst List.filter]. fold (keys db).
    destruct (decide (k ∈ keys da)) as [Hin|Hin].
    + rewrite bool_decide_true by assumption. reflexivity.
    + rewrite bool_decide_false by assumption. cbn [negb].
      rewrite <- app_assoc. cbn [app]. do 2 f_equal.
      apply filter_ext_elem. intros x Hx. f_equal.
      apply bool_decide_ext. rewrite elem_of_app, list_elem_of_singleton.
      split; [intros [H| ->]; [assumption | contradiction] | auto].
Qed.

(** X3: a successful merge of two mappings keeps every key of the base, at
    its position, and puts the keys that only the override has behind them,
    in the order of the override; no key is dropped, and the keys of the
    result are pairwise distinct when those of the base are. *)
Theorem data_merge_key_order
  (ka kb : dict_kind) (da db : dict) (merged : value) :
  wf_dict db ->
  data_merge (VDict ka da) (VDict kb db) = Ok merged ->
  exists d,
    merged = VDict ka d
    /\ keys d = keys da
                ++ List.filter (fun k => negb (bool_decide (k ∈ keys da))) (keys db)
    /\ (wf_dict da -> wf_dict d).
Proof.
  intros Hwf Hm. rewrite data_merge_dict in Hm.
  apply bind_ok in Hm as (d & Hd & [= <-]).
  exists d. split; [reflexivity|]. split.
  - now apply merge_keys_keys.
  - intros Hwa. exact (merge_keys_wf _ _ _ Hwa Hd).
Qed.

Lemma data_merge_key_order_witness :
  exists d,
    data_merge
      (VDict OrderedDict [("b", VInt 1); ("a", VInt 2)])
      (VDict OrderedDict [("c", VInt 3); ("a", VInt 4); ("d", VInt 5)])
    = Ok (VDict OrderedDict d)
    /\ keys d = ["b"; "a"; "c"; "d"].
Proof.
  assert (Hwf : wf_dict [("c", VInt 3); ("a", VInt 4); ("d", VInt 5)]).
  { apply (bool_decide_unpack _). vm_compute. exact I. }
  destruct (data_merge_key_order OrderedDict OrderedDict
              [("b", VInt 1); ("a", VInt 2)]
              [("c", VInt 3); ("a", VInt 4); ("d", VInt 5)] _ Hwf eq_refl)
    as (d & Hd & Hk & _).
  exists d. split; [now rewrite <- Hd|]. rewrite Hk. reflexivity.
Defined.

Lemma merge_keys_disjoint db : forall da,
  wf_dict db -> (forall k, k ∈ keys db -> k ∉ keys da) ->
  merge_keys db da = Ok (da ++ db).
Proof.
  induction db as [|[k vb] db IH]; intros da Hwf Hd.
  - simpl. now rewrite app_nil_r.
  - apply wf_dict_cons in Hwf as [Hk Hwf]. cbn [merge_keys].
    assert (Hnone : dict_get k da = None).
    { apply dict_get_None. apply Hd. left. }
    rewrite Hnone, dict_set_new by (apply Hd; left).
    rewrite IH; [now rewrite <- app_assoc|assumption|].
    intros k' Hk' Hin. rewrite keys_app in Hin.
    apply elem_of_app in Hin as [Hin|Hin].
    + apply (Hd k'); [now right | assumption].
    + apply list_elem_of_singleton in Hin. simpl in Hin. congruence.
Qed.

(** X4: two mappings without a common key always merge, whatever their
    values are: the result is the base mapping with the entries of the
    override behind its own.  In particular an empty base takes over the
    entries of the override. *)
Theorem data_merge_disjoint (ka kb : dict_kind) (da db : dict) :
  wf_dict db -> (forall k, k ∈ keys db -> k ∉ keys da) ->
  data_merge (VDict ka da) (VDict kb db) = Ok (VDict ka (da ++ db)).
Proof.
  intros Hwf Hd. rewrite data_merge_dict.
  now rewrite merge_keys_disjoint.
Qed.

Lemma data_merge_disjoint_witness :
  data_merge
    (VDict OrderedDict [("first", VTuple [VInt 1])])
    (VDict OrderedDict [("target", VDict OrderedDict []); ("second", VNone)])
  = Ok (VDict OrderedDict
          [("first", VTuple [VInt 1]); ("target", VDict OrderedDict []);
           ("second", VNone)]).
Proof.
  apply (data_merge_disjoint OrderedDict OrderedDict
           [("first", VTuple [VInt 1])]
           [("target", VDict OrderedDict []); ("second", VNone)]).
  - apply (bool_decide_unpack _). vm_compute. exact I.
  - intros k Hk Hin. apply list_elem_of_singleton in Hin. subst k.
    repeat (apply elem_of_cons in Hk as [Hk|Hk]; [discriminate|]).
    inversion Hk.
Defined.

(** ** More on [resolve_includes] *)

(** X5: popping the key during the iteration is fatal unless the key is
    the last one of an [OrderedDict].  When another key follows [includes],
    or when the mapping is a plain [dict], and the fragments resolve and
    merge, [resolve_includes] returns no tree: it raises [RuntimeError]. *)
Theorem includes_must_be_last
  (kind : dict_kind) (pre rest : dict) (val merged : value) :
  "includes" ∉ keys pre ->
  kind = PlainDict \/ rest <> [] ->
  over_value val (VDict kind (pre ++ rest)) = Ok merged ->
  resolve_includes (VDict kind (pre ++ ("includes", val) :: rest))
  = Raise (RuntimeError
             (match kind with
              | OrderedDict => "OrderedDict mutated during iteration"
              | PlainDict => "dictionary changed size during iteration"
              end)).
Proof.
  intros Hk Hrest Hval.
  rewrite resolve_includes_dict, over_entries_skip by assumption.
  cbn [over_entries]. rewrite String.eqb_refl.
  rewrite dict_pop_middle by assumption. rewrite Hval. cbn [bind].
  destruct kind, rest as [|e rest]; try reflexivity.
  destruct Hrest; congruence.
Qed.

Lemma includes_must_be_last_witness :
  resolve_includes
    (VDict OrderedDict
       [("includes", VList [VDict OrderedDict [("first", VInt 1)]]);
        ("targets", VNone)])
  = Raise (RuntimeError "OrderedDict mutated during iteration")
  /\ resolve_includes
       (VDict PlainDict
          [("targets", VNone);
           ("includes", VList [VDict PlainDict [("first", VInt 1)]])])
     = Raise (RuntimeError "dictionary changed size during iteration").
Proof.
  split.
  - apply (includes_must_be_last OrderedDict [] [("targets", VNone)]
             (VList [VDict OrderedDict [("first", VInt 1)]])
             (VDict OrderedDict [("first", VInt 1); ("targets", VNone)])).
    + apply not_elem_of_nil.
    + right. discriminate.
    + reflexivity.
  - apply (includes_must_be_last PlainDict [("targets", VNone)] []
             (VList [VDict PlainDict [("first", VInt 1)]])
             (VDict PlainDict [("first", VInt 1); ("targets", VNone)])).
    + intros H. apply list_elem_of_singleton in H. discriminate.
    + now left.
    + reflexivity.
Defined.

Lemma keys_split key (d : dict) :
  key ∈ keys d ->
  exists pre val rest, d = pre ++ (key, val) :: rest /\ key ∉ keys pre.
Proof.
  induction d as [|[k v] d IH]; intros Hin; [inversion Hin|].
  destruct (decide (k = key)) as [->|Hne].
  - exists [], v, d. split; [reflexivity | apply not_elem_of_nil].
  - simpl in Hin. apply elem_of_cons in Hin as [Hin|Hin]; [congruence|].
    destruct (IH Hin) as (pre & val & rest & -> & Hpre).
    exists ((k, v) :: pre), val, rest. split; [reflexivity|].
    simpl. apply not_elem_of_cons. split; [congruence | assumption].
Qed.

Lemma merge_keys_elem db : forall da d k,
  merge_keys db da = Ok d -> k ∈ keys d -> k ∈ keys da \/ k ∈ keys db.
Proof.
  induction db as [|[key vb] db IH]; intros da d k Hm Hk.
  - simpl in Hm. injection Hm as <-. now left.
  - apply merge_keys_step in Hm as (r & _ & Hm).
    destruct (IH _ _ _ Hm Hk) as [H|H].
    + apply elem_of_keys_dict_set in H as [->|H]; [right; left | now left].
    + right. now right.
Qed.

Lemma includes_free_merge l acc r :
  includes_free l = true -> includes_free acc = true ->
  data_merge l acc = Ok r -> includes_free r = true.
Proof.
  intros Hl Hacc Hm.
  destruct l as [ | | | | | |la| |ka da| | | ]; try discriminate.
  - destruct acc; simpl in Hm; injection Hm as <-; reflexivity.
  - destruct acc as [ | | | | | |lb| |kb db| | | ]; try discriminate.
    rewrite data_merge_dict in Hm. apply bind_ok in Hm as (d & Hd & [= <-]).
    simpl in *. apply negb_true_iff, bool_decide_eq_false.
    apply negb_true_iff, bool_decide_eq_false in Hl, Hacc.
    intros Hin. destruct (merge_keys_elem _ _ _ _ Hd Hin); contradiction.
Qed.

Lemma includes_free_fixed v :
  includes_free v = true -> resolve_includes v = Ok v.
Proof.
  destruct v as [ | | | | | |items| |kind d| | | ]; try discriminate.
  - reflexivity.
  - simpl. intros H. apply negb_true_iff, bool_decide_eq_false in H.
    now apply resolve_includes_no_key.
Qed.

Lemma merge_includes_free ls : forall acc r,
  Forall (fun l => forall r, resolve_includes l = Ok r -> includes_free r = true) ls ->
  includes_free acc = true ->
  merge_includes ls acc = Ok r -> includes_free r = true.
Proof.
  induction ls as [|l ls IH]; intros acc r Hls Hacc Hm.
  - simpl in Hm. now injection Hm as <-.
  - apply Forall_cons in Hls as [Hl Hls]. cbn [merge_includes] in Hm.
    apply bind_ok in Hm as (l' & Hl' & Hm).
    apply bind_ok in Hm as (acc' & Hacc' & Hm).
    apply (IH acc' r Hls); [|assumption].
    exact (includes_free_merge _ _ _ (Hl _ Hl') Hacc Hacc').
Qed.

Lemma resolve_includes_free_strong v :
  (forall r, resolve_includes v = Ok r -> includes_free r = true)
  /\ match v with
     | VList ls | VTuple ls =>
         Forall (fun l => forall r, resolve_includes l = Ok r ->
                                    includes_free r = true) ls
     | _ => True
     end.
Proof.
  induction v as [ | | | | | |items IH|items IH|kind d IH| | | ] using value_ind;
    try (split; [discriminate | exact I]).
  - split; [intros r [= <-]; reflexivity|].
    eapply Forall_impl; [exact IH|]. intros l [Hl _]. exact Hl.
  - split; [discriminate|].
    eapply Forall_impl; [exact IH|]. intros l [Hl _]. exact Hl.
  - split; [|exact I]. intros r Hr.
    destruct (decide ("includes" ∈ keys d)) as [Hin|Hin].
    2: { rewrite resolve_includes_no_key in Hr by assumption.
         injection Hr as <-. simpl. now rewrite bool_decide_false. }
    destruct (keys_split _ _ Hin) as (pre & val & rest & -> & Hpre).
    rewrite resolve_includes_dict, over_entries_skip in Hr by assumption.
    cbn [over_entries] in Hr. rewrite String.eqb_refl in Hr.
    rewrite dict_pop_middle in Hr by assumption.
    apply bind_ok in Hr as (merged & Hval & Hnext).
    destruct kind; [discriminate|]. destruct rest as [|e rest]; [|discriminate].
    simpl in Hnext. injection Hnext as <-. rewrite app_nil_r in Hval.
    assert (Hpopped : includes_free (VDict OrderedDict pre) = true).
    { simpl. now rewrite bool_decide_false. }
    apply Forall_app in IH as [_ IH]. apply Forall_cons in IH as [[_ IHval] _].
    cbn [snd] in IHval.
    destruct val as [ | | | |s|s|ls|ls|k' d'| | | ]; try discriminate Hval.
    + destruct s; [|discriminate]. now injection Hval as <-.
    + destruct s; [|discriminate]. now injection Hval as <-.
    + exact (merge_includes_free ls _ _ IHval Hpopped Hval).
    + exact (merge_includes_free ls _ _ IHval Hpopped Hval).
    + destruct d' as [|[k'' v''] d']; [|discriminate]. now injection Hval as <-.
Qed.

(** X6: whatever [resolve_includes] returns is a list or a mapping without
    the key [includes], and resolving it once more gives it back
    unchanged: the function is idempotent on its results. *)
Theorem resolve_includes_idempotent (data r : value) :
  resolve_includes data = Ok r ->
  includes_free r = true /\ resolve_includes r = Ok r.
Proof.
  intros Hr. assert (Hfree : includes_free r = true).
  { exact (proj1 (resolve_includes_free_strong data) r Hr). }
  split; [assumption | now apply includes_free_fixed].
Qed.

Lemma resolve_includes_idempotent_witness :
  resolve_includes
    (VDict OrderedDict
       [("k", VInt 1);
        ("includes",
         VList [VDict OrderedDict
                  [("j", VInt 2);
                   ("includes", VList [VDict OrderedDict [("i", VInt 3)]])]])])
  = Ok (VDict OrderedDict [("i", VInt 3); ("j", VInt 2); ("k", VInt 1)])
  /\ resolve_includes
       (VDict OrderedDict [("i", VInt 3); ("j", VInt 2); ("k", VInt 1)])
     = Ok (VDict OrderedDict [("i", VInt 3); ("j", VInt 2); ("k", VInt 1)]).
Proof.
  split; [reflexivity|].
  exact (proj2 (resolve_includes_idempotent
                  (VDict OrderedDict
                     [("k", VInt 1);
                      ("includes",
                       VList [VDict OrderedDict
                                [("j", VInt 2);
                                 ("includes",
                                  VList [VDict OrderedDict [("i", VInt 3)]])]])])
                  _ eq_refl)).
Defined.

Lemma resolve_includes_at kind pre val rest :
  "includes" ∉ keys pre ->
  resolve_includes (VDict kind (pre ++ ("includes", val) :: rest))
  = (let* merged := over_value val (VDict kind (pre ++ rest)) in
     next_after_pop kind rest merged).
Proof.
  intros Hk. rewrite resolve_includes_dict, over_entries_skip by assumption.
  cbn [over_entries]. rewrite String.eqb_refl.
  now rewrite dict_pop_middle.
Qed.

(** X7: a key [includes] bound to something that is no list and no tuple,
    wherever the key stands and whatever the class of the mapping.  A value
    that cannot be iterated (the [None] of an empty [includes:], a number,
    a boolean, a template) raises the [TypeError] "object is not iterable".
    A string that is not empty raises the "Expected list or dict"
    [TypeError] for its first character, a block-style string likewise, and
    a mapping that is not empty raises it for its first key.  An empty
    string and an empty mapping are iterated like an empty list: nothing is
    merged, and the outcome is that of removing the key; as the last key of
    an [OrderedDict] the document is returned without it, elsewhere the
    loop over the document raises. *)
Theorem includes_value_not_a_sequence
  (kind : dict_kind) (pre rest : dict) (val : value) :
  "includes" ∉ keys pre ->
  (is_iterable val = false ->
     resolve_includes (VDict kind (pre ++ ("includes", val) :: rest))
     = Raise (not_iterable val))
  /\ (forall c s, val = VStr (String c s) ->
        resolve_includes (VDict kind (pre ++ ("includes", val) :: rest))
        = Raise (expected_list_or_dict (VStr (String c EmptyString))))
  /\ (forall c s, val = VUserString (String c s) ->
        resolve_includes (VDict kind (pre ++ ("includes", val) :: rest))
        = Raise (expected_list_or_dict (VUserString (String c EmptyString))))
  /\ (forall k' key v d, val = VDict k' ((key, v) :: d) ->
        resolve_includes (VDict kind (pre ++ ("includes", val) :: rest))
        = Raise (expected_list_or_dict (VStr key)))
  /\ ((val = VStr EmptyString \/ val = VUserString EmptyString
       \/ exists k', val = VDict k' []) ->
      resolve_includes (VDict kind (pre ++ ("includes", val) :: rest))
      = next_after_pop kind rest (VDict kind (pre ++ rest))
      /\ (kind = OrderedDict -> rest = [] ->
          resolve_includes (VDict kind (pre ++ ("includes", val) :: rest))
          = Ok (VDict OrderedDict pre))
      /\ (kind = PlainDict \/ rest <> [] ->
          is_ok (resolve_includes
                   (VDict kind (pre ++ ("includes", val) :: rest))) = false)).
Proof.
  intros Hk. rewrite resolve_includes_at by assumption.
  split; [|split; [|split; [|split]]].
  - intros Hval. destruct val; try discriminate; reflexivity.
  - intros c s ->. reflexivity.
  - intros c s ->. reflexivity.
  - intros k' key v d ->. reflexivity.
  - intros Hval.
    assert (Hover : over_value val (VDict kind (pre ++ rest))
                    = Ok (VDict kind (pre ++ rest))).
    { destruct Hval as [-> | [-> | [k' ->]]]; reflexivity. }
    rewrite Hover. cbn [bind]. split; [reflexivity|]. split.
    + intros -> ->. now rewrite app_nil_r.
    + intros [-> | Hrest].
      * destruct rest; reflexivity.
      * destruct kind, rest; try reflexivity. congruence.
Qed.

Lemma includes_value_not_a_sequence_witness :
  resolve_includes
    (VDict OrderedDict [("targets", VDict OrderedDict []); ("includes", VNone)])
  = Raise (TypeError "'NoneType' object is not iterable")
  /\ resolve_includes
       (VDict OrderedDict [("includes", VStr "first.yaml"); ("targets", VNone)])
     = Raise (TypeError "Expected list or dict, got <class 'str'>")
  /\ resolve_includes
       (VDict OrderedDict [("targets", VNone); ("includes", VStr EmptyString)])
     = Ok (VDict OrderedDict [("targets", VNone)]).
Proof.
  split; [|split].
  - refine (proj1 (includes_value_not_a_sequence OrderedDict
                     [("targets", VDict OrderedDict [])] [] VNone _) eq_refl).
    intros H. apply list_elem_of_singleton in H. discriminate.
  - refine (proj1 (proj2 (includes_value_not_a_sequence OrderedDict
                     [] [("targets", VNone)] (VStr "first.yaml") _))
              "f"%char "irst.yaml" eq_refl).
    apply not_elem_of_nil.
  - refine (proj1 (proj2 (proj2 (proj2 (proj2 (proj2
              (includes_value_not_a_sequence OrderedDict
                 [("targets", VNone)] [] (VStr EmptyString) _))))
              (or_introl eq_refl))) eq_refl eq_refl).
    intros H. apply list_elem_of_singleton in H. discriminate.
Defined.

(** X8: an included fragment is resolved before it is merged.  When a
    document includes a fragment A that itself includes a resolved fragment
    B ([includes] being the last key of both), the result is
    [merge(merge(B, A), D)], each without its [includes] key: B first, A
    over B, the document over both. *)
Theorem include_chain_flattens (preD preA : dict) (B : value) :
  "includes" ∉ keys preD -> "includes" ∉ keys preA ->
  resolve_includes B = Ok B ->
  resolve_includes
    (VDict OrderedDict
       (preD ++ [("includes",
                  VList [VDict OrderedDict
                           (preA ++ [("includes", VList [B])])])]))
  = (let* a := data_merge B (VDict OrderedDict preA) in
     data_merge a (VDict OrderedDict preD)).
Proof.
  intros HD HA HB.
  rewrite resolve_includes_last by assumption.
  cbn [over_value merge_includes].
  rewrite resolve_includes_last by assumption.
  cbn [over_value merge_includes]. rewrite HB. cbn [bind].
  destruct (data_merge B (VDict OrderedDict preA)) as [a|e]; cbn [bind];
    [|reflexivity].
  destruct (data_merge a (VDict OrderedDict preD)); reflexivity.
Qed.

Lemma include_chain_flattens_witness :
  resolve_includes
    (VDict OrderedDict
       [("k", VStr "root");
        ("includes",
         VList [VDict OrderedDict
                  [("k", VStr "A"); ("j", VStr "A");
                   ("includes",
                    VList [VDict OrderedDict
                             [("k", VStr "B"); ("j", VStr "B");
                              ("i", VStr "B")]])]])])
  = Ok (VDict OrderedDict
          [("k", VStr "root"); ("j", VStr "A"); ("i", VStr "B")]).
Proof.
  assert (HD : "includes" ∉ keys [("k", VStr "root")]).
  { intros H. apply list_elem_of_singleton in H. discriminate. }
  assert (HA : "includes" ∉ keys [("k", VStr "A"); ("j", VStr "A")]).
  { intros H. repeat (apply elem_of_cons in H as [H|H]; [discriminate|]).
    inversion H. }
  exact (eq_trans
           (include_chain_flattens
              [("k", VStr "root")] [("k", VStr "A"); ("j", VStr "A")]
              (VDict OrderedDict
                 [("k", VStr "B"); ("j", VStr "B"); ("i", VStr "B")])
              HD HA eq_refl)
           eq_refl).
Defined.

(** ** More on [resolve_templates] *)

Lemma resolve_item_plain rec mapping v :
  is_template v = false -> is_dict v = false -> is_list v = false ->
  resolve_item rec mapping v = Ok v.
Proof. destruct v; try discriminate; reflexivity. Qed.

Lemma resolve_list_shape mapping items : forall items',
  resolve_list mapping items = Ok items' ->
  length items' = length items
  /\ forall i v, items !! i = Some v ->
       is_template v = false -> is_dict v = false -> is_list v = false ->
       items' !! i = Some v.
Proof.
  induction items as [|x items IH]; intros items' H.
  - simpl in H. injection H as <-. split; [reflexivity|]. intros i v Hi.
    now rewrite lookup_nil in Hi.
  - cbn [resolve_list] in H. apply bind_ok in H as (x' & Hx & H).
    apply bind_ok in H as (rest' & Hrest & [= <-]).
    destruct (IH _ Hrest) as [Hlen Hkeep]. split; [simpl; now rewrite Hlen|].
    intros [|i] v Hi Ht Hd Hl; simpl in *.
    + injection Hi as ->.
      rewrite (resolve_item_plain _ _ _ Ht Hd Hl) in Hx. congruence.
    + now apply Hkeep.
Qed.

Lemma resolve_dict_shape mapping d : forall d',
  resolve_dict mapping d = Ok d' ->
  keys d' = keys d
  /\ forall key v, dict_get key d = Some v ->
       is_template v = false -> is_dict v = false -> is_list v = false ->
       dict_get key d' = Some v.
Proof.
  induction d as [|[k x] d IH]; intros d' H.
  - simpl in H. injection H as <-. split; [reflexivity|]. discriminate.
  - cbn [resolve_dict] in H. apply bind_ok in H as (x' & Hx & H).
    apply bind_ok in H as (rest' & Hrest & [= <-]).
    destruct (IH _ Hrest) as [Hkeys Hkeep]. split; [simpl; now rewrite Hkeys|].
    intros key v Hget Ht Hd Hl. simpl in *.
    destruct (String.eqb k key); [|now apply Hkeep].
    injection Hget as ->.
    rewrite (resolve_item_plain _ _ _ Ht Hd Hl) in Hx. congruence.
Qed.

Lemma resolve_item_same_shape mapping v v' :
  (forall m r, resolve_templates m v = Ok r -> same_shape v r) ->
  resolve_item (resolve_templates mapping) mapping v = Ok v' ->
  same_shape v v'.
Proof.
  intros IH H.
  destruct v as [ | | | | | |items|items|kind d|t|t| ];
    try (injection H as <-; now apply shape_other).
  - exact (IH _ _ H).
  - exact (IH _ _ H).
  - unfold resolve_item in H.
    destruct (Template_substitute t mapping) as [s|[]]; try discriminate H.
    injection H as <-. constructor.
  - unfold resolve_item in H. apply bind_ok in H as (s & _ & [= <-]).
    constructor.
Qed.

Lemma resolve_templates_same_shape v : forall m r,
  resolve_templates m v = Ok r -> same_shape v r.
Proof.
  induction v as [ | | | | | |items IH|items IH|kind d IH| | | ] using value_ind;
    intros m r H; try discriminate H.
  - rewrite resolve_templates_list in H. apply bind_ok in H as (items' & H & [= <-]).
    apply shape_list. revert items' H.
    induction IH as [|x items Hx _ IHitems]; intros items' H.
    + simpl in H. injection H as <-. constructor.
    + cbn [resolve_list] in H. apply bind_ok in H as (x' & Hx' & H).
      apply bind_ok in H as (rest' & Hrest & [= <-]).
      constructor; [exact (resolve_item_same_shape _ _ _ Hx Hx') | now apply IHitems].
  - rewrite resolve_templates_dict in H. apply bind_ok in H as (d' & H & [= <-]).
    apply shape_dict. revert d' H.
    induction IH as [|[k x] d Hx _ IHd]; intros d' H.
    + simpl in H. injection H as <-. constructor.
    + cbn [resolve_dict] in H. apply bind_ok in H as (x' & Hx' & H).
      apply bind_ok in H as (rest' & Hrest & [= <-]).
      constructor; [|now apply IHd].
      split; [reflexivity | exact (resolve_item_same_shape _ _ _ Hx Hx')].
Qed.

(** What [same_shape] says of a list and of a mapping, one level down. *)
Lemma same_shape_list items r :
  same_shape (VList items) r ->
  exists items', r = VList items' /\ length items' = length items
    /\ forall i v, items !! i = Some v ->
         exists v', items' !! i = Some v' /\ same_shape v v'.
Proof.
  intros H. inversion H as [ | |? items' Hall| |? Ht Hl Hd]; subst;
    [|discriminate Hl].
  exists items'. split; [reflexivity|].
  split; [symmetry; exact (Forall2_length _ _ _ Hall)|].
  intros i v Hi. destruct (Forall2_lookup_l _ _ _ _ _ Hall Hi) as (v' & Hv' & Hs).
  now exists v'.
Qed.

Lemma same_shape_dict kind d r :
  same_shape (VDict kind d) r ->
  exists d', r = VDict kind d' /\ keys d' = keys d
    /\ forall i key v, d !! i = Some (key, v) ->
         exists v', d' !! i = Some (key, v') /\ same_shape v v'.
Proof.
  intros H. inversion H as [ | | |? ? d' Hall|? Ht Hl Hd]; subst;
    [|discriminate Hd].
  exists d'. split; [reflexivity|]. split.
  - clear H. induction Hall as [|[k x] [k' x'] d d' [Hk _] _ IH]; [reflexivity|].
    simpl in *. now rewrite Hk, IH.
  - intros i key v Hi.
    destruct (Forall2_lookup_l _ _ _ _ _ Hall Hi) as ([k' v'] & Hv' & Hk & Hs).
    simpl in *. subst k'. now exists v'.
Qed.

(** An item that is neither a template nor a list nor a mapping
    corresponds to itself only, and a template to a string only. *)
Lemma same_shape_plain v v' :
  same_shape v v' ->
  is_template v = false -> is_list v = false -> is_dict v = false -> v' = v.
Proof. intros H Ht Hl Hd. inversion H; subst; try discriminate; reflexivity. Qed.

Lemma same_shape_is_template v v' :
  same_shape v v' -> is_template v = true -> exists s, v' = VStr s.
Proof. intros H Ht. inversion H; subst; try discriminate; eauto; congruence. Qed.

(** X9: a successful [resolve_templates] keeps the shape of the whole tree
    it was given, at every depth its loops reach: the result is the tree in
    which templates have become strings ([same_shape]).  A list comes back
    as a list of the same length, a mapping as a mapping of the same class
    with the same keys in the same order, and so do the lists and mappings
    nested in them; an item that is neither a template nor a list nor a
    mapping (a scalar, [None], a tuple) is the same afterwards, and a
    template has become a string.  The tree itself is a list or a
    mapping. *)
Theorem resolve_templates_keeps_shape
  (mapping : gmap string string) (data r : value) :
  resolve_templates mapping data = Ok r ->
  same_shape data r
  /\ match data with
     | VList items =>
         exists items', r = VList items' /\ length items' = length items
           /\ forall i v, items !! i = Some v ->
                exists v', items' !! i = Some v' /\ same_shape v v'
     | VDict kind d =>
         exists d', r = VDict kind d' /\ keys d' = keys d
           /\ forall i key v, d !! i = Some (key, v) ->
                exists v', d' !! i = Some (key, v') /\ same_shape v v'
     | _ => False
     end.
Proof.
  intros H. pose proof (resolve_templates_same_shape _ _ _ H) as Hs.
  split; [exact Hs|].
  destruct data as [ | | | | | |items| |kind d| | | ]; try discriminate H.
  - now apply same_shape_list.
  - now apply same_shape_dict.
Qed.

Lemma resolve_templates_keeps_shape_witness :
  exists r,
    resolve_templates {[ "BASE" := "/srv" ]}
      (VDict OrderedDict
         [("paths", VList [VTemplate "${BASE}/suffix"; VInt 3]);
          ("t", VTuple [VTemplate "$BASE"])])
    = Ok r
    /\ same_shape
         (VDict OrderedDict
            [("paths", VList [VTemplate "${BASE}/suffix"; VInt 3]);
             ("t", VTuple [VTemplate "$BASE"])])
         r.
Proof.
  destruct (resolve_templates {[ "BASE" := "/srv" ]}
              (VDict OrderedDict
                 [("paths", VList [VTemplate "${BASE}/suffix"; VInt 3]);
                  ("t", VTuple [VTemplate "$BASE"])])) as [r|e] eqn:H;
    [|vm_compute in H; discriminate H].
  exists r. split; [reflexivity|].
  exact (proj1 (resolve_templates_keeps_shape _ _ _ H)).
Defined.

Lemma resolve_item_settled mapping v v' :
  (forall m r, resolve_templates m v = Ok r ->
     settled r = true /\ forall m', resolve_templates m' r = Ok r) ->
  resolve_item (resolve_templates mapping) mapping v = Ok v' ->
  settled v' = true
  /\ forall m', resolve_item (resolve_templates m') m' v' = Ok v'.
Proof.
  intros IH H.
  destruct v as [ | | | | | |items|items|kind d|t|t| ];
    try (injection H as <-; split; [reflexivity | intros; reflexivity]).
  - cbn [resolve_item] in H. destruct (IH _ _ H) as [Hs Hfix].
    rewrite resolve_templates_list in H. apply bind_ok in H as (i' & _ & [= <-]).
    split; [exact Hs | exact Hfix].
  - cbn [resolve_item] in H. destruct (IH _ _ H) as [Hs Hfix].
    rewrite resolve_templates_dict in H. apply bind_ok in H as (d' & _ & [= <-]).
    split; [exact Hs | exact Hfix].
  - unfold resolve_item in H.
    destruct (Template_substitute t mapping) as [s|[]]; try discriminate H.
    injection H as <-. split; [reflexivity | intros; reflexivity].
  - unfold resolve_item in H. apply bind_ok in H as (s & _ & [= <-]).
    split; [reflexivity | intros; reflexivity].
Qed.

Lemma resolve_templates_settled_strong v : forall m r,
  resolve_templates m v = Ok r ->
  settled r = true /\ forall m', resolve_templates m' r = Ok r.
Proof.
  induction v as [ | | | | | |items IH|items IH|kind d IH| | | ] using value_ind;
    intros m r H; try discriminate H.
  - rewrite resolve_templates_list in H. apply bind_ok in H as (items' & H & [= <-]).
    assert (Hall : forallb settled items' = true
                   /\ forall m', resolve_list m' items' = Ok items').
    { revert items' H. induction IH as [|x items Hx _ IHitems]; intros items' H.
      - simpl in H. injection H as <-. split; [reflexivity | reflexivity].
      - cbn [resolve_list] in H. apply bind_ok in H as (x' & Hx' & H).
        apply bind_ok in H as (rest' & Hrest & [= <-]).
        destruct (resolve_item_settled _ _ _ Hx Hx') as [Hs Hfix].
        destruct (IHitems _ Hrest) as [Hs' Hfix'].
        split; [simpl; now rewrite Hs, Hs'|].
        intros m'. cbn [resolve_list]. rewrite Hfix. cbn [bind].
        now rewrite Hfix'. }
    destruct Hall as [Hs Hfix]. split; [exact Hs|].
    intros m'. rewrite resolve_templates_list, Hfix. reflexivity.
  - rewrite resolve_templates_dict in H. apply bind_ok in H as (d' & H & [= <-]).
    assert (Hall : forallb (fun kv => let '(_, val) := kv in settled val) d' = true
                   /\ forall m', resolve_dict m' d' = Ok d').
    { revert d' H. induction IH as [|[k x] d Hx _ IHd]; intros d' H.
      - simpl in H. injection H as <-. split; reflexivity.
      - cbn [resolve_dict] in H. apply bind_ok in H as (x' & Hx' & H).
        apply bind_ok in H as (rest' & Hrest & [= <-]).
        destruct (resolve_item_settled _ _ _ Hx Hx') as [Hs Hfix].
        destruct (IHd _ Hrest) as [Hs' Hfix'].
        split; [simpl; now rewrite Hs, Hs'|].
        intros m'. cbn [resolve_dict]. rewrite Hfix. cbn [bind].
        now rewrite Hfix'. }
    destruct Hall as [Hs Hfix]. split; [exact Hs|].
    intros m'. rewrite resolve_templates_dict, Hfix. reflexivity.
Qed.

(** X10: after a successful [resolve_templates] no template object is left
    where the function looks (the items of the tree and of the lists and
    mappings in it, at any depth; tuples are not entered, so a template
    inside a tuple stays), and resolving the result again, under any
    mapping, changes nothing. *)
Theorem resolve_templates_idempotent
  (mapping : gmap string string) (data r : value) :
  resolve_templates mapping data = Ok r ->
  settled r = true
  /\ forall mapping', resolve_templates mapping' r = Ok r.
Proof. apply resolve_templates_settled_strong. Qed.

Lemma resolve_templates_idempotent_witness :
  resolve_templates {[ "BASE" := "/srv" ]}
    (VDict OrderedDict
       [("dict",
         VDict OrderedDict
           [("list", VList [VStr "a"; VTemplate "$BASE"]);
            ("string", VOptionalTemplate "${BASE}/${NONE}x")])])
  = Ok (VDict OrderedDict
          [("dict",
            VDict OrderedDict
              [("list", VList [VStr "a"; VStr "/srv"]);
               ("string", VStr "/srv/x")])])
  /\ resolve_templates ∅
       (VDict OrderedDict
          [("dict",
            VDict OrderedDict
              [("list", VList [VStr "a"; VStr "/srv"]);
               ("string", VStr "/srv/x")])])
     = Ok (VDict OrderedDict
             [("dict",
               VDict OrderedDict
                 [("list", VList [VStr "a"; VStr "/srv"]);
                  ("string", VStr "/srv/x")])]).
Proof.
  assert (H : resolve_templates {[ "BASE" := "/srv" ]}
    (VDict OrderedDict
       [("dict",
         VDict OrderedDict
           [("list", VList [VStr "a"; VTemplate "$BASE"]);
            ("string", VOptionalTemplate "${BASE}/${NONE}x")])])
  = Ok (VDict OrderedDict
          [("dict",
            VDict OrderedDict
              [("list", VList [VStr "a"; VStr "/srv"]);
               ("string", VStr "/srv/x")])])).
  { vm_compute. reflexivity. }
  split; [exact H|].
  exact (proj2 (resolve_templates_idempotent _ _ _ H) ∅).
Defined.

(** ** More on the template engine *)

Lemma retry_returned ts mappings ext log :
  (forall x, default EmptyString (ext !! x) = default EmptyString (mappings !! x)) ->
  returned (OptionalTemplate.retry ts mappings ext log)
  = if well_formed_tokens ts then Ok (fill mappings ts)
    else Raise (ValueError "Invalid placeholder in string").
Proof.
  apply (OptionalTemplate.retry_elim
    (fun ts mappings ext log run =>
       (forall x, default EmptyString (ext !! x)
                  = default EmptyString (mappings !! x)) ->
       returned run
       = if well_formed_tokens ts then Ok (fill mappings ts)
         else Raise (ValueError "Invalid placeholder in string")));
    clear.
  - intros ts mappings ext s e log _ Hagree. simpl.
    rewrite substitute_tokens_first_defect in e.
    destruct (first_defect ext ts) as [[|x]|] eqn:E; try discriminate e.
    apply first_defect_None in E as [-> _].
    injection e as <-. f_equal. now apply fill_agree.
  - intros ts mappings ext msg e log _ _. exfalso.
    rewrite substitute_tokens_first_defect in e.
    destruct (first_defect ext ts) as [[|x]|]; discriminate e.
  - intros ts mappings ext msg e log _ _. exfalso.
    rewrite substitute_tokens_first_defect in e.
    destruct (first_defect ext ts) as [[|x]|]; discriminate e.
  - intros ts mappings ext name e log IH _ Hagree. apply IH.
    rewrite substitute_tokens_first_defect in e.
    destruct (first_defect ext ts) as [[|x]|] eqn:E; try discriminate e.
    injection e as ->. apply first_defect_unknown in E as [_ Hnone].
    intros y. destruct (decide (name = y)) as [->|Hne].
    + rewrite lookup_insert_eq. simpl. rewrite <- Hagree, Hnone. reflexivity.
    + rewrite lookup_insert_ne by assumption. apply Hagree.
  - intros ts mappings ext msg e log _ _. simpl.
    rewrite substitute_tokens_first_defect in e.
    destruct (first_defect ext ts) as [[|x]|] eqn:E; try discriminate e.
    apply first_defect_malformed in E. rewrite E. now symmetry.
  - intros ts mappings ext msg e log _ _. exfalso.
    rewrite substitute_tokens_first_defect in e.
    destruct (first_defect ext ts) as [[|x]|]; discriminate e.
  - intros ts mappings ext msg e log _ _. exfalso.
    rewrite substitute_tokens_first_defect in e.
    destruct (first_defect ext ts) as [[|x]|]; discriminate e.
Qed.

(** X11: an optional template fails only on its grammar.  Under every
    mapping [OptionalTemplate.substitute] returns the filled template when
    the template is well formed and raises the [ValueError] of
    [string.Template] when it is not; [resolve_templates] passes both on as
    they are, so that a malformed optional template does not produce the
    "Invalid template string" error of a strict one, and no optional
    template raises [KeyError]. *)
Theorem optional_template_fails_on_grammar_only
  (mapping : gmap string string) (tmpl : string) :
  returned (OptionalTemplate.substitute tmpl mapping)
  = (if well_formed tmpl then Ok (fill mapping (tokens tmpl))
     else Raise (ValueError "Invalid placeholder in string"))
  /\ forall rec,
       resolve_item rec mapping (VOptionalTemplate tmpl)
       = (if well_formed tmpl then Ok (VStr (fill mapping (tokens tmpl)))
          else Raise (ValueError "Invalid placeholder in string")).
Proof.
  assert (H : returned (OptionalTemplate.substitute tmpl mapping)
              = (if well_formed tmpl then Ok (fill mapping (tokens tmpl))
                 else Raise (ValueError "Invalid placeholder in string"))).
  { unfold OptionalTemplate.substitute, well_formed.
    now rewrite retry_returned. }
  split; [exact H|]. intros rec. cbn [resolve_item]. rewrite H.
  destruct (well_formed tmpl); reflexivity.
Qed.

Lemma first_defect_missing ext ts name :
  first_defect ext ts = Some (Unknown name) ->
  missing ext ts = name :: missing (<[name := EmptyString]> ext) ts.
Proof.
  induction ts as [|t ts IH]; [discriminate|].
  destruct t as [c| |x|x|]; cbn [first_defect missing]; try exact IH;
    try discriminate.
  all: destruct (ext !! x) as [v|] eqn:Hx.
  all: try (intros E; pose proof (first_defect_unknown _ _ _ E) as [_ Hnone];
            assert (Hne : name <> x) by congruence;
            rewrite lookup_insert_ne, Hx by assumption; now apply IH).
  all: intros [= ->]; now rewrite lookup_insert_eq.
Qed.

Lemma first_defect_no_missing ext ts :
  first_defect ext ts = None -> missing ext ts = [].
Proof.
  induction ts as [|t ts IH]; [reflexivity|].
  destruct t as [c| |x|x|]; cbn [first_defect missing]; try exact IH;
    try discriminate.
  all: destruct (ext !! x); [exact IH | discriminate].
Qed.

Lemma retry_log ts mappings ext log :
  well_formed_tokens ts = true ->
  logged (OptionalTemplate.retry ts mappings ext log)
    = log ++ map replacing_message (missing ext ts)
  /\ ext_mappings_after (OptionalTemplate.retry ts mappings ext log)
     = fold_left (fun m name => <[name := EmptyString]> m) (missing ext ts) ext.
Proof.
  apply (OptionalTemplate.retry_elim
    (fun ts mappings ext log run =>
       well_formed_tokens ts = true ->
       logged run = log ++ map replacing_message (missing ext ts)
       /\ ext_mappings_after run
          = fold_left (fun m name => <[name := EmptyString]> m)
              (missing ext ts) ext));
    clear;
    try (intros ts mappings ext msg e log _ Hw; exfalso;
         rewrite substitute_tokens_first_defect in e;
         destruct (first_defect ext ts) as [[|x]|] eqn:E; try discriminate e;
         apply first_defect_malformed in E; congruence).
  - intros ts mappings ext s e log _ Hw. simpl.
    rewrite substitute_tokens_first_defect in e.
    destruct (first_defect ext ts) as [[|x]|] eqn:E; try discriminate e.
    rewrite (first_defect_no_missing _ _ E). simpl. now rewrite app_nil_r.
  - intros ts mappings ext name e log IH _ Hw.
    destruct (IH Hw) as [Hlog Hext].
    rewrite substitute_tokens_first_defect in e.
    destruct (first_defect ext ts) as [[|x]|] eqn:E; try discriminate e.
    injection e as ->. rewrite (first_defect_missing _ _ _ E).
    split.
    + rewrite Hlog. cbn [map]. now rewrite <- app_assoc.
    + rewrite Hext. reflexivity.
Qed.

Lemma missing_not_defined ts : forall (ext : gmap string string) name,
  name ∈ missing ext ts -> ext !! name = None /\ name ∈ variables ts.
Proof.
  induction ts as [|t ts IH]; intros ext name Hin; [inversion Hin|].
  destruct t as [c| |x|x|]; cbn [missing variables] in *;
    try (now apply IH).
  all: destruct (ext !! x) as [v|] eqn:Hx.
  all: try (destruct (IH _ _ Hin); split; [assumption | now right]).
  all: apply elem_of_cons in Hin as [->|Hin]; [split; [assumption | left]|].
  all: destruct (IH _ _ Hin) as [Hnone Hv]; split; [|now right].
  all: destruct (decide (x = name)) as [->|Hne];
    [rewrite lookup_insert_eq in Hnone; discriminate
    | now rewrite lookup_insert_ne in Hnone].
Qed.

Lemma missing_NoDup ts : forall (ext : gmap string string), NoDup (missing ext ts).
Proof.
  induction ts as [|t ts IH]; intros ext; [constructor|].
  destruct t as [c| |x|x|]; cbn [missing]; try apply IH.
  all: destruct (ext !! x) as [v|]; [apply IH|].
  all: apply NoDup_cons; split; [|apply IH].
  all: intros Hin; apply missing_not_defined in Hin as [Hnone _].
  all: rewrite lookup_insert_eq in Hnone; discriminate.
Qed.

(** X12: what [OptionalTemplate.substitute] logs and writes for a well
    formed template.  It logs one "Replacing undefined environment
    variable" message for each variable of the template that the mapping
    lacks, once per variable however often it occurs, in the order in which
    the variables first appear; its private copy ends as the mapping with
    these variables bound to the empty string; and the strict substitution
    under that copy succeeds with the returned string. *)
Theorem optional_template_log (tmpl : string) (mappings : gmap string string) :
  well_formed tmpl = true ->
  logged (OptionalTemplate.substitute tmpl mappings)
    = map replacing_message (missing mappings (tokens tmpl))
  /\ NoDup (missing mappings (tokens tmpl))
  /\ (forall name, name ∈ missing mappings (tokens tmpl) ->
        mappings !! name = None /\ name ∈ variables (tokens tmpl))
  /\ ext_mappings_after (OptionalTemplate.substitute tmpl mappings)
     = fold_left (fun m name => <[name := EmptyString]> m)
         (missing mappings (tokens tmpl)) mappings
  /\ (missing mappings (tokens tmpl) = [] <->
      all_defined mappings (tokens tmpl) = true).
Proof.
  intros Hw. unfold OptionalTemplate.substitute.
  destruct (retry_log (tokens tmpl) mappings mappings [] Hw) as [Hlog Hext].
  split; [exact Hlog|]. split; [apply missing_NoDup|].
  split; [apply missing_not_defined|]. split; [exact Hext|].
  split.
  - intros Hnil. destruct (all_defined mappings (tokens tmpl)) eqn:Hd;
      [reflexivity|].
    destruct (first_defect_well_formed _ _ Hw Hd) as [name E].
    rewrite (first_defect_missing _ _ _ E) in Hnil. discriminate.
  - intros Hd. apply first_defect_no_missing. now apply first_defect_None.
Qed.

Lemma optional_template_log_witness :
  logged (OptionalTemplate.substitute "$b/${a}/$b/$c" {[ "c" := "x" ]})
  = ["Replacing undefined environment variable b";
     "Replacing undefined environment variable a"]
  /\ ext_mappings_after
       (OptionalTemplate.substitute "$b/${a}/$b/$c" {[ "c" := "x" ]})
     = <["a" := ""]> (<["b" := ""]> {[ "c" := "x" ]}).
Proof.
  destruct (optional_template_log "$b/${a}/$b/$c" {[ "c" := "x" ]} eq_refl)
    as (Hlog & _ & _ & Hext & _).
  split; [exact Hlog | exact Hext].
Defined.

Lemma optional_template_agrees_with_strict_helper
  (tmpl : string) (mappings : gmap string string) :
  Template_substitute tmpl mappings = Ok tmpl ->
  returned (OptionalTemplate.substitute tmpl mappings) = Ok tmpl
  /\ logged (OptionalTemplate.substitute tmpl mappings) = [].
Proof.
  unfold Template_substitute. rewrite substitute_tokens_first_defect.
  destruct (first_defect mappings (tokens tmpl)) as [[|x]|] eqn:E;
    try discriminate.
  intros H. pose proof (proj1 (first_defect_None _ _) E) as [Hw _].
  unfold OptionalTemplate.substitute.
  rewrite retry_returned by reflexivity. rewrite Hw.
  destruct (retry_log (tokens tmpl) mappings mappings [] Hw) as [Hlog _].
  rewrite Hlog, (first_defect_no_missing _ _ E). auto.
Qed.

(** X13: where the strict substitution succeeds the optional one agrees
    with it: it returns the same string, logs nothing and ends with a copy
    equal to the mapping. *)
Theorem optional_template_agrees_with_strict
  (tmpl : string) (mappings : gmap string string) (s : string) :
  Template_substitute tmpl mappings = Ok s ->
  returned (OptionalTemplate.substitute tmpl mappings) = Ok s
  /\ logged (OptionalTemplate.substitute tmpl mappings) = []
  /\ ext_mappings_after (OptionalTemplate.substitute tmpl mappings) = mappings.
Proof.
  unfold Template_substitute. rewrite substitute_tokens_first_defect.
  destruct (first_defect mappings (tokens tmpl)) as [[|x]|] eqn:E;
    try discriminate.
  intros [= <-]. pose proof (proj1 (first_defect_None _ _) E) as [Hw _].
  unfold OptionalTemplate.substitute.
  rewrite retry_returned by reflexivity. rewrite Hw.
  destruct (retry_log (tokens tmpl) mappings mappings [] Hw) as [Hlog Hext].
  rewrite Hlog, Hext, (first_defect_no_missing _ _ E). auto.
Qed.

Lemma optional_template_agrees_with_strict_witness :
  returned (OptionalTemplate.substitute "${BASE}/suffix" {[ "BASE" := "/srv" ]})
  = Ok "/srv/suffix"
  /\ logged (OptionalTemplate.substitute "${BASE}/suffix" {[ "BASE" := "/srv" ]})
     = [].
Proof.
  assert (H : Template_substitute "${BASE}/suffix" {[ "BASE" := "/srv" ]}
              = Ok "/srv/suffix") by (vm_compute; reflexivity).
  destruct (optional_template_agrees_with_strict _ _ _ H) as (H1 & H2 & _).
  split; assumption.
Defined.

Lemma scan_plain s :
  mentions_delimiter s = false ->
  scan SText s = map TLit (list_ascii_of_string s).
Proof.
  induction s as [|c s IH]; [reflexivity|]. cbn [mentions_delimiter].
  intros H. apply orb_false_iff in H as [Hc Hs].
  cbn [scan]. rewrite Hc. cbn [list_ascii_of_string map]. now rewrite IH.
Qed.

Lemma fill_literals mapping cs :
  fill mapping (map TLit cs) = string_of_list_ascii cs.
Proof. induction cs as [|c cs IH]; [reflexivity|]. simpl. now rewrite IH. Qed.

(** X14: a template in which the delimiter [$] does not occur is
    substituted into itself under every mapping, by the strict and by the
    optional substitution alike, and nothing is logged. *)
Theorem template_without_delimiter
  (template : string) (mapping : gmap string string) :
  mentions_delimiter template = false ->
  Template_substitute template mapping = Ok template
  /\ returned (OptionalTemplate.substitute template mapping) = Ok template
  /\ logged (OptionalTemplate.substitute template mapping) = []
  /\ resolve_templates mapping (VList [VTemplate template; VOptionalTemplate template])
     = Ok (VList [VStr template; VStr template]).
Proof.
  intros H.
  assert (Hs : Template_substitute template mapping = Ok template).
  { unfold Template_substitute, tokens. rewrite (scan_plain _ H).
    rewrite substitute_tokens_first_defect.
    assert (Hd : forall cs, first_defect mapping (map TLit cs) = None).
    { induction cs; [reflexivity | assumption]. }
    rewrite Hd, fill_literals. now rewrite string_of_list_ascii_of_string. }
  destruct (optional_template_agrees_with_strict_helper template mapping Hs)
    as (H1 & H2).
  split; [exact Hs|]. split; [exact H1|]. split; [exact H2|].
  rewrite resolve_templates_list. cbn [resolve_list resolve_item].
  rewrite Hs, H1. reflexivity.
Qed.

Lemma template_without_delimiter_witness :
  Template_substitute "first.yaml" ∅ = Ok "first.yaml"
  /\ resolve_templates ∅
       (VList [VTemplate "first.yaml"; VOptionalTemplate "first.yaml"])
     = Ok (VList [VStr "first.yaml"; VStr "first.yaml"]).
Proof.
  destruct (template_without_delimiter "first.yaml" ∅ eq_refl)
    as (H1 & _ & _ & H4).
  split; assumption.
Defined.

Lemma substitute_tokens_frame (m1 m2 : gmap string string) ts :
  (forall name, name ∈ variables ts -> m1 !! name = m2 !! name) ->
  substitute_tokens m1 ts = substitute_tokens m2 ts.
Proof.
  induction ts as [|t ts IH]; intros H; [reflexivity|].
  destruct t as [c| |x|x|]; cbn [substitute_tokens convert variables] in *;
    try (rewrite IH by assumption; reflexivity); try reflexivity.
  all: rewrite (H x) by left; rewrite IH; [reflexivity|];
    intros name Hn; apply H; now right.
Qed.

(** X15: a substitution depends on the mapping only through the variables
    of the template: two mappings that agree on them give the same string
    or the same error, for a strict template as for an optional one. *)
Theorem substitution_uses_only_its_variables
  (template : string) (m1 m2 : gmap string string) :
  (forall name, name ∈ variables (tokens template) -> m1 !! name = m2 !! name) ->
  Template_substitute template m1 = Template_substitute template m2
  /\ returned (OptionalTemplate.substitute template m1)
     = returned (OptionalTemplate.substitute template m2).
Proof.
  intros H. split; [now apply substitute_tokens_frame|].
  unfold OptionalTemplate.substitute.
  rewrite !retry_returned by reflexivity.
  destruct (well_formed_tokens (tokens template)); [|reflexivity].
  f_equal. induction (tokens template) as [|t ts IH]; [reflexivity|].
  destruct t as [c| |x|x|]; cbn [fill variables] in *;
    try (rewrite IH by assumption; reflexivity).
  all: rewrite (H x) by left; rewrite IH; [reflexivity|];
    intros name Hn; apply H; now right.
Qed.

Lemma substitution_uses_only_its_variables_witness :
  Template_substitute "${BASE}/$X" {[ "BASE" := "/srv" ]}
  = Template_substitute "${BASE}/$X" (<[ "LG_OTHER" := "y" ]> {[ "BASE" := "/srv" ]}).
Proof.
  apply (substitution_uses_only_its_variables "${BASE}/$X").
  intros name Hn. rewrite lookup_insert_ne; [reflexivity|].
  intros <-. repeat (apply elem_of_cons in Hn as [Hn|Hn]; [discriminate|]).
  inversion Hn.
Defined.

Lemma list_ascii_of_string_app a b :
  list_ascii_of_string (a +:+ b)
  = list_ascii_of_string a ++ list_ascii_of_string b.
Proof. induction a as [|c a IH]; [reflexivity|]. simpl. now rewrite IH. Qed.

Lemma is_identifier_snoc acc c :
  is_identifier acc = true -> is_id_char c = true ->
  is_identifier (snoc acc c) = true.
Proof.
  destruct acc as [|c0 acc]; [discriminate|]. unfold snoc.
  change (String c0 acc +:+ String c EmptyString)
    with (String c0 (acc +:+ String c EmptyString)).
  unfold is_identifier. intros H Hc. apply andb_true_iff in H as [H0 H].
  apply andb_true_iff. split; [exact H0|].
  rewrite list_ascii_of_string_app, forallb_app, H. simpl. now rewrite Hc.
Qed.

Lemma is_identifier_start c :
  is_id_start c = true -> is_identifier (String c EmptyString) = true.
Proof. intros H. simpl. now rewrite H. Qed.

Lemma scan_identifiers s : forall st,
  match st with
  | SNamed acc | SBraced acc => is_identifier acc = true
  | _ => True
  end ->
  Forall (fun name => is_identifier name = true) (variables (scan st s)).
Proof.
  induction s as [|c s IH]; intros st Hst.
  - destruct st; simpl; repeat constructor. exact Hst.
  - destruct st as [ | |acc| |acc]; cbn [scan].
    + destruct (Ascii.eqb c delimiter); [now apply IH|].
      cbn [variables]. now apply IH.
    + destruct (Ascii.eqb c delimiter); [cbn [variables]; now apply IH|].
      destruct (is_id_start c) eqn:Hc; [apply IH; now apply is_identifier_start|].
      destruct (Ascii.eqb c "{"%char); [now apply IH|].
      repeat constructor.
    + destruct (is_id_char c) eqn:Hc; [apply IH; now apply is_identifier_snoc|].
      destruct (Ascii.eqb c delimiter); cbn [variables];
        (constructor; [exact Hst | now apply IH]).
    + destruct (is_id_start c) eqn:Hc; [apply IH; now apply is_identifier_start|].
      repeat constructor.
    + destruct (is_id_char c) eqn:Hc; [apply IH; now apply is_identifier_snoc|].
      destruct (Ascii.eqb c "}"%char); cbn [variables];
        [constructor; [exact Hst | now apply IH] | repeat constructor].
Qed.

(** X16: every variable name the scan of a template yields is an
    identifier (a letter or an underscore, then letters, digits and
    underscores), so the key of the [KeyError] that a substitution raises
    is one, and so is the name quoted by "Could not resolve key". *)
Theorem template_variables_are_identifiers
  (template : string) (mapping : gmap string string) :
  Forall (fun name => is_identifier name = true) (variables (tokens template))
  /\ forall name,
       Template_substitute template mapping = Raise (KeyError name) ->
       is_identifier name = true /\ mapping !! name = None.
Proof.
  assert (H : Forall (fun name => is_identifier name = true)
                (variables (tokens template))).
  { apply scan_identifiers. exact I. }
  split; [exact H|]. intros name. unfold Template_substitute.
  rewrite substitute_tokens_first_defect.
  destruct (first_defect mapping (tokens template)) as [[|x]|] eqn:E;
    try discriminate.
  intros [= ->]. apply first_defect_unknown in E as [Hin Hnone].
  split; [|assumption]. rewrite Forall_forall in H. now apply H.
Qed.

Lemma template_variables_are_identifiers_witness :
  Template_substitute "${LG_DOESNOTEXIST}second.yaml" {[ "LG_FIRST" := "a" ]}
  = Raise (KeyError "LG_DOESNOTEXIST")
  /\ is_identifier "LG_DOESNOTEXIST" = true
  /\ ({[ "LG_FIRST" := "a" ]} : gmap string string) !! "LG_DOESNOTEXIST" = None.
Proof.
  assert (H : Template_substitute "${LG_DOESNOTEXIST}second.yaml"
                {[ "LG_FIRST" := "a" ]}
              = Raise (KeyError "LG_DOESNOTEXIST")) by (vm_compute; reflexivity).
  split; [exact H|].
  exact (proj2 (template_variables_are_identifiers _ _) _ H).
Defined.

(** ** More on the constructors of the loader *)

Lemma take_while_app_all (f : ascii -> bool) l1 l2 :
  forallb f l1 = true -> take_while f (l1 ++ l2) = l1 ++ take_while f l2.
Proof.
  induction l1 as [|c l1 IH]; [reflexivity|]. simpl. intros H.
  apply andb_true_iff in H as [Hc H]. now rewrite Hc, IH.
Qed.

Lemma take_while_app_stop (f : ascii -> bool) l1 c l2 :
  forallb f l1 = true -> f c = false -> take_while f (l1 ++ c :: l2) = l1.
Proof.
  intros H Hc. rewrite take_while_app_all by assumption. simpl.
  now rewrite Hc, app_nil_r.
Qed.

Lemma forallb_rev {A} (f : A -> bool) l : forallb f (rev l) = forallb f l.
Proof.
  induction l as [|x l IH]; [reflexivity|]. simpl.
  rewrite forallb_app, IH. simpl. rewrite andb_true_r. apply andb_comm.
Qed.

Lemma lstrip_dots_plain e : plain_extension e = true -> lstrip_dots e = e.
Proof.
  destruct e as [|c e]; [reflexivity|]. unfold plain_extension. simpl.
  intros H. apply andb_true_iff in H as [H _].
  apply andb_true_iff in H as [H _]. apply negb_true_iff in H. now rewrite H.
Qed.

Lemma splitext_extension p e :
  plain_extension e = true -> has_stem p = true ->
  os_path_splitext (p +:+ ("." +:+ e)) = (p, "." +:+ e).
Proof.
  unfold plain_extension, has_stem, os_path_splitext. intros He Hp.
  rewrite !list_ascii_of_string_app. cbn [list_ascii_of_string app].
  rewrite rev_app_distr. cbn [rev]. rewrite <- app_assoc. cbn [app].
  set (le := list_ascii_of_string e) in *.
  set (lp := list_ascii_of_string p) in *.
  assert (Hsep : forallb (fun c => negb (is_sep c)) (rev le) = true).
  { rewrite forallb_rev. apply forallb_forall. intros c Hc.
    rewrite forallb_forall in He. specialize (He c Hc).
    now apply andb_true_iff in He as [_ He]. }
  assert (Hdot : forallb (fun c => negb (is_dot c)) (rev le) = true).
  { rewrite forallb_rev. apply forallb_forall. intros c Hc.
    rewrite forallb_forall in He. specialize (He c Hc).
    now apply andb_true_iff in He as [He _]. }
  rewrite (take_while_app_all _ (rev le) ("."%char :: rev lp)) by assumption.
  change (take_while (fun c => negb (is_sep c)) ("."%char :: rev lp))
    with ("."%char :: take_while (fun c => negb (is_sep c)) (rev lp)).
  rewrite (take_while_app_stop _ (rev le) "."%char) by (assumption || reflexivity).
  rewrite drop_app_length. rewrite Hp.
  assert (Hdrop : forall (l1 l2 : list ascii) c,
            drop (S (length l1)) (l1 ++ c :: l2) = l2).
  { induction l1 as [|x l1 IH]; intros l2 c; [reflexivity | apply IH]. }
  rewrite Hdrop, !rev_involutive. unfold lp, le.
  rewrite string_of_list_ascii_of_string.
  change (string_of_list_ascii ("."%char :: list_ascii_of_string e))
    with (String "."%char (string_of_list_ascii (list_ascii_of_string e))).
  now rewrite string_of_list_ascii_of_string.
Qed.

(** X17: the loader of an included file is chosen by what follows the last
    dot of its name.  For a file name [stem.ext] whose extension holds
    neither a dot nor a separator and whose last component has a character
    other than a dot before it, the constructor hands the text to the YAML
    loader exactly when [ext] is [yaml] or [yml], to the JSON decoder
    exactly when it is [json], and returns the text itself as one string
    for any other extension, the empty one and [YAML] in capitals
    included. *)
Theorem include_loader_by_extension
  (abspath : string -> string) (read_file : string -> option string)
  (yaml_load : string -> string -> gmap string string -> result value)
  (json_load : string -> result value)
  (loader : Loader) (node stem ext text : string) :
  include_filename abspath loader node = Ok (stem +:+ ("." +:+ ext)) ->
  plain_extension ext = true -> has_stem stem = true ->
  read_file (stem +:+ ("." +:+ ext)) = Some text ->
  _construct_include abspath read_file yaml_load json_load loader node
  = if String.eqb ext "yaml" || String.eqb ext "yml"
    then yaml_load (stem +:+ ("." +:+ ext)) text (substitutions loader)
    else if String.eqb ext "json" then json_load text
    else Ok (VStr text).
Proof.
  intros Hname Hext Hstem Hread. unfold _construct_include.
  rewrite Hname. cbn [bind]. rewrite Hread.
  rewrite (splitext_extension _ _ Hext Hstem). cbn [snd].
  change (lstrip_dots ("." +:+ ext)) with (lstrip_dots ext).
  now rewrite (lstrip_dots_plain _ Hext).
Qed.

Lemma include_loader_by_extension_witness :
  _construct_include (fun p => p)
    (fun name => if String.eqb name "/etc/lab/first.YAML"
                 then Some "a: 1" else None)
    (fun _ _ _ => Ok (VDict OrderedDict [("a", VInt 1)])) (fun _ => Ok VNone)
    {| substitutions := ∅; _root := "/etc/lab" |} "first.YAML"
  = Ok (VStr "a: 1").
Proof.
  apply (include_loader_by_extension (fun p => p)
           (fun name => if String.eqb name "/etc/lab/first.YAML"
                        then Some "a: 1" else None)
           (fun _ _ _ => Ok (VDict OrderedDict [("a", VInt 1)])) (fun _ => Ok VNone)
           {| substitutions := ∅; _root := "/etc/lab" |}
           "first.YAML" "/etc/lab/first" "YAML" "a: 1"); reflexivity.
Defined.

(** X18: a block style scalar cannot be overridden.  [_str_constructor]
    builds a [UserString] for a scalar of style [|] and a plain [str] for
    every other style; as the base of [data_merge] the first raises the
    "Datatype not supported" error under every override, where the second
    is replaced by the override. *)
Theorem block_scalar_base_unsupported
  (style : option ascii) (text : string) (override : value) :
  data_merge (_str_constructor style text) override
  = if bool_decide (style = Some "|"%char)
    then Raise (InvalidConfigError
                  (unsupported_msg (VUserString text) override))
    else Ok override.
Proof.
  unfold _str_constructor.
  destruct style as [c|]; [|destruct override; reflexivity].
  destruct (decide (c = "|"%char)) as [->|Hne].
  - rewrite bool_decide_true by reflexivity. destruct override; reflexivity.
  - rewrite bool_decide_false by congruence.
    assert (H : match c with "|"%char => VUserString text | _ => VStr text end
                = VStr text).
    { destruct c as [[] [] [] [] [] [] [] []]; try reflexivity. congruence. }
    rewrite H. destruct override; reflexivity.
Qed.

Lemma split_directory dir file :
  ends_in_component dir = true -> is_component file = true ->
  os_path_split (dir +:+ ("/" +:+ file)) = (dir, file).
Proof.
  unfold ends_in_component, is_component, os_path_split. intros Hdir Hfile.
  rewrite !list_ascii_of_string_app. cbn [list_ascii_of_string app].
  rewrite rev_app_distr. cbn [rev]. rewrite <- app_assoc. cbn [app].
  set (lf := list_ascii_of_string file) in *.
  set (ld := list_ascii_of_string dir) in *.
  assert (Hsep : forallb (fun c => negb (is_sep c)) (rev lf) = true)
    by now rewrite forallb_rev.
  rewrite (take_while_app_stop _ (rev lf) "/"%char) by (assumption || reflexivity).
  rewrite drop_app_length.
  destruct (rev ld) as [|c rd] eqn:Hrd; [discriminate|].
  cbn [forallb]. change (is_sep "/"%char) with true. cbn [andb].
  apply negb_true_iff in Hdir. rewrite Hdir. cbn [andb drop_while].
  change (is_sep "/"%char) with true. cbn iota. rewrite Hdir.
  rewrite <- Hrd, !rev_involutive. unfold ld, lf.
  now rewrite !string_of_list_ascii_of_string.
Qed.

Lemma split_bare_name name :
  is_component name = true -> os_path_split name = (EmptyString, name).
Proof.
  unfold is_component, os_path_split. intros H.
  set (ln := list_ascii_of_string name) in *.
  assert (Htw : take_while (fun c => negb (is_sep c)) (rev ln) = rev ln).
  { rewrite <- (app_nil_r (rev ln)) at 1.
    rewrite take_while_app_all by now rewrite forallb_rev.
    simpl. now rewrite app_nil_r. }
  rewrite Htw, drop_all. cbn [forallb rev]. rewrite rev_involutive. unfold ln.
  now rewrite string_of_list_ascii_of_string.
Qed.

Lemma join_relative dir path :
  ends_in_component dir = true -> is_relative path = true ->
  os_path_join dir path = dir +:+ "/" +:+ path.
Proof.
  unfold ends_in_component, is_relative, os_path_join. intros Hdir Hpath.
  destruct (rev (list_ascii_of_string dir)) as [|c rd]; [discriminate|].
  assert (Hc : c <> "/"%char).
  { intros ->. discriminate. }
  destruct path as [|p path].
  - destruct c as [[] [] [] [] [] [] [] []]; try reflexivity. congruence.
  - assert (Hp : p <> "/"%char) by (intros ->; discriminate).
    destruct p as [[] [] [] [] [] [] [] []]; try congruence;
      destruct c as [[] [] [] [] [] [] [] []]; try reflexivity; congruence.
Qed.

(** X19: the directory of a document is where its includes are looked up.
    A loader created for the stream named [dir/file] has [dir] as its
    root, and a relative include path without variables then names
    [dir/path]; for a stream with a bare file name the root is empty and the
    path is used as it is written; for a stream without a name the root is
    the current directory [.]. *)
Theorem includes_relative_to_document
  (abspath : string -> string) (substitutions : gmap string string)
  (dir file path : string) :
  is_component file = true -> is_relative path = true ->
  mentions_delimiter path = false ->
  (ends_in_component dir = true ->
     _root (Loader_init (Some (dir +:+ ("/" +:+ file))) substitutions) = dir
     /\ include_filename abspath
          (Loader_init (Some (dir +:+ ("/" +:+ file))) substitutions) path
        = Ok (abspath (dir +:+ "/" +:+ path)))
  /\ include_filename abspath (Loader_init (Some file) substitutions) path
     = Ok (abspath path)
  /\ include_filename abspath (Loader_init None substitutions) path
     = Ok (abspath ("./" +:+ path)).
Proof.
  intros Hfile Hrel Hplain.
  assert (Hfill : forall loader,
            include_filename abspath loader path
            = Ok (abspath (os_path_join (_root loader) path))).
  { intros loader. rewrite include_filename_first_defect. unfold tokens.
    rewrite (scan_plain _ Hplain).
    assert (Hd : forall m cs, first_defect m (map TLit cs) = None).
    { induction cs; [reflexivity | assumption]. }
    rewrite Hd, fill_literals. now rewrite string_of_list_ascii_of_string. }
  split; [|split].
  - intros Hdir. unfold Loader_init at 1. cbn [_root].
    rewrite (split_directory _ _ Hdir Hfile). split; [reflexivity|].
    rewrite Hfill. unfold Loader_init. cbn [_root].
    rewrite (split_directory _ _ Hdir Hfile). cbn [fst].
    now rewrite (join_relative _ _ Hdir Hrel).
  - rewrite Hfill. unfold Loader_init. cbn [_root].
    rewrite (split_bare_name _ Hfile). cbn [fst].
    unfold os_path_join. destruct path as [|p path]; [reflexivity|].
    destruct p as [[] [] [] [] [] [] [] []]; reflexivity.
  - rewrite Hfill. unfold Loader_init. cbn [_root].
    rewrite (join_relative "." path eq_refl Hrel). reflexivity.
Qed.

Lemma includes_relative_to_document_witness :
  _root (Loader_init (Some "/tmp/configs/config.yaml") ∅) = "/tmp/configs"
  /\ include_filename (fun p => p)
       (Loader_init (Some "/tmp/configs/config.yaml") ∅) "first.yaml"
     = Ok "/tmp/configs/first.yaml"
  /\ include_filename (fun p => p) (Loader_init None ∅) "first.yaml"
     = Ok "./first.yaml".
Proof.
  destruct (includes_relative_to_document (fun p => p) ∅
              "/tmp/configs" "config.yaml" "first.yaml" eq_refl eq_refl eq_refl)
    as (H1 & _ & H3).
  destruct (H1 eq_refl) as [Hroot Hinc].
  split; [exact Hroot|]. split; [exact Hinc | exact H3].
Defined.

Example split_examples :
  os_path_split "/a/b/c" = ("/a/b", "c")
  /\ os_path_split "/c" = ("/", "c")
  /\ os_path_split "a//b" = ("a", "b")
  /\ os_path_split "//c" = ("//", "c")
  /\ os_path_split "a/" = ("a", "")
  /\ os_path_split "" = ("", "")
  /\ os_path_split "c" = ("", "c").
Proof. repeat split; reflexivity. Qed.

(** ** The pytest hooks *)

Lemma want_feature_from_spec markers : forall want,
  match want_feature_from want markers with
  | inr W =>
      has_other markers = false
      /\ forall f, f ∈ W <-> f ∈ want \/ names_feature markers f
  | inl e =>
      has_other markers = true /\ e = Exception "Unsupported feature argument type"
  end.
Proof.
  induction markers as [|[s|l|] markers IH]; intros want; cbn [want_feature_from].
  - split; [reflexivity|]. intros f. split; [auto|].
    intros [H|[H|(l & H & _)]]; [assumption | inversion H | inversion H].
  - specialize (IH (want ∪ {[ s ]})).
    destruct (want_feature_from (want ∪ {[ s ]}) markers) as [e|W].
    + destruct IH as [H ->]. split; [exact H | reflexivity].
    + destruct IH as [H HW]. split; [exact H|]. intros f. rewrite HW.
      rewrite elem_of_union, elem_of_singleton. unfold names_feature.
      split.
      * intros [[H1| ->]|[H1|(l & H1 & H2)]]; auto.
        -- right. left. left.
        -- right. left. now right.
        -- right. right. exists l. split; [now right | assumption].
      * intros [H1|[H1|(l & H1 & H2)]]; auto.
        -- apply elem_of_cons in H1 as [[= ->]|H1]; auto.
        -- apply elem_of_cons in H1 as [H1|H1]; [discriminate|].
           right. right. eauto.
  - specialize (IH (want ∪ list_to_set l)).
    destruct (want_feature_from (want ∪ list_to_set l) markers) as [e|W].
    + destruct IH as [H ->]. split; [exact H | reflexivity].
    + destruct IH as [H HW]. split; [exact H|]. intros f. rewrite HW.
      rewrite elem_of_union, elem_of_list_to_set. unfold names_feature.
      split.
      * intros [[H1|H1]|[H1|(l' & H1 & H2)]]; auto.
        -- right. right. exists l. split; [left | assumption].
        -- right. left. now right.
        -- right. right. exists l'. split; [now right | assumption].
      * intros [H1|[H1|(l' & H1 & H2)]]; auto.
        -- apply elem_of_cons in H1 as [H1|H1]; [discriminate|]. auto.
        -- apply elem_of_cons in H1 as [[= ->]|H1]; auto.
           right. right. eauto.
  - split; reflexivity.
Qed.

Lemma mark_item_spec have markers :
  match mark_item have markers with
  | inr None =>
      has_other markers = false
      /\ forall f, names_feature markers f -> f ∈ have
  | inr (Some m) =>
      has_other markers = false
      /\ (exists f, names_feature markers f /\ f ∉ have)
      /\ (forall f, f ∈ missing_of m <-> names_feature markers f /\ f ∉ have)
      /\ (size (missing_of m) = 1 <-> exists missing, m = SkipFeature missing)
  | inl e =>
      has_other markers = true /\ e = Exception "Unsupported feature argument type"
  end.
Proof.
  unfold mark_item. pose proof (want_feature_from_spec markers ∅) as H.
  destruct (want_feature_from ∅ markers) as [e|W]; [exact H|].
  destruct H as [Hother HW].
  assert (Hmiss : forall f, f ∈ W ∖ have <-> names_feature markers f /\ f ∉ have).
  { intros f. rewrite elem_of_difference, HW. split.
    - intros [[H|H] Hn]; [inversion H | auto].
    - intros [H Hn]. auto. }
  destruct (decide (W ∖ have = ∅)) as [Hempty|Hne].
  - split; [exact Hother|]. intros f Hf.
    destruct (decide (f ∈ have)) as [Hin|Hin]; [assumption|].
    assert (Hf' : f ∈ W ∖ have) by (apply Hmiss; auto).
    rewrite Hempty in Hf'. inversion Hf'.
  - assert (Hex : exists f, names_feature markers f /\ f ∉ have).
    { apply set_choose_L in Hne as [f Hf]. exists f. now apply Hmiss. }
    destruct (decide (size (W ∖ have) = 1)) as [H1|H1]; cbn [missing_of];
      (split; [exact Hother|]; split; [exact Hex|]; split; [exact Hmiss|]).
    + split; [eauto | auto].
    + split; [contradiction | intros [? [=]]].
Qed.

Lemma mark_items_length have items :
  forall marks e, mark_items have items = (marks, e) ->
  match e with
  | None => length marks = length items
  | Some _ => length marks < length items
  end.
Proof.
  induction items as [|item items IH]; intros marks e H.
  - injection H as <- <-. reflexivity.
  - cbn [mark_items] in H. destruct (mark_item have item) as [e'|added].
    + injection H as <- <-. simpl. lia.
    + destruct (mark_items have items) as [marks' e'] eqn:Hrest.
      injection H as <- <-. specialize (IH _ _ eq_refl).
      destruct e'; simpl; lia.
Qed.

Lemma mark_items_lookup have items :
  forall marks e i added,
    mark_items have items = (marks, e) -> marks !! i = Some added ->
    exists item, items !! i = Some item /\ mark_item have item = inr added.
Proof.
  induction items as [|item items IH]; intros marks e i added H Hi.
  - injection H as <- <-. now rewrite lookup_nil in Hi.
  - cbn [mark_items] in H. destruct (mark_item have item) as [e'|added'] eqn:Hitem.
    + injection H as <- <-. now rewrite lookup_nil in Hi.
    + destruct (mark_items have items) as [marks' e'] eqn:Hrest.
      injection H as <- <-. destruct i as [|i]; simpl in Hi.
      * injection Hi as ->. exists item. split; [reflexivity | assumption].
      * exact (IH _ _ _ _ eq_refl Hi).
Qed.

Lemma mark_items_visited have items :
  forall marks e, mark_items have items = (marks, e) ->
  Forall2 (fun item added => mark_item have item = inr added)
    (take (length marks) items) marks.
Proof.
  induction items as [|item items IH]; intros marks e H.
  - injection H as <- <-. constructor.
  - cbn [mark_items] in H. destruct (mark_item have item) as [e'|added] eqn:Hitem.
    + injection H as <- <-. constructor.
    + destruct (mark_items have items) as [marks' e'] eqn:Hrest.
      injection H as <- <-. cbn [length take].
      constructor; [assumption | exact (IH _ _ eq_refl)].
Qed.

Lemma mark_item_decision have item added :
  mark_item have item = inr added ->
  skip_decision have item added /\ (item = [] -> added = None).
Proof.
  intros Hmark. pose proof (mark_item_spec have item) as Hspec.
  rewrite Hmark in Hspec. split.
  - destruct added as [m|]; [destruct Hspec as (_ & H1 & H2 & H3)|];
      cbn [skip_decision]; [auto | now destruct Hspec].
  - intros ->. destruct added as [m|]; [|reflexivity].
    destruct Hspec as (_ & (f & [Hf|(l & Hf & _)] & _) & _); inversion Hf.
Qed.

(** X20: which tests [pytest_collection_modifyitems] skips.  When an
    environment is configured and no exception is raised, every item is
    visited and decided, the items and what was added to them matching one
    by one: an item gets a skip marker exactly when one of the features its
    [lg_feature] markers name (as a string or inside a list) is not a
    feature of the environment; the marker reports exactly the named
    features that the environment lacks, with the singular text exactly
    when there is one; an item without [lg_feature] markers is never
    skipped.  When an exception is raised, what was added covers a proper
    prefix of the items, the items visited before the exception, and the
    same holds of them one by one. *)
Theorem features_decide_skipping
  (have_feature : gset string) (items : list (list marker_arg))
  (marks : list (option skip_marker)) (e : option raised) :
  pytest_collection_modifyitems (Some have_feature) items = (marks, e) ->
  (e = None ->
     Forall2 (fun item added =>
                skip_decision have_feature item added
                /\ (item = [] -> added = None)) items marks)
  /\ match e with
     | None => length marks = length items
     | Some _ => length marks < length items
     end
  /\ Forall2 (fun item added =>
                skip_decision have_feature item added
                /\ (item = [] -> added = None))
       (take (length marks) items) marks.
Proof.
  intros H. cbn [pytest_collection_modifyitems] in H.
  pose proof (mark_items_length _ _ _ _ H) as Hlen.
  assert (Hvisited :
    Forall2 (fun item added =>
               skip_decision have_feature item added
               /\ (item = [] -> added = None))
      (take (length marks) items) marks).
  { eapply Forall2_impl; [exact (mark_items_visited _ _ _ _ H)|].
    intros item added. apply mark_item_decision. }
  split; [|split; [exact Hlen | exact Hvisited]].
  intros ->. rewrite Hlen, firstn_all in Hvisited. exact Hvisited.
Qed.

Lemma features_decide_skipping_witness :
  pytest_collection_modifyitems (Some {[ "camera" ]})
    [[ArgStr "camera"]; [ArgList ["camera"; "hdmi"]]; []]
  = ([None; Some (SkipFeature {[ "hdmi" ]}); None], None)
  /\ Forall2 (fun item added =>
                skip_decision {[ "camera" ]} item added
                /\ (item = [] -> added = None))
       [[ArgStr "camera"]; [ArgList ["camera"; "hdmi"]]; []]
       [None; Some (SkipFeature {[ "hdmi" ]}); None].
Proof.
  assert (H : pytest_collection_modifyitems (Some {[ "camera" ]})
                [[ArgStr "camera"]; [ArgList ["camera"; "hdmi"]]; []]
              = ([None; Some (SkipFeature {[ "hdmi" ]}); None], None))
    by (vm_compute; reflexivity).
  split; [exact H|].
  exact (proj1 (features_decide_skipping _ _ _ _ H) eq_refl).
Defined.

Lemma mark_items_at have items :
  forall marks i item,
    mark_items have items = (marks, None) -> items !! i = Some item ->
    exists added, marks !! i = Some added /\ mark_item have item = inr added.
Proof.
  induction items as [|it items IH]; intros marks i item H Hi.
  - now rewrite lookup_nil in Hi.
  - cbn [mark_items] in H. destruct (mark_item have it) as [e'|added'] eqn:Hitem;
      [discriminate|].
    destruct (mark_items have items) as [marks' e'] eqn:Hrest.
    injection H as <- ->. destruct i as [|i]; simpl in Hi.
    + injection Hi as ->. exists added'. split; [reflexivity | assumption].
    + exact (IH _ _ _ eq_refl Hi).
Qed.

Lemma mark_items_raises_same have have' items :
  snd (mark_items have items) = snd (mark_items have' items).
Proof.
  induction items as [|item items IH]; [reflexivity|]. cbn [mark_items].
  pose proof (mark_item_spec have item) as H1.
  pose proof (mark_item_spec have' item) as H2.
  destruct (mark_item have item) as [e1|a1], (mark_item have' item) as [e2|a2].
  - destruct H1 as [_ ->], H2 as [_ ->]. reflexivity.
  - destruct H1 as [H1 _]. destruct a2 as [m|]; destruct H2 as [H2 _]; congruence.
  - destruct H2 as [H2 _]. destruct a1 as [m|]; destruct H1 as [H1 _]; congruence.
  - destruct (mark_items have items), (mark_items have' items). exact IH.
Qed.

(** X21: more features never skip more tests.  If every feature of one
    environment is a feature of another, then every item skipped under the
    larger environment is skipped under the smaller one; and whether the
    hook raises does not depend on the features at all. *)
Theorem more_features_skip_less
  (have have' : gset string) (items : list (list marker_arg))
  (marks : list (option skip_marker)) :
  have ⊆ have' ->
  pytest_collection_modifyitems (Some have) items = (marks, None) ->
  exists marks',
    pytest_collection_modifyitems (Some have') items = (marks', None)
    /\ forall i m', marks' !! i = Some (Some m') ->
         exists m, marks !! i = Some (Some m) /\ missing_of m' ⊆ missing_of m.
Proof.
  intros Hsub H. cbn [pytest_collection_modifyitems] in *.
  assert (H' : mark_items have' items = (fst (mark_items have' items), None)).
  { pose proof (mark_items_raises_same have have' items) as Hsame.
    rewrite H in Hsame. destruct (mark_items have' items) as [ms e].
    simpl in *. now subst e. }
  exists (fst (mark_items have' items)).
  split; [exact H'|]. intros i m' Hi.
  destruct (mark_items_lookup _ _ _ _ _ _ H' Hi) as (item & Hitem & Hmark').
  destruct (mark_items_at _ _ _ _ _ H Hitem) as (added & Hadded & Hmark).
  pose proof (mark_item_spec have item) as Hs. rewrite Hmark in Hs.
  pose proof (mark_item_spec have' item) as Hs'. rewrite Hmark' in Hs'.
  destruct Hs' as (_ & (f & Hf & Hnot) & Hmiss' & _).
  destruct added as [m|].
  - exists m. split; [exact Hadded|]. destruct Hs as (_ & _ & Hmiss & _).
    intros g Hg. apply Hmiss. apply Hmiss' in Hg as [Hg Hgn].
    split; [assumption|]. intros Hin. apply Hgn. now apply Hsub.
  - destruct Hs as [_ Hall]. exfalso. apply Hnot. apply Hsub. now apply Hall.
Qed.

Lemma more_features_skip_less_witness :
  exists marks',
    pytest_collection_modifyitems (Some {[ "camera"; "hdmi" ]})
      [[ArgStr "camera"]; [ArgList ["hdmi"; "usb"]]] = (marks', None)
    /\ forall i m', marks' !! i = Some (Some m') ->
         exists m,
           [Some (SkipFeature {[ "camera" ]});
            Some (SkipFeatures ({[ "hdmi" ]} ∪ {[ "usb" ]}))] !! i
           = Some (Some m)
           /\ missing_of m' ⊆ missing_of m.
Proof.
  apply (more_features_skip_less ∅ {[ "camera"; "hdmi" ]}
           [[ArgStr "camera"]; [ArgList ["hdmi"; "usb"]]]).
  - apply empty_subseteq.
  - vm_compute. reflexivity.
Defined.

Lemma mark_items_app have pre : forall rest,
  Forall (fun item => has_other item = false) pre ->
  exists marks,
    length marks = length pre
    /\ mark_items have (pre ++ rest)
       = (marks ++ fst (mark_items have rest), snd (mark_items have rest)).
Proof.
  induction pre as [|item pre IH]; intros rest Hpre.
  - exists []. split; [reflexivity|]. simpl. now destruct (mark_items have rest).
  - apply Forall_cons in Hpre as [Hitem Hpre].
    destruct (IH rest Hpre) as (marks & Hlen & Heq).
    pose proof (mark_item_spec have item) as Hs.
    cbn [app mark_items]. destruct (mark_item have item) as [e|added].
    + destruct Hs as [Hs _]. congruence.
    + rewrite Heq. exists (added :: marks). split; [simpl; now rewrite Hlen|].
      reflexivity.
Qed.

(** X22: a marker argument that is neither a string nor a list stops the
    hook.  With an environment configured, the hook raises "Unsupported
    feature argument type" exactly when some item has such a marker; the
    items before the first such item have been visited (and keep the skip
    markers they were given), that item and the items after it get none. *)
Theorem unsupported_argument_stops_collection
  (have_feature : gset string) (items : list (list marker_arg)) :
  (snd (pytest_collection_modifyitems (Some have_feature) items) = None
   <-> Forall (fun item => has_other item = false) items)
  /\ forall pre bad post,
       items = pre ++ bad :: post ->
       Forall (fun item => has_other item = false) pre ->
       has_other bad = true ->
       exists marks,
         pytest_collection_modifyitems (Some have_feature) items
         = (marks, Some (Exception "Unsupported feature argument type"))
         /\ length marks = length pre.
Proof.
  cbn [pytest_collection_modifyitems]. split.
  - induction items as [|item items IH]; [split; [constructor | reflexivity]|].
    cbn [mark_items]. pose proof (mark_item_spec have_feature item) as Hs.
    destruct (mark_item have_feature item) as [e|added].
    + destruct Hs as [Hs _]. split; [discriminate|].
      intros H. apply Forall_cons in H as [H _]. congruence.
    + assert (Hitem : has_other item = false).
      { destruct added; now destruct Hs. }
      destruct (mark_items have_feature items) as [marks e]. simpl in *.
      rewrite IH. split; [now constructor | intros H; now apply Forall_cons in H].
  - intros pre bad post -> Hpre Hbad.
    destruct (mark_items_app have_feature pre (bad :: post) Hpre)
      as (marks & Hlen & Heq).
    exists marks. rewrite Heq. cbn [mark_items].
    pose proof (mark_item_spec have_feature bad) as Hs.
    destruct (mark_item have_feature bad) as [e|added].
    + destruct Hs as [_ ->]. simpl. rewrite app_nil_r. auto.
    + destruct added; destruct Hs as [Hs _]; congruence.
Qed.

Lemma unsupported_argument_stops_collection_witness :
  exists marks,
    pytest_collection_modifyitems (Some ∅)
      [[ArgStr "camera"]; [ArgStr "usb"; ArgOther]; [ArgStr "hdmi"]]
    = (marks, Some (Exception "Unsupported feature argument type"))
    /\ length marks = 1%nat.
Proof.
  apply (proj2 (unsupported_argument_stops_collection ∅
                  [[ArgStr "camera"]; [ArgStr "usb"; ArgOther]; [ArgStr "hdmi"]])
           [[ArgStr "camera"]] [ArgStr "usb"; ArgOther] [[ArgStr "hdmi"]]).
  - reflexivity.
  - repeat constructor.
  - reflexivity.
Defined.

(** X23: which environment file [pytest_configure] uses.  The option
    [--lg-env] wins over the deprecated [--env-config], which wins over the
    variable [LG_ENV]; the deprecation warning is issued exactly when
    [--env-config] is the one used; no environment is created exactly when
    all three are absent, and then [pytest_collection_modifyitems] marks no
    item and raises nothing, whatever the markers are. *)
Theorem environment_file_precedence
  (lg_env env_config LG_ENV : option string) :
  fst (configure_lg_env lg_env env_config LG_ENV)
  = match lg_env, env_config with
    | Some f, _ => Some f
    | None, Some f => Some f
    | None, None => LG_ENV
    end
  /\ (snd (configure_lg_env lg_env env_config LG_ENV) <> []
      <-> lg_env = None /\ env_config <> None)
  /\ (fst (configure_lg_env lg_env env_config LG_ENV) = None
      <-> lg_env = None /\ env_config = None /\ LG_ENV = None)
  /\ forall (features_of : string -> gset string) items,
       fst (configure_lg_env lg_env env_config LG_ENV) = None ->
       pytest_collection_modifyitems
         (features_of <$> fst (configure_lg_env lg_env env_config LG_ENV)) items
       = (map (fun _ => None) items, None).
Proof.
  destruct lg_env as [a|], env_config as [b|], LG_ENV as [c|]; simpl;
    repeat split; try congruence; try tauto;
    try (intros [? ?]; congruence); try (intros (? & ? & ?); congruence);
    try discriminate.
Qed.

Lemma set_cli_log_level_spec name_to_level config level :
  let r := set_cli_log_level name_to_level config level in
  verbose (fst r) = verbose config
  /\ registered (fst r) = registered config
  /\ ini_log_cli_level (fst r) = ini_log_cli_level config
  /\ (registered config = false -> r = (config, []))
  /\ (registered config = true ->
      match configured_level name_to_level config with
      | Some current =>
          if (level <? current)%Z
          then option_log_cli_level (fst r) = Some (pretty level)
          else fst r = config
      | None => option_log_cli_level (fst r) = Some (pretty level)
      end).
Proof.
  unfold set_cli_log_level, configured_level.
  destruct (registered config) eqn:Hreg; cbn zeta.
  2: { repeat split; auto. discriminate. }
  destruct (match (if truthy (option_log_cli_level config)
                   then option_log_cli_level config
                   else ini_log_cli_level config) with
            | Some name => level_of name_to_level name
            | None => None
            end) as [current|]; [destruct (level <? current)%Z|];
    simpl; repeat split; auto; discriminate.
Qed.

(** X24: what [pytest_cmdline_main] does to the level of the command line
    log.  It leaves the configuration alone when the verbosity is at most 1
    ([-v]) or when the option is not registered, and it never touches the
    verbosity or the ini value.  Otherwise, with [level] the level of the
    verbosity (INFO for [-vv], CONSOLE for [-vvv], DEBUG from [-vvvv] on):
    a configured level (the option, else the ini value) that is the name of
    a registered level is replaced by [level] when [level] is below it and
    kept when it is not, so it is never raised; a configured level that is
    not the name of a registered level (none at all, an unknown name, or a
    level written as a number, which [getLevelName] does not read) is
    overwritten with [level] whatever was meant by it, so the log can
    become less verbose than configured. *)
Theorem cmdline_level_update
  (CONSOLE : Z) (name_to_level : string -> option Z) (config : cli_config) :
  let config' := fst (pytest_cmdline_main CONSOLE name_to_level config) in
  verbose config' = verbose config
  /\ ini_log_cli_level config' = ini_log_cli_level config
  /\ ((verbose config <= 1)%Z \/ registered config = false -> config' = config)
  /\ (forall level,
        requested_level CONSOLE (verbose config) = Some level ->
        registered config = true ->
        match configured_level name_to_level config with
        | Some current =>
            if (level <? current)%Z
            then option_log_cli_level config' = Some (pretty level)
            else config' = config
        | None => option_log_cli_level config' = Some (pretty level)
        end)
  /\ (forall current,
        configured_level name_to_level config = Some current ->
        config' = config
        \/ exists level, option_log_cli_level config' = Some (pretty level)
                         /\ (level < current)%Z)
  /\ (forall level name,
        requested_level CONSOLE (verbose config) = Some level ->
        registered config = true ->
        option_log_cli_level config = Some name -> name <> EmptyString ->
        name_to_level name = None ->
        option_log_cli_level config' = Some (pretty level)).
Proof.
  intros config'. subst config'.
  assert (Hlast : forall level name,
    requested_level CONSOLE (verbose config) = Some level ->
    registered config = true ->
    (match configured_level name_to_level config with
     | Some current =>
         if (level <? current)%Z
         then option_log_cli_level
                (fst (pytest_cmdline_main CONSOLE name_to_level config))
              = Some (pretty level)
         else fst (pytest_cmdline_main CONSOLE name_to_level config) = config
     | None => option_log_cli_level
                 (fst (pytest_cmdline_main CONSOLE name_to_level config))
               = Some (pretty level)
     end) ->
    option_log_cli_level config = Some name -> name <> EmptyString ->
    name_to_level name = None ->
    option_log_cli_level (fst (pytest_cmdline_main CONSOLE name_to_level config))
    = Some (pretty level)).
  { intros level name _ _ Hmatch Hopt Hname Hnone.
    assert (Hc : configured_level name_to_level config = None).
    { unfold configured_level, level_of. rewrite Hopt.
      destruct name; [congruence|]. exact Hnone. }
    now rewrite Hc in Hmatch. }
  unfold pytest_cmdline_main, requested_level in *.
  assert (Hspec := set_cli_log_level_spec name_to_level config).
  destruct (3 <? verbose config)%Z eqn:H3; [|destruct (2 <? verbose config)%Z eqn:H2;
    [|destruct (1 <? verbose config)%Z eqn:H1]].
  4: { cbn [fst]. repeat split; auto; try discriminate. }
  all: match goal with |- context [set_cli_log_level _ _ ?l] =>
         specialize (Hspec l); cbn zeta in Hspec;
         destruct Hspec as (Hv & _ & Hi & Hunreg & Hreg) end.
  all: split; [exact Hv|]; split; [exact Hi|]; split;
    [ intros [Hle|Hr]; [lia | now rewrite (Hunreg Hr)] |].
  all: split; [ intros level [= <-] Hr; exact (Hreg Hr) |].
  all: split;
    [ intros current Hc;
      destruct (registered config) eqn:Hr;
        [ specialize (Hreg eq_refl); rewrite Hc in Hreg;
          match type of Hreg with
          | if (?l <? current)%Z then _ else _ =>
              destruct (l <? current)%Z eqn:Hlt;
                [ right; exists l; split; [exact Hreg | lia] | now left ]
          end
        | left; now rewrite (Hunreg eq_refl) ]
    | intros level name Hl Hr; apply (Hlast level name Hl Hr);
      injection Hl as <-; exact (Hreg Hr) ].
Qed.

(** With [-vvv] a configured [WARNING] is lowered to the level of the
    console; with [-vv] a configured ['10'], the level of DEBUG written as a
    number, is overwritten with ['20']. *)
Lemma cmdline_level_update_witness :
  option_log_cli_level
    (fst (pytest_cmdline_main 15
            (fun name => if String.eqb name "WARNING" then Some 30%Z else None)
            {| verbose := 3; registered := true;
               option_log_cli_level := None;
               ini_log_cli_level := Some "WARNING" |}))
  = Some "15"
  /\ option_log_cli_level
       (fst (pytest_cmdline_main 15
               (fun name => if String.eqb name "WARNING" then Some 30%Z else None)
               {| verbose := 2; registered := true;
                  option_log_cli_level := Some "10";
                  ini_log_cli_level := None |}))
     = Some "20".
Proof.
  split.
  - destruct (cmdline_level_update 15
                (fun name => if String.eqb name "WARNING" then Some 30%Z else None)
                {| verbose := 3; registered := true;
                   option_log_cli_level := None;
                   ini_log_cli_level := Some "WARNING" |})
      as (_ & _ & _ & H & _).
    exact (H 15%Z eq_refl eq_refl).
  - destruct (cmdline_level_update 15
                (fun name => if String.eqb name "WARNING" then Some 30%Z else None)
                {| verbose := 2; registered := true;
                   option_log_cli_level := Some "10";
                   ini_log_cli_level := None |})
      as (_ & _ & _ & _ & _ & H).
    refine (H 20%Z "10" eq_refl eq_refl eq_refl _ eq_refl). discriminate.
Defined.

(** ** The mapping constructor *)

Section DictConstructor.
Context {K : Type} `{EqDecision K}.

Lemma odict_get_app (key : K) (l1 l2 : list (K * value)) :
  odict_get key (l1 ++ l2)
  = match odict_get key l1 with
    | Some x => Some x
    | None => odict_get key l2
    end.
Proof.
  induction l1 as [|[k1 v1] l1 IH]; [reflexivity|].
  simpl. destruct (decide (k1 = key)); [reflexivity | apply IH].
Qed.

Lemma odict_get_set_eq (key : K) v d : odict_get key (odict_set key v d) = Some v.
Proof.
  induction d as [|[k w] d IH]; simpl.
  - now rewrite decide_True.
  - destruct (decide (k = key)) as [E|E]; simpl.
    + now rewrite decide_True.
    + now rewrite decide_False.
Qed.

Lemma odict_get_set_ne (key key' : K) v d :
  key <> key' -> odict_get key' (odict_set key v d) = odict_get key' d.
Proof.
  intros Hne. induction d as [|[k w] d IH]; simpl.
  - now rewrite decide_False.
  - destruct (decide (k = key)) as [E|E]; simpl.
    + subst. now rewrite !decide_False.
    + destruct (decide (k = key')); [reflexivity | apply IH].
Qed.

Lemma odict_get_None (key : K) d : odict_get key d = None <-> key ∉ map fst d.
Proof.
  induction d as [|[k w] d IH]; simpl.
  - split; [intros _ Hin; inversion Hin | reflexivity].
  - rewrite not_elem_of_cons. destruct (decide (k = key)) as [E|E].
    + split; [discriminate | intros [Hne _]; congruence].
    + rewrite IH. split; [intros Hd; split; [congruence | assumption] | tauto].
Qed.

Lemma keys_odict_set (key : K) v d :
  map fst (odict_set key v d)
  = if decide (key ∈ map fst d) then map fst d else map fst d ++ [key].
Proof.
  induction d as [|[k w] d IH].
  - destruct (decide (key ∈ map fst (@nil (K * value)))) as [Hin|Hin];
      [inversion Hin | reflexivity].
  - cbn [odict_set map fst].
    destruct (decide (key ∈ k :: map fst d)) as [Hc|Hc];
      destruct (decide (k = key)) as [E|E]; cbn [map fst].
    + reflexivity.
    + rewrite IH. apply elem_of_cons in Hc as [Hc|Hc]; [congruence|].
      now rewrite decide_True.
    + exfalso. apply Hc. subst. left.
    + rewrite IH. rewrite decide_False; [reflexivity|].
      intros Hin. apply Hc. now right.
Qed.



Lemma NoDup_odict_set (key : K) v d :
  NoDup (map fst d) -> NoDup (map fst (odict_set key v d)).
Proof.
  intros Hnd. rewrite keys_odict_set.
  destruct (decide (key ∈ map fst d)) as [Hin|Hin]; [assumption|].
  apply NoDup_app. split; [assumption|]. split; [|apply NoDup_singleton].
  intros k Hk Hk'. apply list_elem_of_singleton in Hk'. congruence.
Qed.

Lemma odict_set_new (key : K) v d :
  key ∉ map fst d -> odict_set key v d = d ++ [(key, v)].
Proof.
  induction d as [|[k w] d IH]; intros Hk; [reflexivity|].
  simpl in Hk. apply not_elem_of_cons in Hk as [Hne Hk]. simpl.
  rewrite decide_False by congruence. now rewrite IH.
Qed.

Lemma fold_odict_set_get (pairs : list (K * value)) : forall d key,
  odict_get key (fold_left (fun d kv => odict_set (fst kv) (snd kv) d) pairs d)
  = match odict_get key (rev pairs) with
    | Some v => Some v
    | None => odict_get key d
    end.
Proof.
  induction pairs as [|[k v] pairs IH]; intros d key; [reflexivity|].
  cbn [fold_left fst snd rev]. rewrite IH, odict_get_app.
  destruct (odict_get key (rev pairs)); [reflexivity|].
  simpl. destruct (decide (k = key)) as [E|E].
  - subst. apply odict_get_set_eq.
  - now apply odict_get_set_ne.
Qed.

Lemma fold_odict_set_NoDup (pairs : list (K * value)) : forall d,
  NoDup (map fst d) ->
  NoDup (map fst (fold_left (fun d kv => odict_set (fst kv) (snd kv) d) pairs d)).
Proof.
  induction pairs as [|[k v] pairs IH]; intros d Hnd; [assumption|].
  cbn [fold_left]. apply IH. now apply NoDup_odict_set.
Qed.

Lemma fold_odict_set_distinct (pairs : list (K * value)) : forall d,
  NoDup (map fst pairs) -> (forall k, k ∈ map fst pairs -> k ∉ map fst d) ->
  fold_left (fun d kv => odict_set (fst kv) (snd kv) d) pairs d = d ++ pairs.
Proof.
  induction pairs as [|[k v] pairs IH]; intros d Hnd Hd.
  - simpl. now rewrite app_nil_r.
  - cbn [map fst] in Hnd. apply NoDup_cons in Hnd as [Hk Hnd].
    cbn [fold_left fst snd].
    rewrite odict_set_new by (apply Hd; left).
    rewrite IH; [now rewrite <- app_assoc|assumption|].
    intros k' Hk' Hin. rewrite map_app in Hin.
    apply elem_of_app in Hin as [Hin|Hin].
    + apply (Hd k'); [now right | assumption].
    + apply list_elem_of_singleton in Hin. simpl in Hin. congruence.
Qed.





End DictConstructor.

(** For string keys the dictionary is the [dict] of the tree model. *)
Lemma odict_set_dict_set key v (d : dict) : odict_set key v d = dict_set key v d.
Proof.
  induction d as [|[k w] d IH]; [reflexivity|]. simpl.
  destruct (decide (k = key)) as [E|E].
  - subst. now rewrite String.eqb_refl.
  - apply String.eqb_neq in E. rewrite E. now rewrite IH.
Qed.

Lemma odict_get_dict_get key (d : dict) : odict_get key d = dict_get key d.
Proof.
  induction d as [|[k w] d IH]; [reflexivity|]. simpl.
  destruct (decide (k = key)) as [E|E].
  - subst. now rewrite String.eqb_refl.
  - apply String.eqb_neq in E. now rewrite E.
Qed.

Lemma odict_get_last {K : Type} `{EqDecision K} (l : list (K * value)) i key v :
  l !! i = Some (key, v) ->
  (forall j key' v', i < j -> l !! j = Some (key', v') -> key' <> key) ->
  odict_get key (rev l) = Some v.
Proof.
  intros Hi Hlater. rewrite <- (take_drop_middle l i (key, v) Hi).
  rewrite rev_app_distr. cbn [rev]. rewrite <- app_assoc. cbn [app].
  rewrite odict_get_app.
  assert (Hnone : odict_get key (rev (drop (S i) l)) = None).
  { apply odict_get_None. rewrite map_rev. intros Hin.
    rewrite list_elem_of_In in Hin. apply in_rev in Hin.
    rewrite <- list_elem_of_In in Hin.
    apply list_elem_of_fmap in Hin as ([key' v'] & Heq & Hin). simpl in Heq.
    apply list_elem_of_lookup in Hin as [j Hj]. rewrite lookup_drop in Hj.
    apply (Hlater (S i + j) key' v'); [lia | assumption | now symmetry]. }
  rewrite Hnone. simpl. now rewrite decide_True.
Qed.



(** The texts and the constructed keys part in both directions.  The plain
    scalar [1] and the quoted scalar ['1'] have one text and construct two
    keys: one warning, and nothing is overwritten.  The plain scalars [yes]
    and [true] have two texts and construct one key, [True]: an entry is
    overwritten without a warning. *)
Example text_and_key_differ :
  _dict_constructor (K := Z + string) "config.yaml"
    [({| key_text := "1"; key_object := inl 1%Z |}, VStr "a");
     ({| key_text := "1"; key_object := inr "1" |}, VStr "b")]
  = (["config.yaml: previous entry with duplicate YAML dictionary key '1' overwritten"],
     [(inl 1%Z, VStr "a"); (inr "1", VStr "b")])
  /\ _dict_constructor (K := bool + string) "config.yaml"
       [({| key_text := "yes"; key_object := inl true |}, VInt 1);
        ({| key_text := "true"; key_object := inl true |}, VInt 2)]
     = ([], [(inl true, VInt 2)]).
Proof. split; reflexivity. Qed.

(** X2: the mapping that [_dict_constructor] builds goes by the constructed
    keys: its keys are pairwise distinct and are the keys constructed from
    the key nodes; every key is bound to the value of the last entry of the
    node that constructs it (a later entry overwrites an earlier one, be
    its text the same or not); when the constructed keys of the node are
    pairwise distinct the mapping holds exactly the constructed pairs, in
    the order of the node. *)
Theorem dict_constructor_last_wins {K : Type} `{EqDecision K} (name : string)
  (pairs : list (key_node K * value)) :
  NoDup (map fst (snd (_dict_constructor name pairs)))
  /\ (forall key,
        key ∈ map fst (snd (_dict_constructor name pairs))
        <-> key ∈ map (fun kv => key_object (fst kv)) pairs)
  /\ (forall key,
        odict_get key (snd (_dict_constructor name pairs))
        = odict_get key (rev (construct_pairs pairs)))
  /\ (forall i kn v,
        pairs !! i = Some (kn, v) ->
        (forall j kn' v', i < j -> pairs !! j = Some (kn', v') ->
           key_object kn' <> key_object kn) ->
        odict_get (key_object kn) (snd (_dict_constructor name pairs)) = Some v)
  /\ (NoDup (map (fun kv => key_object (fst kv)) pairs) ->
      snd (_dict_constructor name pairs) = construct_pairs pairs).
Proof.
  unfold _dict_constructor, OrderedDict_of. cbn [snd].
  assert (Hkeys : map fst (construct_pairs pairs)
                  = map (fun kv => key_object (fst kv)) pairs).
  { unfold construct_pairs. rewrite map_map. reflexivity. }
  assert (Hget : forall key,
            odict_get key (fold_left (fun d kv => odict_set (fst kv) (snd kv) d)
                             (construct_pairs pairs) [])
            = odict_get key (rev (construct_pairs pairs))).
  { intros key. rewrite fold_odict_set_get.
    destruct (odict_get key (rev (construct_pairs pairs))); reflexivity. }
  split; [apply fold_odict_set_NoDup; constructor|].
  split; [|split; [exact Hget|split]].
  - intros key. rewrite <- Hkeys.
    assert (Hiff : forall d : list (K * value),
              key ∈ map fst d <-> odict_get key d <> None).
    { intros d. pose proof (odict_get_None key d) as Hn.
      destruct (decide (key ∈ map fst d)); tauto. }
    rewrite Hiff, Hget, <- Hiff. rewrite map_rev.
    rewrite !list_elem_of_In. symmetry. apply in_rev.
  - intros i kn v Hi Hlater. rewrite Hget.
    apply (odict_get_last (construct_pairs pairs) i).
    + unfold construct_pairs. rewrite list_lookup_fmap, Hi. reflexivity.
    + intros j key' v' Hij Hj. unfold construct_pairs in Hj.
      rewrite list_lookup_fmap in Hj.
      destruct (pairs !! j) as [[kn' w]|] eqn:Hpj; [|discriminate].
      simpl in Hj. injection Hj as <- <-. now apply (Hlater j kn' w).
  - intros Hnd. rewrite fold_odict_set_distinct; [reflexivity| |].
    + now rewrite Hkeys.
    + intros k _ Hin. inversion Hin.
Qed.

Lemma dict_constructor_last_wins_witness :
  snd (_dict_constructor "config.yaml"
         [(str_key "a", VInt 1); (str_key "b", VInt 2)])
  = [("a", VInt 1); ("b", VInt 2)]
  /\ odict_get (inl true)
       (snd (_dict_constructor (K := bool + string) "config.yaml"
               [({| key_text := "yes"; key_object := inl true |}, VInt 1);
                ({| key_text := "true"; key_object := inl true |}, VInt 2)]))
     = Some (VInt 2).
Proof.
  split.
  - apply (proj2 (proj2 (proj2 (proj2 (dict_constructor_last_wins "config.yaml"
      [(str_key "a", VInt 1); (str_key "b", VInt 2)]))))).
    apply (bool_decide_unpack _). vm_compute. exact I.
  - apply (proj1 (proj2 (proj2 (proj2 (dict_constructor_last_wins
      (K := bool + string) "config.yaml"
      [({| key_text := "yes"; key_object := inl true |}, VInt 1);
       ({| key_text := "true"; key_object := inl true |}, VInt 2)]))))
      1 {| key_text := "true"; key_object := inl true |} (VInt 2) eq_refl).
    intros j kn' v' Hj Hlook. destruct j as [|[|j]]; [lia | lia | discriminate].
Defined.

(** With string keys the mapping is a [dict] of the tree model, built by
    [dict_set]. *)
Lemma dict_constructor_str_keys (name : string) (pairs : list (string * value)) :
  snd (_dict_constructor name (map (fun kv => (str_key (fst kv), snd kv)) pairs))
  = fold_left (fun d kv => dict_set (fst kv) (snd kv) d) pairs [].
Proof.
  unfold _dict_constructor, OrderedDict_of, construct_pairs. cbn [snd].
  rewrite map_map. cbn [fst snd str_key key_object].
  generalize (@nil (string * value)).
  induction pairs as [|[k v] pairs IH]; intros d; [reflexivity|].
  cbn [map fold_left fst snd]. rewrite IH. now rewrite odict_set_dict_set.
Qed.
